(** * Memory Markets: the marketplace retrieval engine

    A shallow embedding of the two source files that make up the retrieval
    core of the marketplace,

      - [context/vector-store.ts]  (class [LocalVectorStore], [cosineSimilarity])
      - [marketplace/search.ts]    (class [MarketplaceSearch])

    and of the embedding calls of the two providers ([ai/gemini.ts],
    [ai/openrouter.ts]), together with the properties stated about them.

    Conventions of the embedding.

    - In the classes a JavaScript [number] is a real number ([R]): arithmetic
      is exact, there is no rounding, no NaN and no infinity.  What is proved
      there of scores is how they are ordered and which entry they belong to.
      The value of a score is settled on IEEE 754 binary64 (module
      [Binary64]), and the numbers that JSON cannot write are part of the
      states of module [Persistence].  Array lengths and indices are [nat];
      the [dimensions], [topK] and [limit] arguments are integers ([Z]), so
      that the behaviour of [Array.prototype.slice] on a negative bound is
      kept.
    - A JavaScript [Map] is an association list in insertion order: [set] on a
      key that is present replaces the value in place, [set] on a new key
      appends.
    - A method that mutates [this] is a function from the state before the call
      to the outcome and the state after it.  A [throw] is the [Err] outcome.
    - The file system is a function from paths to file contents.  Contents are
      kept up to JSON's concrete syntax: a file holds either text that
      [JSON.parse] rejects or the text of a JSON value.
    - The values kept in the metadata of an entry are JSON values (strings and
      numbers in every use the repository makes of the index); module
      [Persistence] adds [undefined].
    - The listing store (SQLite) and the embedding provider are collaborators
      from outside these two files: they are records of functions. *)

From Stdlib Require Import Reals Lra Lia ZArith String Ascii Bool List.
From Stdlib Require Import Permutation Sorted.
From Stdlib Require Floats.
Import ListNotations.

Set Implicit Arguments.
Set Warnings "-register-all".

(* ================================================================== *)
(** * JavaScript runtime: outcomes, arrays, maps, JSON *)
(* ================================================================== *)

Module Js.

(** Where a dimension check is made: the two messages of the store are
    "Embedding dimension mismatch" ([add]) and "Query embedding dimension
    mismatch" ([query]). *)
Inductive site : Type := InAdd | InQuery.

(** The exceptions the modelled code can raise or let through. *)
Inductive error : Type :=
| DimensionMismatch (where_ : site) (expected : Z) (got : nat)
| VectorLengthMismatch (la lb : nat)
| FileNotFound (path : string)
| SyntaxError
| TypeError
| ProviderError (msg : string).

Inductive result (A : Type) : Type :=
| Ok (a : A)
| Err (e : error).
Arguments Ok {A} a.
Arguments Err {A} e.

Definition bind {A B : Type} (c : result A) (k : A -> result B) : result B :=
  match c with
  | Ok a => k a
  | Err e => Err e
  end.

Definition is_ok {A : Type} (c : result A) : bool :=
  match c with Ok _ => true | Err _ => false end.

(** [x > y] on numbers. *)
Definition gtb (x y : R) : bool := if Rlt_dec y x then true else false.

(** [l.slice(0, n)] for an integer [n]: a negative [n] counts from the end. *)
Definition slice0 {A : Type} (l : list A) (n : Z) : list A :=
  if (n <? 0)%Z
  then firstn (Z.to_nat (Z.of_nat (length l) + n)) l
  else firstn (Z.to_nat n) l.

(** [l.sort((a, b) => b.score - a.score)].  The sort of the runtime is stable;
    with a comparator that is the sign of a difference of reals the result is
    the stable sort by descending score, computed here by insertion. *)
Section Sort.
Variable T : Type.
Variable score : T -> R.

Fixpoint insert_desc (x : T) (l : list T) : list T :=
  match l with
  | [] => [x]
  | y :: l' =>
      if Rle_dec (score y) (score x)
      then x :: y :: l'
      else y :: insert_desc x l'
  end.

Fixpoint sort_desc (l : list T) : list T :=
  match l with
  | [] => []
  | x :: l' => insert_desc x (sort_desc l')
  end.

(** [a] may stand before [b] in a list in descending order of score. *)
Definition desc (a b : T) : Prop := (score b <= score a)%R.
End Sort.

(** A [Map<K, V>] in insertion order; [keq] is the key comparison of the
    runtime (SameValueZero). *)
Section JsMap.
Variables K V : Type.
Variable keq : K -> K -> bool.

Fixpoint map_get (k : K) (m : list (K * V)) : option V :=
  match m with
  | [] => None
  | (k', v) :: m' => if keq k k' then Some v else map_get k m'
  end.

Fixpoint map_set (k : K) (v : V) (m : list (K * V)) : list (K * V) :=
  match m with
  | [] => [(k, v)]
  | (k', v') :: m' =>
      if keq k k' then (k', v) :: m' else (k', v') :: map_set k v m'
  end.

Definition map_has (k : K) (m : list (K * V)) : bool :=
  match map_get k m with Some _ => true | None => false end.

Fixpoint map_delete (k : K) (m : list (K * V)) : list (K * V) :=
  match m with
  | [] => []
  | (k', v') :: m' =>
      if keq k k' then m' else (k', v') :: map_delete k m'
  end.

Definition map_values (m : list (K * V)) : list V := map snd m.
Definition map_keys (m : list (K * V)) : list K := map fst m.
End JsMap.

(** JSON values, as [JSON.parse] returns them and [JSON.stringify] prints
    them.  The fields of an object are in property order. *)
Inductive json : Type :=
| JNull
| JBool (b : bool)
| JNum (x : R)
| JStr (s : string)
| JArr (items : list json)
| JObj (fields : list (string * json)).

(** Reading the own property [k] of an object literal. *)
Definition field (k : string) (fields : list (string * json)) : option json :=
  map_get String.eqb k fields.

(** [!v] is false: [undefined] is [None]. *)
Definition truthy (v : option json) : bool :=
  match v with
  | None => false
  | Some JNull => false
  | Some (JBool b) => b
  | Some (JNum x) => if Req_dec_T x 0 then false else true
  | Some (JStr s) => negb (String.eqb s "")
  | Some (JArr _) => true
  | Some (JObj _) => true
  end.

(** Contents of a file, up to the concrete syntax of JSON. *)
Inductive contents : Type :=
| NotJSON (raw : string)
| JSONText (j : json).

Definition JSON_stringify (j : json) : contents := JSONText j.

Definition JSON_parse (c : contents) : result json :=
  match c with
  | NotJSON _ => Err SyntaxError
  | JSONText j => Ok j
  end.

Definition filesystem : Type := string -> option contents.

Definition readFileSync (fs : filesystem) (path : string) : result contents :=
  match fs path with
  | Some c => Ok c
  | None => Err (FileNotFound path)
  end.

Definition writeFileSync (fs : filesystem) (path : string) (c : contents)
  : filesystem :=
  fun p => if String.eqb p path then Some c else fs p.

End Js.

Import Js.

Notation "x <- c ;; k" := (bind c (fun x => k))
  (at level 61, c at next level, right associativity).

(* ================================================================== *)
(** * context/vector-store.ts *)
(* ================================================================== *)

Module VectorStore.

Local Open Scope R_scope.

Definition Metadata : Type := list (string * json).

Record VectorEntry : Type := mkEntry {
  id : string;
  embedding : list R;
  metadata : Metadata
}.

Record SearchResult : Type := mkResult {
  res_id : string;
  score : R;
  res_metadata : Metadata
}.

Record StoredData : Type := mkStored {
  stored_entries : list VectorEntry;
  stored_dimensions : Z
}.

Record LocalVectorStore : Type := mkStore {
  entries : list (string * VectorEntry);
  dimensions : Z
}.

(** [new LocalVectorStore(dimensions)]; the default argument is 768. *)
Definition default_dimensions : Z := 768%Z.
Definition new (dimensions : Z) : LocalVectorStore :=
  {| entries := []; dimensions := dimensions |}.

Definition size (s : LocalVectorStore) : nat := length (entries s).

(** ** cosineSimilarity *)

(** One turn of the loop over [i]: the three accumulators. *)
Definition cos_step (acc : R * R * R) (xy : R * R) : R * R * R :=
  let '(dotProduct, normA, normB) := acc in
  let '(x, y) := xy in
  (dotProduct + x * y, normA + x * x, normB + y * y).

Definition cosineSimilarity (a b : list R) : result R :=
  if negb (length a =? length b)%nat
  then Err (VectorLengthMismatch (length a) (length b))
  else
    let '(dotProduct, normA, normB) :=
      fold_left cos_step (combine a b) (0, 0, 0) in
    let denominator := sqrt normA * sqrt normB in
    if Req_dec_T denominator 0 then Ok 0 else Ok (dotProduct / denominator).

(** ** add, addBatch *)

Definition add (id : string) (embedding : list R) (metadata : Metadata)
    (s : LocalVectorStore) : result unit * LocalVectorStore :=
  if negb (Z.of_nat (length embedding) =? dimensions s)%Z
  then (Err (DimensionMismatch InAdd (dimensions s) (length embedding)), s)
  else (Ok tt,
        {| entries := map_set String.eqb id (mkEntry id embedding metadata)
                              (entries s);
           dimensions := dimensions s |}).

Record BatchItem : Type := mkItem {
  item_id : string;
  item_embedding : list R;
  item_metadata : option Metadata
}.

(** [item.metadata ?? {}] *)
Definition metadata_or_empty (m : option Metadata) : Metadata :=
  match m with Some md => md | None => [] end.

Fixpoint addBatch (items : list BatchItem) (s : LocalVectorStore)
  : result unit * LocalVectorStore :=
  match items with
  | [] => (Ok tt, s)
  | item :: rest =>
      match add (item_id item) (item_embedding item)
                (metadata_or_empty (item_metadata item)) s with
      | (Ok _, s') => addBatch rest s'
      | (Err e, s') => (Err e, s')
      end
  end.

(** ** query *)

(** The loop over [this.entries.values()], pushing onto [scored]. *)
Fixpoint score_entries (embedding : list R) (values : list VectorEntry)
    (scored : list SearchResult) : result (list SearchResult) :=
  match values with
  | [] => Ok scored
  | entry :: rest =>
      sc <- cosineSimilarity embedding (VectorStore.embedding entry) ;;
      score_entries embedding rest
        (scored ++ [mkResult (id entry) sc (metadata entry)])
  end.

Definition query (embedding : list R) (topK : Z) (s : LocalVectorStore)
  : result (list SearchResult) :=
  if negb (Z.of_nat (length embedding) =? dimensions s)%Z
  then Err (DimensionMismatch InQuery (dimensions s) (length embedding))
  else
    scored <- score_entries embedding (map_values (entries s)) [] ;;
    Ok (slice0 (sort_desc score scored) topK).

Definition default_topK : Z := 5%Z.

(** ** has, get, delete, clear *)

Definition has (id : string) (s : LocalVectorStore) : bool :=
  map_has String.eqb id (entries s).

Definition get (id : string) (s : LocalVectorStore) : option VectorEntry :=
  map_get String.eqb id (entries s).

Definition delete (id : string) (s : LocalVectorStore)
  : bool * LocalVectorStore :=
  (map_has String.eqb id (entries s),
   {| entries := map_delete String.eqb id (entries s);
      dimensions := dimensions s |}).

Definition clear (s : LocalVectorStore) : LocalVectorStore :=
  {| entries := []; dimensions := dimensions s |}.

(** ** save *)

Definition entry_to_json (e : VectorEntry) : json :=
  JObj [("id"%string, JStr (id e));
        ("embedding"%string, JArr (map JNum (embedding e)));
        ("metadata"%string, JObj (metadata e))].

Definition data_to_json (d : StoredData) : json :=
  JObj [("entries"%string, JArr (map entry_to_json (stored_entries d)));
        ("dimensions"%string, JNum (IZR (stored_dimensions d)))].

(** [mkdirSync(dirname(filePath), {recursive: true})] has no counterpart: the
    file system of the model has no directories. *)
Definition save (filePath : string) (s : LocalVectorStore) (fs : filesystem)
  : filesystem :=
  let data := {| stored_entries := map_values (entries s);
                 stored_dimensions := dimensions s |} in
  writeFileSync fs filePath (JSON_stringify (data_to_json data)).

(** ** load *)

(** [load] checks nothing about what [JSON.parse] returns, so the store it
    builds holds whatever the file held: the keys of the map are the values of
    [entry.id] ([None] is [undefined]), the values are the parsed entries, and
    [dimensions] is the parsed value of that name. *)
Record LoadedStore : Type := mkLoaded {
  loaded_entries : list (option json * json);
  loaded_dimensions : json
}.

(** Key comparison of [Map] on parsed values.  Arrays and objects are compared
    by identity, and two parsed ones are never the same object. *)
Definition same_value_zero (a b : option json) : bool :=
  match a, b with
  | None, None => true
  | Some JNull, Some JNull => true
  | Some (JBool x), Some (JBool y) => Bool.eqb x y
  | Some (JNum x), Some (JNum y) => if Req_dec_T x y then true else false
  | Some (JStr x), Some (JStr y) => String.eqb x y
  | _, _ => false
  end.

(** [v.k] for the names that [load] reads ([dimensions], [entries], [id]).
    Reading a property of [null] throws; a string, number, boolean or array has
    none of the three as a data property (the [entries] of an array is a
    method, which the loop cannot iterate either). *)
Definition prop (k : string) (v : json) : result (option json) :=
  match v with
  | JNull => Err TypeError
  | JObj fields => Ok (field k fields)
  | _ => Ok None
  end.

(** What [for (const entry of v)] iterates over: the items of an array, the
    characters of a string (one per byte here); anything else is not
    iterable. *)
Definition iterate (v : option json) : result (list json) :=
  match v with
  | Some (JArr items) => Ok items
  | Some (JStr s) =>
      Ok (map (fun c => JStr (String c EmptyString)) (list_ascii_of_string s))
  | _ => Err TypeError
  end.

Fixpoint load_entries (items : list json) (m : list (option json * json))
  : result (list (option json * json)) :=
  match items with
  | [] => Ok m
  | entry :: rest =>
      k <- prop "id" entry ;;
      load_entries rest (map_set same_value_zero k entry m)
  end.

Definition load (filePath : string) (fs : filesystem) : result LoadedStore :=
  raw <- readFileSync fs filePath ;;
  data <- JSON_parse raw ;;
  dims <- prop "dimensions" data ;;
  let store_dimensions :=
    match dims with
    | None => JNum (IZR default_dimensions)
    | Some d => d
    end in
  ents <- prop "entries" data ;;
  items <- iterate ents ;;
  m <- load_entries items [] ;;
  Ok {| loaded_entries := m; loaded_dimensions := store_dimensions |}.

(** A keyed entry, and the store [s], as [load] holds them. *)
Definition held (kv : string * VectorEntry) : option json * json :=
  (Some (JStr (fst kv)), entry_to_json (snd kv)).

Definition as_loaded (s : LocalVectorStore) : LoadedStore :=
  {| loaded_entries := map held (entries s);
     loaded_dimensions := JNum (IZR (dimensions s)) |}.

(** The JSON values on which the body of [load] runs to its end: an object
    whose [entries] is an array without [null] items, or a string. *)
Definition not_null (v : json) : bool :=
  match v with JNull => false | _ => true end.

Definition loadable (data : json) : bool :=
  match data with
  | JObj fields =>
      match field "entries" fields with
      | Some (JArr items) => forallb not_null items
      | Some (JStr _) => true
      | _ => false
      end
  | _ => false
  end.

(** The index that holds the entries of [d] in their order, keyed by id. *)
Definition store_of_data (d : StoredData) : LocalVectorStore :=
  {| entries := map (fun e => (id e, e)) (stored_entries d);
     dimensions := stored_dimensions d |}.

(** ** Indices built through the constructor *)

(** The states of an index constructed with dimensionality [D]. *)
Inductive constructed (D : Z) : LocalVectorStore -> Prop :=
| c_new : constructed D (new D)
| c_add s i e md s' :
    constructed D s -> add i e md s = (Ok tt, s') -> constructed D s'
| c_delete s i : constructed D s -> constructed D (snd (delete i s))
| c_clear s : constructed D s -> constructed D (clear s).

(** The invariant of such states: the key of an entry is its id, no id occurs
    twice, every embedding has the length of the index. *)
Definition keyed (s : LocalVectorStore) : Prop :=
  Forall (fun kv => fst kv = id (snd kv)) (entries s).

Definition unique_ids (s : LocalVectorStore) : Prop :=
  NoDup (map_keys (entries s)).

Definition uniform (s : LocalVectorStore) : Prop :=
  Forall (fun kv => Z.of_nat (length (embedding (snd kv))) = dimensions s)
         (entries s).

(** What the scoring loop of [query] makes of an entry. *)
Definition scored_as (q : list R) (e : VectorEntry) (r : SearchResult) : Prop :=
  res_id r = id e /\ res_metadata r = metadata e /\
  cosineSimilarity q (embedding e) = Ok (score r).

(** The last of the entries, and of the items of a batch, with the id [i]. *)
Fixpoint last_entry (i : string) (es : list VectorEntry) : option VectorEntry :=
  match es with
  | [] => None
  | e :: es' =>
      match last_entry i es' with
      | Some e' => Some e'
      | None => if String.eqb (id e) i then Some e else None
      end
  end.

Definition entry_of_item (item : BatchItem) : VectorEntry :=
  mkEntry (item_id item) (item_embedding item)
          (metadata_or_empty (item_metadata item)).

(** The ids in the order of their first occurrence. *)
Fixpoint first_occurrences (seen ids : list string) : list string :=
  match ids with
  | [] => []
  | i :: ids' =>
      if existsb (String.eqb i) seen
      then first_occurrences seen ids'
      else i :: first_occurrences (seen ++ [i]) ids'
  end.

(** What the loop of [load] does with an entry, [store.entries.set(entry.id,
    entry)], and the index it builds from serialized index data. *)
Definition set_entry (m : list (string * VectorEntry)) (e : VectorEntry)
  : list (string * VectorEntry) :=
  map_set String.eqb (id e) e m.

Definition loaded_index (d : StoredData) : LocalVectorStore :=
  {| entries := fold_left set_entry (stored_entries d) [];
     dimensions := stored_dimensions d |}.

(** ** The mathematical cosine *)

Fixpoint dot (a b : list R) : R :=
  match a, b with
  | x :: a', y :: b' => x * y + dot a' b'
  | _, _ => 0
  end.

Definition norm (a : list R) : R := sqrt (dot a a).

End VectorStore.

(* ================================================================== *)
(** * context/vector-store.ts: cosineSimilarity on binary64 *)
(* ================================================================== *)

(** The numbers of the program are IEEE 754 binary64 values.  Where a
    property does not depend on how a score is rounded (lengths, orders,
    which entries are returned) the development computes with exact reals;
    this module is [cosineSimilarity] with the arithmetic of the program, on
    which the value of a score is settled. *)
Module Binary64.

Import Floats.
Local Open Scope float_scope.

Definition cos_step (acc : float * float * float) (xy : float * float)
  : float * float * float :=
  let '(dotProduct, normA, normB) := acc in
  let '(x, y) := xy in
  (dotProduct + x * y, normA + x * x, normB + y * y).

Definition cosineSimilarity (a b : list float) : result float :=
  if negb (length a =? length b)%nat
  then Err (VectorLengthMismatch (length a) (length b))
  else
    let '(dotProduct, normA, normB) :=
      fold_left cos_step (combine a b) (0, 0, 0) in
    let denominator := sqrt normA * sqrt normB in
    if denominator =? 0 then Ok 0 else Ok (dotProduct / denominator).

(** ** Notions used to state the properties *)

(** The three sums of the loop, each on its own. *)
Definition dot (a b : list float) : float :=
  fold_left (fun acc xy => acc + fst xy * snd xy) (combine a b) 0.

Definition sum_squares (a : list float) : float :=
  fold_left (fun acc x => acc + x * x) a 0.

Definition norm (a : list float) : float := sqrt (sum_squares a).

(** [x === 0], true of both zeros. *)
Definition is_zero (x : float) : bool := x =? 0.

(** Neither NaN nor an infinity. *)
Definition finite (x : float) : bool := negb (is_nan x || is_infinity x).

(** The quotient that the last lines of the function return. *)
Definition quotient (a b : list float) : float :=
  if is_zero (norm a * norm b) then 0 else dot a b / (norm a * norm b).

Definition zero : float := 0.
Definition one : float := 1.

(** The vector of [n] zeros. *)
Definition zeros (n : nat) : list float := repeat 0 n.

End Binary64.

(* ================================================================== *)
(** * marketplace/search.ts *)
(* ================================================================== *)

Module Search.

Local Open Scope R_scope.

(** A row of the [packages] table, as [rowToListing] returns it. *)
Record PackageListing : Type := mkListing {
  id : string;
  name : string;
  description : string;
  tags : string;
  priceMon : R;
  tokenAddress : option string;
  curveAddress : option string;
  creatorAddress : option string;
  packagePath : string;
  fileCount : Z;
  chunkCount : Z;
  entityCount : Z;
  timesSold : Z;
  createdAt : string
}.

Inductive MatchType : Type := keyword | semantic | combined.

Record SearchResult : Type := mkResult {
  listing : PackageListing;
  score : R;
  matchType : MatchType
}.

(** The two queries of the listing store that the engine uses.  [getPackage]
    receives the value found under [packageId] in the metadata of a neighbor,
    which the source asserts to be a string without checking it. *)
Record MarketplaceRegistry : Type := mkRegistry {
  searchByKeyword : string -> list PackageListing;
  getPackage : json -> option PackageListing
}.

(** The embedding provider; a failed request is an exception. *)
Record GeminiEmbedder : Type := mkEmbedder {
  embedOne : string -> result (list R);
  getDimensions : Z
}.

Record MarketplaceSearch : Type := mkSearch {
  registry : MarketplaceRegistry;
  summaryStore : option VectorStore.LocalVectorStore;
  embedder : option GeminiEmbedder
}.

(** [new MarketplaceSearch(registry)] *)
Definition new (registry : MarketplaceRegistry) : MarketplaceSearch :=
  {| registry := registry; summaryStore := None; embedder := None |}.

(** ** keywordSearch *)

(** [l.map((x, index) => f(x, index))], counting from [index]. *)
Fixpoint map_index (A B : Type) (f : A -> nat -> B) (l : list A) (index : nat)
  : list B :=
  match l with
  | [] => []
  | x :: l' => f x index :: map_index f l' (S index)
  end.

Definition keyword_result (listing : PackageListing) (index : nat)
  : SearchResult :=
  {| listing := listing;
     score := 1.0 - INR index * 0.05;
     matchType := keyword |}.

Definition keywordSearch (this : MarketplaceSearch) (query : string)
  : list SearchResult :=
  map_index keyword_result (searchByKeyword (registry this) query) 0.

(** ** semanticSearch *)

(** The loop over the neighbors, pushing onto [searchResults]. *)
Fixpoint resolve_neighbors (reg : MarketplaceRegistry)
    (results : list VectorStore.SearchResult)
    (searchResults : list SearchResult) : list SearchResult :=
  match results with
  | [] => searchResults
  | result :: rest =>
      match field "packageId" (VectorStore.res_metadata result) with
      | Some packageId =>
          if negb (truthy (Some packageId))
          then resolve_neighbors reg rest searchResults
          else
            match getPackage reg packageId with
            | None => resolve_neighbors reg rest searchResults
            | Some listing =>
                resolve_neighbors reg rest
                  (searchResults ++
                   [{| listing := listing;
                       score := VectorStore.score result;
                       matchType := semantic |}])
            end
      | None => resolve_neighbors reg rest searchResults
      end
  end.

Definition semanticSearch (this : MarketplaceSearch) (query : string)
    (limit : Z) : result (list SearchResult) :=
  match embedder this, summaryStore this with
  | Some emb, Some store =>
      queryEmbedding <- embedOne emb query ;;
      results <- VectorStore.query queryEmbedding limit store ;;
      Ok (resolve_neighbors (registry this) results [])
  | _, _ => Ok []
  end.

(** ** combineResults *)

Record ScoreEntry : Type := mkScore {
  entry_listing : PackageListing;
  keywordScore : R;
  semanticScore : R
}.

Definition KEYWORD_WEIGHT : R := 0.4.
Definition SEMANTIC_WEIGHT : R := 0.6.

Definition ScoreMap : Type := list (string * ScoreEntry).

(** First loop: one [set] per keyword result. *)
Definition put_keyword (scoreMap : ScoreMap) (r : SearchResult) : ScoreMap :=
  map_set String.eqb (id (listing r))
    {| entry_listing := listing r;
       keywordScore := score r;
       semanticScore := 0 |}
    scoreMap.

(** Second loop: the entry of a listing already in the map is updated in
    place, a new listing is appended. *)
Definition put_semantic (scoreMap : ScoreMap) (r : SearchResult) : ScoreMap :=
  match map_get String.eqb (id (listing r)) scoreMap with
  | Some existing =>
      map_set String.eqb (id (listing r))
        {| entry_listing := entry_listing existing;
           keywordScore := keywordScore existing;
           semanticScore := score r |}
        scoreMap
  | None =>
      map_set String.eqb (id (listing r))
        {| entry_listing := listing r;
           keywordScore := 0;
           semanticScore := score r |}
        scoreMap
  end.

Definition fused_result (entry : ScoreEntry) : SearchResult :=
  {| listing := entry_listing entry;
     score := keywordScore entry * KEYWORD_WEIGHT
              + semanticScore entry * SEMANTIC_WEIGHT;
     matchType :=
       if gtb (keywordScore entry) 0 && gtb (semanticScore entry) 0
       then combined
       else if gtb (keywordScore entry) 0 then keyword else semantic |}.

Definition build_scoreMap (keyword semantic : list SearchResult) : ScoreMap :=
  fold_left put_semantic semantic (fold_left put_keyword keyword []).

Definition combineResults (keyword semantic : list SearchResult) (limit : Z)
  : list SearchResult :=
  let scoreMap := build_scoreMap keyword semantic in
  let combined := map fused_result (map_values scoreMap) in
  slice0 (sort_desc score combined) limit.

(** ** search *)

Definition default_limit : Z := 10%Z.

(** [semanticResults]: empty unless the embedder and a store that is not empty
    are there. *)
Definition semantic_leg (this : MarketplaceSearch) (query : string) (limit : Z)
  : result (list SearchResult) :=
  match embedder this, summaryStore this with
  | Some _, Some store =>
      if (0 <? VectorStore.size store)%nat
      then semanticSearch this query limit
      else Ok []
  | _, _ => Ok []
  end.

Definition search (this : MarketplaceSearch) (query : string) (limit : Z)
  : result (list SearchResult) :=
  let keywordResults := keywordSearch this query in
  semanticResults <- semantic_leg this query limit ;;
  if (length semanticResults =? 0)%nat
  then Ok (slice0 keywordResults limit)
  else Ok (combineResults keywordResults semanticResults limit).

(** ** Notions used to state the properties *)

(** The listing a neighbor resolves to: its metadata has a [packageId] that is
    not falsy and that the listing store knows. *)
Definition resolves_to (reg : MarketplaceRegistry)
    (r : VectorStore.SearchResult) (l : PackageListing) : Prop :=
  exists packageId,
    field "packageId" (VectorStore.res_metadata r) = Some packageId /\
    truthy (Some packageId) = true /\
    getPackage reg packageId = Some l.

Definition resolve (reg : MarketplaceRegistry) (r : VectorStore.SearchResult)
  : option PackageListing :=
  match field "packageId" (VectorStore.res_metadata r) with
  | Some packageId =>
      if truthy (Some packageId) then getPackage reg packageId else None
  | None => None
  end.

(** The neighbors that resolve, in their order, as semantic results. *)
Definition resolved_neighbors (reg : MarketplaceRegistry)
    (results : list VectorStore.SearchResult) : list SearchResult :=
  flat_map
    (fun r =>
       match resolve reg r with
       | Some l => [{| listing := l;
                       score := VectorStore.score r;
                       matchType := semantic |}]
       | None => []
       end)
    results.

(** The score that a result set gives to the listing [i]: that of the last
    result for [i], and 0 when there is none. *)
Fixpoint last_result (i : string) (l : list SearchResult)
  : option SearchResult :=
  match l with
  | [] => None
  | r :: l' =>
      match last_result i l' with
      | Some r' => Some r'
      | None => if String.eqb (id (listing r)) i then Some r else None
      end
  end.

Definition side (i : string) (l : list SearchResult) : R :=
  match last_result i l with
  | Some r => score r
  | None => 0
  end.

Definition ids (l : list SearchResult) : list string :=
  map (fun r => id (listing r)) l.

Definition resolvable (reg : MarketplaceRegistry)
    (r : VectorStore.SearchResult) : bool :=
  match resolve reg r with Some _ => true | None => false end.

(** The semantic result made of a neighbor. *)
Definition made_of (reg : MarketplaceRegistry) (r : VectorStore.SearchResult)
    (x : SearchResult) : Prop :=
  resolves_to reg r (listing x) /\
  score x = VectorStore.score r /\
  matchType x = semantic.

(** The two scores that a score map holds for the listing [i]. *)
Definition kscore (i : string) (m : ScoreMap) : R :=
  match map_get String.eqb i m with
  | Some e => keywordScore e
  | None => 0
  end.

Definition sscore (i : string) (m : ScoreMap) : R :=
  match map_get String.eqb i m with
  | Some e => semanticScore e
  | None => 0
  end.

Definition keys_are_ids (m : ScoreMap) : Prop :=
  Forall (fun kv => fst kv = id (entry_listing (snd kv))) m.

(** Every entry of the score map holds a listing of [L]. *)
Definition listed (L : list PackageListing) (m : ScoreMap) : Prop :=
  Forall (fun kv => In (entry_listing (snd kv)) L) m.

(** The results of the fusion before they are sorted and cut. *)
Definition unsorted (keyword semantic : list SearchResult)
  : list SearchResult :=
  map fused_result (map_values (build_scoreMap keyword semantic)).

(** The number of listings that two result sets match. *)
Definition matched (keyword semantic : list SearchResult) : nat :=
  length (nodup string_dec (ids keyword ++ ids semantic)).

(** The shape of the score map: one entry per listing id, under that id. *)
Definition well_keyed (m : ScoreMap) : Prop :=
  NoDup (map_keys m) /\ keys_are_ids m.

End Search.

(* ================================================================== *)
(** * marketplace/search.ts: the summary index *)
(* ================================================================== *)

Module SummaryIndex.

Import VectorStore Search.
Local Open Scope R_scope.

(** What the two methods take from the installation: the home directory, and
    what [new GeminiEmbedder()] gives (an exception when no provider can be
    configured). *)
Record Installation : Type := mkInstallation {
  homedir : string;
  newGeminiEmbedder : result GeminiEmbedder
}.

(** [join(join(homedir(), ".memory-markets"), "summary-index.json")], for a
    home directory in normal form on a POSIX system. *)
Definition getSummaryIndexPath (env : Installation) : string :=
  (homedir env ++ "/.memory-markets/summary-index.json")%string.

Definition existsSync (fs : filesystem) (path : string) : bool :=
  match fs path with Some _ => true | None => false end.

(** ** Reading a loaded store as an index *)

(** [load] keeps what the file held.  The engine is modelled for the files
    that hold an index as [save] writes it; [typed] reads such a store, and is
    [None] on any other. *)
Fixpoint numbers (items : list json) : option (list R) :=
  match items with
  | [] => Some []
  | JNum x :: rest => option_map (cons x) (numbers rest)
  | _ :: _ => None
  end.

Definition entry_of_json (v : json) : option VectorEntry :=
  match v with
  | JObj [(k1, JStr i); (k2, JArr xs); (k3, JObj md)] =>
      if (String.eqb k1 "id" && String.eqb k2 "embedding"
          && String.eqb k3 "metadata")%bool
      then option_map (fun e => mkEntry i e md) (numbers xs)
      else None
  | _ => None
  end.

Definition held_entry (kv : option json * json)
  : option (string * VectorEntry) :=
  match kv with
  | (Some (JStr k), v) => option_map (pair k) (entry_of_json v)
  | _ => None
  end.

Fixpoint all_some (A : Type) (l : list (option A)) : option (list A) :=
  match l with
  | [] => Some []
  | Some x :: rest => option_map (cons x) (all_some rest)
  | None :: _ => None
  end.

Definition integer (x : R) : option Z :=
  if Req_dec_T (IZR (Int_part x)) x then Some (Int_part x) else None.

Definition typed (l : LoadedStore) : option LocalVectorStore :=
  match loaded_dimensions l with
  | JNum x =>
      match integer x, all_some (map held_entry (loaded_entries l)) with
      | Some d, Some es => Some {| entries := es; dimensions := d |}
      | _, _ => None
      end
  | _ => None
  end.

(** ** loadSummaryIndex *)

Definition with_store (this : MarketplaceSearch)
    (store : option LocalVectorStore) : MarketplaceSearch :=
  {| registry := registry this;
     summaryStore := store;
     embedder := embedder this |}.

Definition with_embedder (this : MarketplaceSearch) (emb : GeminiEmbedder)
  : MarketplaceSearch :=
  {| registry := registry this;
     summaryStore := summaryStore this;
     embedder := Some emb |}.

(** The outcome and the engine after the call; [None] when the file holds
    JSON that [load] accepts and that is not an index. *)
Definition loadSummaryIndex (env : Installation) (fs : filesystem)
    (this : MarketplaceSearch) : option (result unit * MarketplaceSearch) :=
  let indexPath := getSummaryIndexPath env in
  if existsSync fs indexPath
  then
    match load indexPath fs with
    | Err e => Some (Err e, this)
    | Ok l =>
        match typed l with
        | Some store => Some (Ok tt, with_store this (Some store))
        | None => None
        end
    end
  else Some (Ok tt, this).

(** ** indexPackageSummary *)

(** The second step: the store of the engine or, when there is none, the
    persisted index if the file exists and an empty index otherwise.  When
    [load] throws, the engine is left holding the empty index. *)
Definition ensure_store (env : Installation) (fs : filesystem)
    (emb : GeminiEmbedder) (this : MarketplaceSearch)
  : option (result LocalVectorStore * MarketplaceSearch) :=
  match summaryStore this with
  | Some store => Some (Ok store, this)
  | None =>
      let fresh := VectorStore.new (getDimensions emb) in
      let indexPath := getSummaryIndexPath env in
      if existsSync fs indexPath
      then
        match load indexPath fs with
        | Err e => Some (Err e, with_store this (Some fresh))
        | Ok l =>
            match typed l with
            | Some store => Some (Ok store, with_store this (Some store))
            | None => None
            end
        end
      else Some (Ok fresh, with_store this (Some fresh))
  end.

(** The metadata under which a summary is indexed, [{ packageId }]. *)
Definition summary_metadata (packageId : string) : Metadata :=
  [("packageId"%string, JStr packageId)].

(** The outcome, the engine and the file system after the call. *)
Definition indexPackageSummary (env : Installation)
    (packageId summaryText : string)
    (this : MarketplaceSearch) (fs : filesystem)
  : option (result unit * MarketplaceSearch * filesystem) :=
  match (match embedder this with
         | Some emb => Ok emb
         | None => newGeminiEmbedder env
         end) with
  | Err e => Some (Err e, this, fs)
  | Ok emb =>
      match ensure_store env fs emb (with_embedder this emb) with
      | None => None
      | Some (Err e, this') => Some (Err e, this', fs)
      | Some (Ok store, this') =>
          match embedOne emb summaryText with
          | Err e => Some (Err e, this', fs)
          | Ok embedding =>
              match add packageId embedding (summary_metadata packageId)
                        store with
              | (Err e, _) => Some (Err e, this', fs)
              | (Ok _, store') =>
                  Some (Ok tt,
                        with_store this' (Some store'),
                        save (getSummaryIndexPath env) store' fs)
              end
          end
      end
  end.

(** The store of an engine, if any, is a map keyed by entry id. *)
Definition store_ok (this : MarketplaceSearch) : Prop :=
  match summaryStore this with
  | Some store => keyed store /\ unique_ids store
  | None => True
  end.

(** What the loop of [load] maintains on the map it fills: every key is the
    [id] property of its value, and no two keys are the same key. *)
Definition well_held (m : list (option json * json)) : Prop :=
  Forall (fun kv => prop "id" (snd kv) = Ok (fst kv)) m /\
  ForallOrdPairs (fun a b => same_value_zero a b = false) (map_keys m).

(** Where the index that a call works on comes from: the engine, the file, or
    the constructor. *)
Definition origin (env : Installation) (fs : filesystem)
    (emb : GeminiEmbedder) (this : MarketplaceSearch)
    (store : LocalVectorStore) : Prop :=
  summaryStore this = Some store \/
  summaryStore this = None /\
  (existsSync fs (getSummaryIndexPath env) = false /\
   store = VectorStore.new (getDimensions emb) \/
   exists l, load (getSummaryIndexPath env) fs = Ok l /\
             typed l = Some store).

End SummaryIndex.

(* ================================================================== *)
(** * context/vector-store.ts: what save can write *)
(* ================================================================== *)

(** An entry of the program holds [number]s and, as metadata, values of type
    [unknown].  [JSON.stringify] writes a number that is not finite as
    [null], and leaves out a property whose value is [undefined].  This
    module is [save] on such states; the states of [LocalVectorStore], with
    real numbers and JSON values, are the ones it writes without loss. *)
Module Persistence.

Import VectorStore.
Local Open Scope R_scope.

Inductive number : Type :=
| Finite (x : R)
| NaN
| Infinity
| NegativeInfinity.

Inductive unknown : Type :=
| Undefined
| Value (v : json).

Record IndexEntry : Type := mkIndexEntry {
  entry_id : string;
  entry_embedding : list number;
  entry_metadata : list (string * unknown)
}.

(** The map of entries, in insertion order, and the dimensions. *)
Record IndexState : Type := mkState {
  state_entries : list (string * IndexEntry);
  state_dimensions : Z
}.

(** ** JSON.stringify *)

Definition number_to_json (n : number) : json :=
  match n with
  | Finite x => JNum x
  | NaN | Infinity | NegativeInfinity => JNull
  end.

Definition properties (metadata : list (string * unknown))
  : list (string * json) :=
  flat_map (fun kv => match snd kv with
                      | Value v => [(fst kv, v)]
                      | Undefined => []
                      end)
           metadata.

Definition index_entry_to_json (e : IndexEntry) : json :=
  JObj [("id"%string, JStr (entry_id e));
        ("embedding"%string, JArr (map number_to_json (entry_embedding e)));
        ("metadata"%string, JObj (properties (entry_metadata e)))].

(** ** save *)

Definition save (filePath : string) (s : IndexState) (fs : filesystem)
  : filesystem :=
  writeFileSync fs filePath
    (JSON_stringify
       (JObj [("entries"%string,
               JArr (map index_entry_to_json (map_values (state_entries s))));
              ("dimensions"%string, JNum (IZR (state_dimensions s)))])).

(** ** The states that hold finite numbers and JSON values *)

Definition state_of_entry (e : VectorEntry) : IndexEntry :=
  {| entry_id := id e;
     entry_embedding := map Finite (embedding e);
     entry_metadata := map (fun kv => (fst kv, Value (snd kv))) (metadata e) |}.

Definition state_of (s : LocalVectorStore) : IndexState :=
  {| state_entries :=
       map (fun kv => (fst kv, state_of_entry (snd kv))) (entries s);
     state_dimensions := dimensions s |}.

Definition is_finite (n : number) : bool :=
  match n with Finite _ => true | _ => false end.

Definition is_defined (v : unknown) : bool :=
  match v with Value _ => true | Undefined => false end.

(** Every number of every embedding is finite, and no metadata value is
    [undefined]. *)
Definition lossless (s : IndexState) : bool :=
  forallb (fun kv =>
             forallb is_finite (entry_embedding (snd kv))
             && forallb (fun p => is_defined (snd p))
                        (entry_metadata (snd kv)))
          (state_entries s).

(** The invariant of the map: the key of an entry is its id, and no key
    occurs twice. *)
Definition state_keyed (s : IndexState) : Prop :=
  Forall (fun kv => fst kv = entry_id (snd kv)) (state_entries s).

Definition state_unique (s : IndexState) : Prop :=
  NoDup (map_keys (state_entries s)).

(** A state read as an index of real numbers and JSON values; this is the
    state itself when it is [lossless]. *)
Definition real_of (n : number) : R :=
  match n with Finite x => x | _ => 0 end.

Definition json_of (v : unknown) : json :=
  match v with Value j => j | Undefined => JNull end.

Definition entry_of_state (e : IndexEntry) : VectorEntry :=
  mkEntry (entry_id e) (map real_of (entry_embedding e))
          (map (fun kv => (fst kv, json_of (snd kv))) (entry_metadata e)).

Definition index_of_state (s : IndexState) : LocalVectorStore :=
  {| entries := map (fun kv => (fst kv, entry_of_state (snd kv)))
                    (state_entries s);
     dimensions := state_dimensions s |}.

End Persistence.

(* ================================================================== *)
(** * ai/gemini.ts: embeddings *)
(* ================================================================== *)

Module Gemini.

Local Open Scope Z_scope.

(** What the provider does to the outside, in the order in which it happens:
    requests to the embedding service, pauses, and calls of the progress
    callback. *)
Inductive event : Type :=
| Requested (text : string)
| Slept (ms : Z)
| Progress (done total : Z).

Definition trace : Type := list event.

Fixpoint requests (tr : trace) : nat :=
  match tr with
  | [] => 0%nat
  | Requested _ :: tr' => S (requests tr')
  | _ :: tr' => requests tr'
  end.

(** The provider: [embModel.embedContent] is the remote service, whose answer
    to a request may depend on how many requests came before it (a failed
    request is an exception); [dimensions] is the configured integer. *)
Record GeminiProvider : Type := mkProvider {
  embedContent : nat -> string -> result (list R);
  dimensions : Z
}.

Definition getEmbeddingDimensions (this : GeminiProvider) : Z :=
  dimensions this.

(** [sleep(ms)] *)
Definition sleep (ms : Z) (tr : trace) : trace := tr ++ [Slept ms].

(** [text.slice(0, n)] on a string, a sequence of code units. *)
Fixpoint string_slice0 (text : string) (n : N) : string :=
  match text with
  | EmptyString => EmptyString
  | String c rest =>
      if (n =? 0)%N then EmptyString
      else String c (string_slice0 rest (N.pred n))
  end.

Definition truncated (text : string) : string :=
  if 10000 <? Z.of_nat (String.length text)
  then string_slice0 text 10000%N
  else text.

(** ** embedOne *)

Definition embedOne (this : GeminiProvider) (text : string) (tr : trace)
  : result (list R) * trace :=
  (embedContent this (requests tr) (truncated text),
   tr ++ [Requested (truncated text)]).

(** ** embedBatch *)

Record EmbeddingResult : Type := mkEmbedding {
  text : string;
  embedding : list R
}.

(** [l.slice(start, end)] for integers. *)
Definition slice (A : Type) (l : list A) (start end_ : Z) : list A :=
  let len := Z.of_nat (length l) in
  let relative x := if x <? 0 then Z.max (len + x) 0 else Z.min x len in
  let k := relative start in
  let final := relative end_ in
  firstn (Z.to_nat (final - k)) (skipn (Z.to_nat k) l).

(** [new Array(n).fill(0)] for an integer [n]; outside of the lengths an array
    can have, the constructor throws a [RangeError] ([None]). *)
Definition Array_fill0 (n : Z) : option (list R) :=
  if (0 <=? n) && (n <? 2 ^ 32)
  then Some (repeat 0%R (Z.to_nat n))
  else None.

(** The lengths an array can have. *)
Definition array_length (n : Z) : Prop := 0 <= n < 2 ^ 32.

(** How a call ends that catches every failure of the service. *)
Inductive completion (A : Type) : Type :=
| Returned (a : A)
| RangeError.
Arguments Returned {A} a.
Arguments RangeError {A}.

(** The body of the loop over the texts of a batch: a request, after a
    failure a pause of two seconds and a second request, after a second
    failure the zero vector. *)
Definition embed_text (this : GeminiProvider) (text : string)
    (results : list EmbeddingResult) (tr : trace)
  : completion (list EmbeddingResult) * trace :=
  match embedOne this text tr with
  | (Ok embedding, tr1) =>
      (Returned (results ++ [mkEmbedding text embedding]), tr1)
  | (Err _, tr1) =>
      match embedOne this text (sleep 2000 tr1) with
      | (Ok embedding, tr2) =>
          (Returned (results ++ [mkEmbedding text embedding]), tr2)
      | (Err _, tr2) =>
          match Array_fill0 (dimensions this) with
          | Some zeros =>
              (Returned (results ++ [mkEmbedding text zeros]), tr2)
          | None => (RangeError, tr2)
          end
      end
  end.

Fixpoint embed_texts (this : GeminiProvider) (batch : list string)
    (results : list EmbeddingResult) (tr : trace)
  : completion (list EmbeddingResult) * trace :=
  match batch with
  | [] => (Returned results, tr)
  | text :: rest =>
      match embed_text this text results tr with
      | (Returned results', tr') => embed_texts this rest results' tr'
      | (RangeError, tr') => (RangeError, tr')
      end
  end.

(** The options of [embedBatch].  The progress callback is an observer: the
    trace records what it is called with. *)
Record Options : Type := mkOptions {
  batchSize : option Z;
  onProgress : bool
}.

(** The loop over [i], at most [fuel] turns of it; [None] when the loop has
    not come to its end by then. *)
Fixpoint batches (fuel : nat) (this : GeminiProvider) (texts : list string)
    (batchSize : Z) (onProgress : bool) (i : Z)
    (results : list EmbeddingResult) (tr : trace)
  : option (completion (list EmbeddingResult) * trace) :=
  match fuel with
  | O => None
  | S fuel' =>
      let total := Z.of_nat (length texts) in
      if i <? total
      then
        let batch := slice texts i (i + batchSize) in
        match embed_texts this batch results tr with
        | (RangeError, tr1) => Some (RangeError, tr1)
        | (Returned results', tr1) =>
            let tr2 :=
              if onProgress
              then tr1 ++ [Progress (Z.min (i + batchSize) total) total]
              else tr1 in
            let tr3 :=
              if i + batchSize <? total then sleep 500 tr2 else tr2 in
            batches fuel' this texts batchSize onProgress (i + batchSize)
                    results' tr3
        end
      else Some (Returned results, tr)
  end.

(** [options?.batchSize ?? 50], and whether there is a callback. *)
Definition batch_size (options : option Options) : Z :=
  match options with
  | Some o => match batchSize o with Some n => n | None => 50 end
  | None => 50
  end.

Definition observed (options : option Options) : bool :=
  match options with Some o => onProgress o | None => false end.

Definition embedBatch (fuel : nat) (this : GeminiProvider)
    (texts : list string) (options : option Options) (tr : trace)
  : option (completion (list EmbeddingResult) * trace) :=
  batches fuel this texts (batch_size options) (observed options) 0 [] tr.

(** ** Notions used to state the properties *)

(** An embedding that [embedBatch] may give to a text: an answer of the
    service to a request for the text, or the zero vector of the configured
    length. *)
Definition accounted (this : GeminiProvider) (r : EmbeddingResult) : Prop :=
  (exists n, embedContent this n (truncated (text r)) = Ok (embedding r)) \/
  embedding r = repeat 0%R (Z.to_nat (dimensions this)).

Definition is_prefix (a b : string) : Prop :=
  exists rest, b = (a ++ rest)%string.

(** What is known of a result and of an event, whatever the batch size. *)
Definition result_ok (this : GeminiProvider) (texts : list string)
    (r : EmbeddingResult) : Prop :=
  In (text r) texts /\ accounted this r.

Definition event_ok (texts : list string) (ev : event) : Prop :=
  match ev with
  | Requested x => exists t, In t texts /\ x = truncated t
  | Slept ms => ms = 2000 \/ ms = 500
  | Progress done total => total = Z.of_nat (length texts)
  end.

End Gemini.

(* ================================================================== *)
(** * ai/openrouter.ts: embeddings *)
(* ================================================================== *)

Module OpenRouter.

Local Open Scope Z_scope.

(** The [input] of an embeddings request: a text, or the texts of a batch. *)
Inductive input : Type :=
| Text (text : string)
| Texts (texts : list string).

Inductive event : Type :=
| Requested (input : input)
| Slept (ms : Z)
| Progress (done total : Z).

Definition trace : Type := list event.

Fixpoint requests (tr : trace) : nat :=
  match tr with
  | [] => 0%nat
  | Requested _ :: tr' => S (requests tr')
  | _ :: tr' => requests tr'
  end.

(** The provider: [client.embeddings.create] is the remote service; what is
    read of its answer is the [embedding] of the items of [response.data]. *)
Record OpenRouterProvider : Type := mkProvider {
  create : nat -> input -> result (list (list R));
  dimensions : Z
}.

Definition getEmbeddingDimensions (this : OpenRouterProvider) : Z :=
  dimensions this.

Definition sleep (ms : Z) (tr : trace) : trace := tr ++ [Slept ms].

(** ** embedOne *)

(** [response.data[0].embedding]: reading it of an answer without items is a
    [TypeError]. *)
Definition embedOne (this : OpenRouterProvider) (text : string) (tr : trace)
  : result (list R) * trace :=
  let request := Text (Gemini.truncated text) in
  (match create this (requests tr) request with
   | Ok (embedding :: _) => Ok embedding
   | Ok [] => Err TypeError
   | Err e => Err e
   end,
   tr ++ [Requested request]).

(** ** embedBatch *)

(** The loop over [j], pushing onto [results].  It stops with a [TypeError]
    ([false]) at the first text for which [response.data] has no item; what
    has been pushed by then stays in [results]. *)
Fixpoint push_answers (batch : list string) (data : list (list R))
    (results : list Gemini.EmbeddingResult)
  : bool * list Gemini.EmbeddingResult :=
  match batch with
  | [] => (true, results)
  | text :: rest =>
      match data with
      | embedding :: data' =>
          push_answers rest data'
            (results ++ [Gemini.mkEmbedding text embedding])
      | [] => (false, results)
      end
  end.

(** The fallback, one request for each text of the batch, and the zero
    vector for a text whose request fails. *)
Definition fallback_text (this : OpenRouterProvider) (text : string)
    (results : list Gemini.EmbeddingResult) (tr : trace)
  : Gemini.completion (list Gemini.EmbeddingResult) * trace :=
  match embedOne this text tr with
  | (Ok embedding, tr1) =>
      (Gemini.Returned (results ++ [Gemini.mkEmbedding text embedding]), tr1)
  | (Err _, tr1) =>
      match Gemini.Array_fill0 (dimensions this) with
      | Some zeros =>
          (Gemini.Returned (results ++ [Gemini.mkEmbedding text zeros]), tr1)
      | None => (Gemini.RangeError, tr1)
      end
  end.

Fixpoint fallback_texts (this : OpenRouterProvider) (batch : list string)
    (results : list Gemini.EmbeddingResult) (tr : trace)
  : Gemini.completion (list Gemini.EmbeddingResult) * trace :=
  match batch with
  | [] => (Gemini.Returned results, tr)
  | text :: rest =>
      match fallback_text this text results tr with
      | (Gemini.Returned results', tr') =>
          fallback_texts this rest results' tr'
      | (Gemini.RangeError, tr') => (Gemini.RangeError, tr')
      end
  end.

(** The [try] and its [catch] for one batch. *)
Definition embed_batch (this : OpenRouterProvider) (batch : list string)
    (results : list Gemini.EmbeddingResult) (tr : trace)
  : Gemini.completion (list Gemini.EmbeddingResult) * trace :=
  let request := Texts (map Gemini.truncated batch) in
  let tr1 := tr ++ [Requested request] in
  match create this (requests tr) request with
  | Ok data =>
      match push_answers batch data results with
      | (true, results') => (Gemini.Returned results', tr1)
      | (false, results') => fallback_texts this batch results' tr1
      end
  | Err _ => fallback_texts this batch results tr1
  end.

Fixpoint batches (fuel : nat) (this : OpenRouterProvider)
    (texts : list string) (batchSize : Z) (onProgress : bool) (i : Z)
    (results : list Gemini.EmbeddingResult) (tr : trace)
  : option (Gemini.completion (list Gemini.EmbeddingResult) * trace) :=
  match fuel with
  | O => None
  | S fuel' =>
      let total := Z.of_nat (length texts) in
      if i <? total
      then
        let batch := Gemini.slice texts i (i + batchSize) in
        match embed_batch this batch results tr with
        | (Gemini.RangeError, tr1) => Some (Gemini.RangeError, tr1)
        | (Gemini.Returned results', tr1) =>
            let tr2 :=
              if onProgress
              then tr1 ++ [Progress (Z.min (i + batchSize) total) total]
              else tr1 in
            let tr3 :=
              if i + batchSize <? total then sleep 300 tr2 else tr2 in
            batches fuel' this texts batchSize onProgress (i + batchSize)
                    results' tr3
        end
      else Some (Gemini.Returned results, tr)
  end.

Definition embedBatch (fuel : nat) (this : OpenRouterProvider)
    (texts : list string) (options : option Gemini.Options) (tr : trace)
  : option (Gemini.completion (list Gemini.EmbeddingResult) * trace) :=
  batches fuel this texts (Gemini.batch_size options)
          (Gemini.observed options) 0 [] tr.

(** A service that answers every batch request it answers with an embedding
    for each input. *)
Definition complete_answers (this : OpenRouterProvider) : Prop :=
  forall n inputs data,
    create this n (Texts inputs) = Ok data ->
    (length inputs <= length data)%nat.

End OpenRouter.

(* ================================================================== *)
(** * Sample data *)
(* ================================================================== *)

Module Examples.

Import VectorStore.
Local Open Scope R_scope.
Local Open Scope string_scope.

(** The index of the test suite: three axes and a diagonal, in three
    dimensions. *)
Definition axes : LocalVectorStore :=
  {| entries :=
       [("x", mkEntry "x" [1; 0; 0] []);
        ("y", mkEntry "y" [0; 1; 0] []);
        ("z", mkEntry "z" [0; 0; 1] []);
        ("xy", mkEntry "xy" [0.7; 0.7; 0] [])];
     dimensions := 3 |}.

(** A batch whose second item has four components. *)
Definition batch : list BatchItem :=
  [mkItem "a" [1; 0; 0] (Some [("n", JNum 1)]);
   mkItem "bad" [1; 2; 3; 4] None;
   mkItem "c" [0; 0; 1] None].

(** A batch that gives the id [a] twice. *)
Definition twice : list BatchItem :=
  [mkItem "a" [1; 0; 0] None; mkItem "a" [0; 1; 0] None].

(** Serialized index data in which the id [a] occurs twice, and data whose
    second entry has two components in an index of three dimensions. *)
Definition repeated : StoredData :=
  {| stored_entries :=
       [mkEntry "a" [1; 0; 0] []; mkEntry "b" [0; 1; 0] [];
        mkEntry "a" [0; 0; 1] []];
     stored_dimensions := 3 |}.

Definition ragged : StoredData :=
  {| stored_entries :=
       [mkEntry "a" [1; 0; 0] []; mkEntry "b" [0; 1] []];
     stored_dimensions := 3 |}.

Definition disk_with (d : StoredData) : filesystem :=
  fun p => if String.eqb p "vectors.json"
           then Some (JSONText (data_to_json d))
           else None.

(** A file system with one file, which holds [{"entries":[]}]. *)
Definition no_dimensions : json := JObj [("entries", JArr [])].

Definition disk : filesystem :=
  fun p => if String.eqb p "index.json"
           then Some (JSONText no_dimensions)
           else None.

(** A listing with the given id; the other columns do not matter here. *)
Definition sample (i : string) : Search.PackageListing :=
  Search.mkListing i "Guide" "A guide" "guide" 1 None None None
                   "/path/pkg.mmctx" 1 1 1 0 "2026-01-01 00:00:00".

(** A listing store in which every query matches the same 21 listings. *)
Definition crowded : Search.MarketplaceRegistry :=
  {| Search.searchByKeyword := fun _ =>
       map sample
         ["a"; "b"; "c"; "d"; "e"; "f"; "g"; "h"; "i"; "j"; "k";
          "l"; "m"; "n"; "o"; "p"; "q"; "r"; "s"; "t"; "u"];
     Search.getPackage := fun _ => None |}.

(** A listing store with the single listing [p1]. *)
Definition single : Search.MarketplaceRegistry :=
  {| Search.searchByKeyword := fun _ => [sample "p1"];
     Search.getPackage := fun v =>
       match v with
       | JStr i => if String.eqb i "p1" then Some (sample "p1") else None
       | _ => None
       end |}.

(** An engine over [single].  Every query embeds to [[1; 0]]; the index holds
    for [p1] a summary embedding orthogonal to that, and for [gone], a package
    whose listing has been deleted, an embedding along it. *)
Definition summaries : LocalVectorStore :=
  {| entries :=
       [("gone", mkEntry "gone" [1; 0] [("packageId", JStr "gone")]);
        ("p1", mkEntry "p1" [0; 1] [("packageId", JStr "p1")])];
     dimensions := 2 |}.

Definition engine : Search.MarketplaceSearch :=
  {| Search.registry := single;
     Search.summaryStore := Some summaries;
     Search.embedder :=
       Some {| Search.embedOne := fun _ => Ok [1; 0];
               Search.getDimensions := 2 |} |}.

(** The sample engine with a provider that is out of reach, and with a
    provider of three dimensions over the index of two. *)
Definition offline : Search.MarketplaceSearch :=
  {| Search.registry := single;
     Search.summaryStore := Some summaries;
     Search.embedder :=
       Some {| Search.embedOne := fun _ => Err (ProviderError "503");
               Search.getDimensions := 2 |} |}.

Definition mismatched : Search.MarketplaceSearch :=
  {| Search.registry := single;
     Search.summaryStore := Some summaries;
     Search.embedder :=
       Some {| Search.embedOne := fun _ => Ok [1; 0; 0];
               Search.getDimensions := 3 |} |}.

(** An installation whose provider embeds every text to [[1; 0]], and a file
    system without files. *)
Definition install : SummaryIndex.Installation :=
  {| SummaryIndex.homedir := "/home/agent";
     SummaryIndex.newGeminiEmbedder :=
       Ok {| Search.embedOne := fun _ => Ok [1; 0];
             Search.getDimensions := 2 |} |}.

Definition blank : filesystem := fun _ => None.

(** Index states of one dimension with one entry: one whose embedding is
    NaN, one whose embedding is Infinity, one whose metadata has the property
    [note] with the value [undefined], and one without metadata. *)
Definition with_nan : Persistence.IndexState :=
  {| Persistence.state_entries :=
       [("a", Persistence.mkIndexEntry "a" [Persistence.NaN] [])];
     Persistence.state_dimensions := 1 |}.

Definition with_infinity : Persistence.IndexState :=
  {| Persistence.state_entries :=
       [("a", Persistence.mkIndexEntry "a" [Persistence.Infinity] [])];
     Persistence.state_dimensions := 1 |}.

Definition with_undefined : Persistence.IndexState :=
  {| Persistence.state_entries :=
       [("a", Persistence.mkIndexEntry "a" [Persistence.Finite 1]
                [("note", Persistence.Undefined)])];
     Persistence.state_dimensions := 1 |}.

Definition without_note : Persistence.IndexState :=
  {| Persistence.state_entries :=
       [("a", Persistence.mkIndexEntry "a" [Persistence.Finite 1] [])];
     Persistence.state_dimensions := 1 |}.

(** The first axis of the plane, on the numbers of the program. *)
Definition along_x : list PrimFloat.float := [Binary64.one; Binary64.zero].

(** A provider of two dimensions whose service fails on the first two
    requests and answers [[1; 0]] from then on, and one of a length that no
    array can have, whose service is out of reach. *)
Definition flaky : Gemini.GeminiProvider :=
  {| Gemini.embedContent := fun n _ =>
       match n with
       | O | S O => Err (ProviderError "429")
       | _ => Ok [1; 0]
       end;
     Gemini.dimensions := 2 |}.

Definition unreachable : Gemini.GeminiProvider :=
  {| Gemini.embedContent := fun _ _ => Err (ProviderError "503");
     Gemini.dimensions := -1 |}.

(** A provider whose service answers every request with one embedding,
    however many inputs the request has. *)
Definition terse : OpenRouter.OpenRouterProvider :=
  {| OpenRouter.create := fun _ _ => Ok [[1; 0]];
     OpenRouter.dimensions := 2 |}.

(** A provider whose service answers a batch request with an embedding for
    each input. *)
Definition steady : OpenRouter.OpenRouterProvider :=
  {| OpenRouter.create := fun _ request =>
       match request with
       | OpenRouter.Text _ => Ok [[1; 0]]
       | OpenRouter.Texts inputs => Ok (map (fun _ => [0; 1]) inputs)
       end;
     OpenRouter.dimensions := 2 |}.

Definition in_pairs : option Gemini.Options :=
  Some {| Gemini.batchSize := Some 2%Z; Gemini.onProgress := true |}.

Definition stuck : option Gemini.Options :=
  Some {| Gemini.batchSize := Some 0%Z; Gemini.onProgress := false |}.

(** The engine over [single] after the summary of [p1] has been indexed in
    that installation, and the index it holds. *)
Definition first_index : LocalVectorStore :=
  {| entries := [("p1", mkEntry "p1" [1; 0] [("packageId", JStr "p1")])];
     dimensions := 2 |}.

(** The engine that holds [first_index] at a later time, when the provider
    embeds every text to [[0; 1]]. *)
Definition later : Search.MarketplaceSearch :=
  {| Search.registry := single;
     Search.summaryStore := Some first_index;
     Search.embedder :=
       Some {| Search.embedOne := fun _ => Ok [0; 1];
               Search.getDimensions := 2 |} |}.

Definition indexed : Search.MarketplaceSearch :=
  {| Search.registry := single;
     Search.summaryStore := Some first_index;
     Search.embedder :=
       Some {| Search.embedOne := fun _ => Ok [1; 0];
               Search.getDimensions := 2 |} |}.

End Examples.


(* ================================================================== *)
(** * Facts about the runtime model *)
(* ================================================================== *)

Module JsFacts.

Lemma slice0_nat (A : Type) (l : list A) (n : nat) :
  slice0 l (Z.of_nat n) = firstn n l.
Proof.
  unfold slice0.
  destruct (Z.ltb_spec (Z.of_nat n) 0) as [H | H]; [lia |].
  now rewrite Nat2Z.id.
Qed.

Lemma slice0_nonneg (A : Type) (l : list A) (n : Z) :
  (0 <= n)%Z -> slice0 l n = firstn (Z.to_nat n) l.
Proof.
  intros H. unfold slice0.
  destruct (Z.ltb_spec n 0) as [H' | H']; [lia | reflexivity].
Qed.

Lemma slice0_prefix (A : Type) (l : list A) (n : Z) :
  exists k, slice0 l n = firstn k l.
Proof. unfold slice0. destruct (n <? 0)%Z; eauto. Qed.

Lemma slice0_length_le (A : Type) (l : list A) (n : Z) :
  (0 <= n)%Z -> (Z.of_nat (length (slice0 l n)) <= n)%Z.
Proof.
  intros H. rewrite slice0_nonneg by assumption.
  rewrite length_firstn. lia.
Qed.

Lemma slice0_nil (A : Type) (n : Z) : slice0 (@nil A) n = [].
Proof. unfold slice0. destruct (n <? 0)%Z; now rewrite firstn_nil. Qed.

Section SortFacts.
Variable T : Type.
Variable score : T -> R.

Local Abbreviation desc := (desc score).

Lemma insert_desc_perm (x : T) (l : list T) :
  Permutation (x :: l) (insert_desc score x l).
Proof.
  induction l as [| y l IH]; simpl.
  - apply Permutation_refl.
  - destruct (Rle_dec (score y) (score x)).
    + apply Permutation_refl.
    + eapply perm_trans; [apply perm_swap |].
      now apply perm_skip.
Qed.

Lemma sort_desc_perm (l : list T) : Permutation l (sort_desc score l).
Proof.
  induction l as [| x l IH]; simpl.
  - constructor.
  - eapply perm_trans; [| apply insert_desc_perm].
    now apply perm_skip.
Qed.

Lemma sort_desc_length (l : list T) :
  length (sort_desc score l) = length l.
Proof. symmetry. apply Permutation_length, sort_desc_perm. Qed.

Lemma insert_desc_sorted (x : T) (l : list T) :
  StronglySorted desc l -> StronglySorted desc (insert_desc score x l).
Proof.
  induction 1 as [| y l Hs IH Hall]; simpl.
  - repeat constructor.
  - destruct (Rle_dec (score y) (score x)) as [Hle | Hnle].
    + constructor.
      * now constructor.
      * constructor; [exact Hle |].
        eapply Forall_impl; [| exact Hall].
        unfold desc. intros z Hz. lra.
    + constructor; [exact IH |].
      assert (Hxy : desc y x) by (unfold desc; lra).
      eapply Permutation_Forall; [apply insert_desc_perm |].
      now constructor.
Qed.

Lemma sort_desc_sorted (l : list T) : StronglySorted desc (sort_desc score l).
Proof.
  induction l as [| x l IH]; simpl.
  - constructor.
  - now apply insert_desc_sorted.
Qed.

Lemma firstn_sorted (n : nat) (l : list T) :
  StronglySorted desc l -> StronglySorted desc (firstn n l).
Proof.
  intros H. revert n.
  induction H as [| y l Hs IH Hall]; intros [| n]; simpl; try constructor.
  - apply IH.
  - apply Forall_forall. intros z Hz.
    rewrite Forall_forall in Hall. apply Hall.
    rewrite <- (firstn_skipn n l). apply in_or_app. now left.
Qed.

Lemma slice0_sorted (n : Z) (l : list T) :
  StronglySorted desc l -> StronglySorted desc (slice0 l n).
Proof.
  intros H. destruct (slice0_prefix l n) as [k ->].
  now apply firstn_sorted.
Qed.
End SortFacts.

(** Settles the comparisons of a sort on given scores, from the order facts in
    the context. *)
Ltac decide_order :=
  repeat match goal with
         | |- context [Rle_dec ?a ?b] =>
             destruct (Rle_dec a b); try (exfalso; lra); cbn
         end.

Section MapFacts.
Variable V : Type.
Implicit Types (m : list (string * V)) (k : string) (v : V).

Lemma map_get_set_same k v m :
  map_get String.eqb k (map_set String.eqb k v m) = Some v.
Proof.
  induction m as [| [k' v'] m IH]; simpl.
  - now rewrite String.eqb_refl.
  - destruct (String.eqb k k') eqn:E; simpl; rewrite E; auto.
Qed.

Lemma map_get_set_other k k' v m :
  k' <> k ->
  map_get String.eqb k' (map_set String.eqb k v m) = map_get String.eqb k' m.
Proof.
  intros Hne.
  induction m as [| [k0 v0] m IH]; simpl.
  - destruct (String.eqb_spec k' k); congruence.
  - destruct (String.eqb_spec k k0) as [-> | Hk]; simpl.
    + destruct (String.eqb_spec k' k0); congruence.
    + now rewrite IH.
Qed.

Lemma map_get_In k v m :
  map_get String.eqb k m = Some v -> In (k, v) m.
Proof.
  induction m as [| [k' v'] m IH]; simpl; [discriminate |].
  destruct (String.eqb_spec k k') as [-> | Hne].
  - intros [= ->]. now left.
  - intros H. right. auto.
Qed.

Lemma map_get_None k m :
  map_get String.eqb k m = None <-> ~ In k (map_keys m).
Proof.
  induction m as [| [k' v'] m IH]; simpl.
  - tauto.
  - destruct (String.eqb_spec k k') as [-> | Hne].
    + split; [discriminate | tauto].
    + rewrite IH. split; [intros H [H' | H']; congruence | tauto].
Qed.

Lemma In_map_get k v m :
  NoDup (map_keys m) -> In (k, v) m -> map_get String.eqb k m = Some v.
Proof.
  induction m as [| [k' v'] m IH]; simpl; [tauto |].
  intros Hnd [H | H].
  - injection H as -> ->. now rewrite String.eqb_refl.
  - inversion Hnd as [| ? ? Hnin Hnd']; subst.
    destruct (String.eqb_spec k k') as [-> | Hne].
    + exfalso. apply Hnin. change k' with (fst (k', v)).
      now apply in_map.
    + auto.
Qed.

Lemma map_keys_set k v m :
  map_keys (map_set String.eqb k v m) =
  if map_has String.eqb k m then map_keys m else map_keys m ++ [k].
Proof.
  unfold map_has.
  induction m as [| [k' v'] m IH]; simpl; [reflexivity |].
  destruct (String.eqb_spec k k') as [-> | Hne]; simpl; [reflexivity |].
  rewrite IH. now destruct (map_get String.eqb k m).
Qed.

Lemma map_has_true k m :
  map_has String.eqb k m = true <-> In k (map_keys m).
Proof.
  unfold map_has. destruct (map_get String.eqb k m) eqn:E.
  - split; [intros _ | reflexivity].
    apply map_get_In in E. change k with (fst (k, v)). now apply in_map.
  - apply map_get_None in E. split; [discriminate | tauto].
Qed.

Lemma map_set_NoDup k v m :
  NoDup (map_keys m) -> NoDup (map_keys (map_set String.eqb k v m)).
Proof.
  intros H. rewrite map_keys_set.
  destruct (map_has String.eqb k m) eqn:E; [exact H |].
  apply NoDup_app; [exact H | repeat constructor; simpl; tauto |].
  intros x Hx [<- | []].
  apply map_has_true in Hx. congruence.
Qed.

Lemma map_set_In k v m kv :
  In kv (map_set String.eqb k v m) -> In kv m \/ snd kv = v /\ fst kv = k.
Proof.
  induction m as [| [k' v'] m IH]; simpl.
  - intros [<- | []]. now right.
  - destruct (String.eqb_spec k k') as [-> | Hne]; simpl.
    + intros [<- | H]; [now right | now left; right].
    + intros [<- | H]; [now left; left |].
      destruct (IH H); [left; now right | now right].
Qed.

Lemma map_delete_incl k m kv :
  In kv (map_delete String.eqb k m) -> In kv m.
Proof.
  induction m as [| [k' v'] m IH]; simpl; [tauto |].
  destruct (String.eqb k k'); simpl; intuition.
Qed.

Lemma map_delete_NoDup k m :
  NoDup (map_keys m) -> NoDup (map_keys (map_delete String.eqb k m)).
Proof.
  induction m as [| [k' v'] m IH]; simpl; [tauto |].
  intros Hnd. inversion Hnd as [| ? ? Hnin Hnd']; subst.
  destruct (String.eqb k k'); simpl; [assumption |].
  constructor; [| auto].
  intros Hin. apply Hnin.
  apply in_map_iff in Hin as [kv [<- Hkv]].
  apply in_map. eapply map_delete_incl; eauto.
Qed.
End MapFacts.

End JsFacts.

(* ================================================================== *)
(** * The vector index *)
(* ================================================================== *)

Module VectorStoreFacts.

Import VectorStore JsFacts.
Local Open Scope R_scope.

(** ** The invariant of constructed indices *)

Lemma add_ok (i : string) (e : list R) (md : Metadata) (s : LocalVectorStore) :
  Z.of_nat (length e) = dimensions s ->
  add i e md s =
  (Ok tt, {| entries := map_set String.eqb i (mkEntry i e md) (entries s);
             dimensions := dimensions s |}).
Proof.
  intros H. unfold add.
  now rewrite (proj2 (Z.eqb_eq _ _) H).
Qed.

Lemma add_err (i : string) (e : list R) (md : Metadata) (s : LocalVectorStore) :
  Z.of_nat (length e) <> dimensions s ->
  add i e md s = (Err (DimensionMismatch InAdd (dimensions s) (length e)), s).
Proof.
  intros H. unfold add.
  now rewrite (proj2 (Z.eqb_neq _ _) H).
Qed.

Lemma add_inv (i : string) (e : list R) (md : Metadata)
    (s s' : LocalVectorStore) :
  add i e md s = (Ok tt, s') ->
  Z.of_nat (length e) = dimensions s /\
  s' = {| entries := map_set String.eqb i (mkEntry i e md) (entries s);
          dimensions := dimensions s |}.
Proof.
  unfold add.
  destruct (Z.eqb_spec (Z.of_nat (length e)) (dimensions s)); simpl.
  - intros [= <-]. now split.
  - discriminate.
Qed.

Lemma constructed_dimensions (D : Z) (s : LocalVectorStore) :
  constructed D s -> dimensions s = D.
Proof.
  induction 1 as [| s i e md s' Hc IH Hadd | s i Hc IH | s Hc IH]; simpl; auto.
  apply add_inv in Hadd as [_ ->]. exact IH.
Qed.

Lemma constructed_keyed (D : Z) (s : LocalVectorStore) :
  constructed D s -> keyed s.
Proof.
  unfold keyed.
  induction 1 as [| s i e md s' Hc IH Hadd | s i Hc IH | s Hc IH]; simpl.
  - constructor.
  - apply add_inv in Hadd as [_ ->]. simpl.
    apply Forall_forall. intros kv Hin.
    apply map_set_In in Hin as [Hin | [Hv Hk]].
    + rewrite Forall_forall in IH. now apply IH.
    + now rewrite Hv, Hk.
  - apply Forall_forall. intros kv Hin.
    rewrite Forall_forall in IH. apply IH.
    eapply map_delete_incl; eauto.
  - constructor.
Qed.

Lemma constructed_unique_ids (D : Z) (s : LocalVectorStore) :
  constructed D s -> unique_ids s.
Proof.
  unfold unique_ids.
  induction 1 as [| s i e md s' Hc IH Hadd | s i Hc IH | s Hc IH]; simpl.
  - constructor.
  - apply add_inv in Hadd as [_ ->]. simpl. now apply map_set_NoDup.
  - now apply map_delete_NoDup.
  - constructor.
Qed.

Lemma constructed_uniform (D : Z) (s : LocalVectorStore) :
  constructed D s -> uniform s.
Proof.
  unfold uniform.
  induction 1 as [| s i e md s' Hc IH Hadd | s i Hc IH | s Hc IH]; simpl.
  - constructor.
  - apply add_inv in Hadd as [Hlen ->]. simpl.
    apply Forall_forall. intros kv Hin.
    apply map_set_In in Hin as [Hin | [Hv Hk]].
    + rewrite Forall_forall in IH. now apply IH.
    + now rewrite Hv.
  - apply Forall_forall. intros kv Hin.
    rewrite Forall_forall in IH. apply IH.
    eapply map_delete_incl; eauto.
  - constructor.
Qed.

(** ** Scoring the entries *)

Lemma cosineSimilarity_defined (a b : list R) :
  length a = length b -> exists c, cosineSimilarity a b = Ok c.
Proof.
  intros H. unfold cosineSimilarity.
  rewrite (proj2 (Nat.eqb_eq _ _) H). simpl.
  destruct (fold_left cos_step (combine a b) (0, 0, 0)) as [[d na] nb].
  destruct (Req_dec_T (sqrt na * sqrt nb) 0); eauto.
Qed.

Lemma cosineSimilarity_mismatch (a b : list R) :
  length a <> length b ->
  cosineSimilarity a b = Err (VectorLengthMismatch (length a) (length b)).
Proof.
  intros H. unfold cosineSimilarity.
  now rewrite (proj2 (Nat.eqb_neq _ _) H).
Qed.

Lemma score_entries_spec (q : list R) (values : list VectorEntry) :
  Forall (fun e => length (embedding e) = length q) values ->
  forall scored, exists rs,
    score_entries q values scored = Ok (scored ++ rs) /\
    Forall2 (scored_as q) values rs.
Proof.
  induction 1 as [| e values He Hall IH]; intros scored; simpl.
  - exists []. rewrite app_nil_r. split; constructor.
  - destruct (cosineSimilarity_defined q (embedding e)) as [c Hc];
      [now symmetry |].
    rewrite Hc. simpl.
    destruct (IH (scored ++ [mkResult (id e) c (metadata e)])) as [rs [Hrs HF]].
    exists (mkResult (id e) c (metadata e) :: rs). split.
    + now rewrite Hrs, <- app_assoc.
    + constructor; [| exact HF]. now repeat split.
Qed.

Lemma uniform_values (s : LocalVectorStore) (q : list R) :
  uniform s -> Z.of_nat (length q) = dimensions s ->
  Forall (fun e => length (embedding e) = length q) (map_values (entries s)).
Proof.
  unfold uniform, map_values. intros Hu Hq.
  apply Forall_map. eapply Forall_impl; [| exact Hu].
  simpl. intros kv H. lia.
Qed.

Lemma query_err (q : list R) (k : Z) (s : LocalVectorStore) :
  Z.of_nat (length q) <> dimensions s ->
  query q k s = Err (DimensionMismatch InQuery (dimensions s) (length q)).
Proof.
  intros H. unfold query.
  now rewrite (proj2 (Z.eqb_neq _ _) H).
Qed.

Lemma query_ok (q : list R) (k : Z) (s : LocalVectorStore) :
  uniform s -> Z.of_nat (length q) = dimensions s ->
  exists scored,
    Forall2 (scored_as q) (map_values (entries s)) scored /\
    query q k s = Ok (slice0 (sort_desc score scored) k).
Proof.
  intros Hu Hq. unfold query.
  rewrite (proj2 (Z.eqb_eq _ _) Hq). simpl.
  destruct (score_entries_spec q (uniform_values q Hu Hq) []) as [rs [Hrs HF]].
  exists rs. split; [exact HF |].
  rewrite Hrs. reflexivity.
Qed.

(** A query that returns has scored every entry. *)
Lemma score_entries_inv (q : list R) (values : list VectorEntry)
    (acc out : list SearchResult) :
  score_entries q values acc = Ok out ->
  exists rs, out = acc ++ rs /\ Forall2 (scored_as q) values rs.
Proof.
  revert acc. induction values as [| e values IH]; intros acc; simpl.
  - intros [= <-]. exists []. rewrite app_nil_r. split; constructor.
  - destruct (cosineSimilarity q (embedding e)) as [c | err] eqn:Hc; simpl;
      [| discriminate].
    intros H. apply IH in H as [rs [-> HF]].
    exists (mkResult (id e) c (metadata e) :: rs). split.
    + now rewrite <- app_assoc.
    + constructor; [| exact HF]. now repeat split.
Qed.

Lemma query_inv (q : list R) (k : Z) (s : LocalVectorStore)
    (rs : list SearchResult) :
  query q k s = Ok rs ->
  exists scored,
    Forall2 (scored_as q) (map_values (entries s)) scored /\
    rs = slice0 (sort_desc score scored) k.
Proof.
  unfold query. destruct (negb _); [discriminate |].
  destruct (score_entries q (map_values (entries s)) []) as [scored | e]
    eqn:Hs; simpl; [| discriminate].
  intros [= <-]. apply score_entries_inv in Hs as [rs' [-> HF]].
  exists rs'. now split.
Qed.

Lemma Forall2_In_r (A B : Type) (P : A -> B -> Prop) (xs : list A)
    (ys : list B) (y : B) :
  Forall2 P xs ys -> In y ys -> exists x, In x xs /\ P x y.
Proof.
  induction 1 as [| x0 y0 xs ys H0 HF IH]; simpl; [tauto |].
  intros [<- | Hin].
  - exists x0. auto.
  - destruct (IH Hin) as [x [Hx HP]]. exists x. auto.
Qed.

Lemma query_neighbors (q : list R) (k : Z) (s : LocalVectorStore)
    (rs : list SearchResult) (r : SearchResult) :
  query q k s = Ok rs -> In r rs ->
  exists entry, In entry (map_values (entries s)) /\ scored_as q entry r.
Proof.
  intros Hq Hr. apply query_inv in Hq as [scored [HF ->]].
  destruct (slice0_prefix (sort_desc score scored) k) as [n Hn].
  rewrite Hn in Hr.
  assert (Hin : In r scored).
  { apply Permutation_in with (l := sort_desc score scored).
    - apply Permutation_sym, sort_desc_perm.
    - rewrite <- (firstn_skipn n (sort_desc score scored)).
      apply in_or_app. now left. }
  eapply Forall2_In_r; eauto.
Qed.

End VectorStoreFacts.

Module VectorStoreClaims.

Import VectorStore JsFacts VectorStoreFacts Examples.
Local Open Scope R_scope.

Lemma constructed_after_add (D : Z) (s : LocalVectorStore) (i : string)
    (e : list R) (md : Metadata) :
  constructed D s -> Z.of_nat (length e) = D ->
  constructed D (snd (add i e md s)).
Proof.
  intros Hc He.
  apply c_add with (s := s) (i := i) (e := e) (md := md); [exact Hc |].
  rewrite add_ok by (rewrite (constructed_dimensions Hc); exact He).
  reflexivity.
Qed.

Lemma axes_constructed : constructed 3 axes.
Proof.
  change axes with
    (snd (add "xy" [0.7; 0.7; 0] []
      (snd (add "z" [0; 0; 1] []
        (snd (add "y" [0; 1; 0] []
          (snd (add "x" [1; 0; 0] [] (VectorStore.new 3))))))))).
  repeat (apply constructed_after_add; [| reflexivity]).
  apply c_new.
Qed.

(** C3.  On an index constructed with dimensionality [D], [add] and [query]
    with a vector whose length is not [D] fail with a dimension mismatch, and
    the failed [add] returns the state it was given (so [size] is what it was);
    with a vector of length [D] both succeed, and the entry that [add] stores
    holds the very vector it was given. *)
Theorem dimension_invariant (D : Z) (s : LocalVectorStore) (v : list R) :
  constructed D s ->
  (Z.of_nat (length v) <> D ->
   (forall i md,
      add i v md s = (Err (DimensionMismatch InAdd D (length v)), s) /\
      size (snd (add i v md s)) = size s) /\
   (forall k, query v k s = Err (DimensionMismatch InQuery D (length v)))) /\
  (Z.of_nat (length v) = D ->
   (forall i md, exists s',
      add i v md s = (Ok tt, s') /\ get i s' = Some (mkEntry i v md)) /\
   (forall k, is_ok (query v k s) = true)).
Proof.
  intros Hc.
  pose proof (constructed_dimensions Hc) as Hd.
  pose proof (constructed_uniform Hc) as Hu.
  split; intros Hv; rewrite <- Hd in *.
  - split.
    + intros i md. rewrite add_err by assumption. now split.
    + intros k. now apply query_err.
  - split.
    + intros i md. rewrite add_ok by assumption.
      eexists. split; [reflexivity |].
      unfold get. simpl. apply map_get_set_same.
    + intros k. destruct (query_ok v k Hu Hv) as [scored [_ ->]]. reflexivity.
Qed.

Lemma dimension_invariant_witness :
  (add "a" [1; 2; 3; 4] [] axes
   = (Err (DimensionMismatch InAdd 3 4), axes) /\
   query [1; 2] 1 axes = Err (DimensionMismatch InQuery 3 2)) /\
  is_ok (query [1; 0.1; 0] 2 axes) = true.
Proof.
  split; [split |].
  - destruct (dimension_invariant [1; 2; 3; 4] axes_constructed) as [H _].
    destruct H as [H _]; [simpl; lia |].
    exact (proj1 (H "a"%string [])).
  - destruct (dimension_invariant [1; 2] axes_constructed) as [H _].
    destruct H as [_ H]; [simpl; lia |].
    exact (H 1%Z).
  - destruct (dimension_invariant [1; 0.1; 0] axes_constructed) as [_ H].
    destruct H as [_ H]; [reflexivity |].
    exact (H 2%Z).
Defined.

(** ** addBatch *)

Lemma addBatch_app (xs ys : list BatchItem) (s : LocalVectorStore) :
  addBatch (xs ++ ys) s =
  match addBatch xs s with
  | (Ok _, s') => addBatch ys s'
  | (Err e, s') => (Err e, s')
  end.
Proof.
  revert s. induction xs as [| x xs IH]; intros s; simpl.
  - reflexivity.
  - destruct (add (item_id x) (item_embedding x)
                  (metadata_or_empty (item_metadata x)) s) as [[[] | e] s'].
    + apply IH.
    + reflexivity.
Qed.

Lemma addBatch_dimensions (xs : list BatchItem) (s : LocalVectorStore) :
  dimensions (snd (addBatch xs s)) = dimensions s.
Proof.
  revert s. induction xs as [| x xs IH]; intros s; simpl; [reflexivity |].
  unfold add.
  destruct (Z.eqb_spec (Z.of_nat (length (item_embedding x))) (dimensions s));
    simpl; [| reflexivity].
  now rewrite IH.
Qed.

Lemma addBatch_keeps (xs : list BatchItem) (s : LocalVectorStore) (i : string) :
  has i s = true -> has i (snd (addBatch xs s)) = true.
Proof.
  revert s. induction xs as [| x xs IH]; intros s Hi; simpl; [exact Hi |].
  unfold add.
  destruct (Z.eqb_spec (Z.of_nat (length (item_embedding x))) (dimensions s));
    simpl; [| exact Hi].
  apply IH. unfold has in *. simpl.
  apply map_has_true. rewrite map_keys_set.
  apply map_has_true in Hi.
  destruct (map_has String.eqb (item_id x) (entries s)); [exact Hi |].
  apply in_or_app. now left.
Qed.

Lemma addBatch_all_ok (xs : list BatchItem) (s : LocalVectorStore) :
  Forall (fun it => Z.of_nat (length (item_embedding it)) = dimensions s) xs ->
  exists s',
    addBatch xs s = (Ok tt, s') /\
    Forall (fun it => has (item_id it) s' = true) xs.
Proof.
  intros H. revert s H.
  induction xs as [| x xs IH]; intros s H; simpl.
  - exists s. split; [reflexivity | constructor].
  - inversion H as [| ? ? Hx Hxs]; subst.
    rewrite add_ok by assumption.
    set (s1 := {| entries := _; dimensions := dimensions s |}).
    destruct (IH s1 Hxs) as [s' [Hs' Hall]].
    exists s'. split; [exact Hs' |].
    constructor; [| exact Hall].
    replace s' with (snd (addBatch xs s1)) by now rewrite Hs'.
    apply addBatch_keeps. unfold has, s1. simpl.
    unfold map_has. now rewrite map_get_set_same.
Qed.

(** C10.  [addBatch] adds its items in input order and stops at the first one
    of the wrong length: when that item is at index [k], the call fails with
    the dimension mismatch of that item, and the index is left in the state
    that adding the [k] items before it produces, in which every one of them
    is present. *)
Theorem addBatch_partial (items : list BatchItem) (s : LocalVectorStore)
    (k : nat) (bad : BatchItem) :
  nth_error items k = Some bad ->
  Z.of_nat (length (item_embedding bad)) <> dimensions s ->
  (forall j it, (j < k)%nat -> nth_error items j = Some it ->
                Z.of_nat (length (item_embedding it)) = dimensions s) ->
  exists s_k,
    addBatch (firstn k items) s = (Ok tt, s_k) /\
    addBatch items s =
      (Err (DimensionMismatch InAdd (dimensions s)
              (length (item_embedding bad))), s_k) /\
    (forall j it, (j < k)%nat -> nth_error items j = Some it ->
                  has (item_id it) s_k = true).
Proof.
  intros Hbad Hlen Hbefore.
  assert (Hk : (k < length items)%nat)
    by (apply nth_error_Some; congruence).
  assert (Hall : Forall (fun it => Z.of_nat (length (item_embedding it))
                                   = dimensions s) (firstn k items)).
  { apply Forall_forall. intros it Hin.
    apply In_nth_error in Hin as [j Hj].
    assert (Hjk : (j < k)%nat).
    { assert (H : (j < length (firstn k items))%nat)
        by (apply nth_error_Some; congruence).
      rewrite length_firstn in H. lia. }
    apply (Hbefore j it Hjk).
    now rewrite nth_error_firstn, (proj2 (Nat.ltb_lt _ _) Hjk) in Hj. }
  destruct (@addBatch_all_ok (firstn k items) s Hall) as [s_k [Hs_k Hpresent]].
  exists s_k. split; [exact Hs_k |]. split.
  - rewrite <- (firstn_skipn k items) at 1.
    rewrite addBatch_app, Hs_k.
    assert (Hskip : skipn k items = bad :: skipn (S k) items).
    { clear - Hbad. revert items Hbad.
      induction k as [| k IH]; intros [| x items]; simpl; try discriminate.
      - now intros [= ->].
      - apply IH. }
    rewrite Hskip. simpl.
    assert (Hd : dimensions s_k = dimensions s).
    { replace s_k with (snd (addBatch (firstn k items) s)) by now rewrite Hs_k.
      apply addBatch_dimensions. }
    rewrite add_err by now rewrite Hd.
    now rewrite Hd.
  - intros j it Hjk Hj.
    rewrite Forall_forall in Hpresent. apply Hpresent.
    apply nth_error_In with (n := j).
    now rewrite nth_error_firstn, (proj2 (Nat.ltb_lt _ _) Hjk).
Qed.

Lemma addBatch_partial_witness :
  exists s_k,
    addBatch [mkItem "a" [1; 0; 0] (Some [("n"%string, JNum 1)])]
             (VectorStore.new 3) = (Ok tt, s_k) /\
    addBatch batch (VectorStore.new 3)
      = (Err (DimensionMismatch InAdd 3 4), s_k) /\
    (forall j it, (j < 1)%nat -> nth_error batch j = Some it ->
                  has (item_id it) s_k = true).
Proof.
  apply (@addBatch_partial batch (VectorStore.new 3) 1
           (mkItem "bad" [1; 2; 3; 4] None)).
  - reflexivity.
  - simpl. lia.
  - intros j it Hj. assert (j = 0)%nat as -> by lia.
    simpl. intros [= <-]. reflexivity.
Defined.

(** ** Top-K *)



End VectorStoreClaims.

(* ================================================================== *)
(** * The arithmetic of the program *)
(* ================================================================== *)

Module Binary64Facts.

Import Floats Binary64.
Local Open Scope float_scope.

Lemma sums_of_loop (a : list float) :
  forall (b : list float) (d na nb : float),
  length a = length b ->
  fold_left cos_step (combine a b) (d, na, nb)
  = (fold_left (fun acc xy => acc + fst xy * snd xy) (combine a b) d,
     fold_left (fun acc x => acc + x * x) a na,
     fold_left (fun acc x => acc + x * x) b nb).
Proof.
  induction a as [| x a IH]; intros [| y b] d na nb Hlen;
    simpl in *; try discriminate; [reflexivity |].
  apply IH. now injection Hlen.
Qed.

Lemma lengths_differ (a b : list float) :
  length a <> length b ->
  cosineSimilarity a b = Err (VectorLengthMismatch (length a) (length b)).
Proof.
  intros Hne. unfold cosineSimilarity.
  now rewrite (proj2 (Nat.eqb_neq _ _) Hne).
Qed.

Lemma cosineSimilarity_quotient (a b : list float) :
  length a = length b -> cosineSimilarity a b = Ok (quotient a b).
Proof.
  intros Hlen. unfold cosineSimilarity, quotient, is_zero.
  rewrite (proj2 (Nat.eqb_eq _ _) Hlen). cbn [negb].
  rewrite sums_of_loop by assumption.
  fold (dot a b) (sum_squares a) (sum_squares b) (norm a) (norm b).
  now destruct (norm a * norm b =? 0).
Qed.

(** ** Products with zero *)

Lemma Prim2SF_zero : Prim2SF 0 = S754_zero false.
Proof. reflexivity. Qed.

Lemma Prim2SF_infinity : Prim2SF infinity = S754_infinity false.
Proof. reflexivity. Qed.

Lemma mul_finite_zero (x z : float) :
  finite x = true -> is_zero z = true -> is_zero (x * z) = true.
Proof.
  unfold finite, is_zero, is_nan, is_infinity.
  rewrite !eqb_spec, abs_spec, mul_spec, Prim2SF_zero, Prim2SF_infinity.
  destruct (Prim2SF x) as [sx | sx | | sx mx ex];
  destruct (Prim2SF z) as [sz | sz | | sz mz ez]; simpl;
    try discriminate; try reflexivity;
    try (destruct sx; discriminate); try (destruct sz; discriminate).
Qed.

Lemma mul_zero_finite (z x : float) :
  is_zero z = true -> finite x = true -> is_zero (z * x) = true.
Proof.
  unfold finite, is_zero, is_nan, is_infinity.
  rewrite !eqb_spec, abs_spec, mul_spec, Prim2SF_zero, Prim2SF_infinity.
  destruct (Prim2SF x) as [sx | sx | | sx mx ex];
  destruct (Prim2SF z) as [sz | sz | | sz mz ez]; simpl;
    try discriminate; try reflexivity;
    try (destruct sx; discriminate); try (destruct sz; discriminate).
Qed.

(** The policy for a norm that is zero, with its condition on the other
    norm. *)
Lemma zero_norm (a b : list float) :
  length a = length b ->
  is_zero (norm a) = true /\ finite (norm b) = true \/
  finite (norm a) = true /\ is_zero (norm b) = true ->
  cosineSimilarity a b = Ok zero.
Proof.
  intros Hlen H. rewrite cosineSimilarity_quotient by assumption.
  unfold quotient.
  assert (Hz : is_zero (norm a * norm b) = true).
  { destruct H as [[Ha Hb] | [Ha Hb]];
      [now apply mul_zero_finite | now apply mul_finite_zero]. }
  now rewrite Hz.
Qed.

Lemma sum_squares_zeros (n : nat) : sum_squares (zeros n) = 0.
Proof.
  unfold sum_squares, zeros. induction n as [| n IH]; [reflexivity |].
  cbn [repeat fold_left]. exact IH.
Qed.

Lemma norm_zeros (n : nat) : norm (zeros n) = 0.
Proof. unfold norm. now rewrite sum_squares_zeros. Qed.

End Binary64Facts.

(* ================================================================== *)
(** * Cosine similarity *)
(* ================================================================== *)

Module CosineFacts.

Import VectorStore VectorStoreFacts.
Local Open Scope R_scope.

(** The accumulators of the loop are the three sums. *)
Lemma cos_loop (a b : list R) (d na nb : R) :
  length a = length b ->
  fold_left cos_step (combine a b) (d, na, nb)
  = (d + dot a b, na + dot a a, nb + dot b b).
Proof.
  revert b d na nb.
  induction a as [| x a IH]; intros [| y b] d na nb Hlen;
    simpl in *; try discriminate.
  - now rewrite !Rplus_0_r.
  - rewrite IH by congruence. f_equal; [f_equal |]; ring.
Qed.

Lemma sq_nonneg (t : R) : 0 <= t * t.
Proof. exact (Rle_0_sqr t). Qed.

Lemma dot_self_nonneg (a : list R) : 0 <= dot a a.
Proof.
  induction a as [| x a IH]; simpl; [lra |].
  pose proof (sq_nonneg x). lra.
Qed.

Lemma cauchy_step (x y A B D : R) :
  0 <= A -> 0 <= B -> D * D <= A * B ->
  2 * (x * y * D) <= x * x * B + A * (y * y).
Proof.
  intros HA HB HD.
  pose proof (sq_nonneg x) as Hxx.
  pose proof (sq_nonneg y) as Hyy.
  set (u := x * x * B + A * (y * y)).
  set (v := 2 * (x * y * D)).
  assert (Hu : 0 <= u).
  { unfold u. apply Rplus_le_le_0_compat; apply Rmult_le_pos; assumption. }
  assert (Hsq : v * v <= u * u).
  { pose proof (sq_nonneg (x * x * B - A * (y * y))) as H1.
    assert (H2 : 0 <= (x * y) * (x * y) * (A * B - D * D)).
    { apply Rmult_le_pos; [apply sq_nonneg | lra]. }
    assert (Hid : u * u - v * v
                  = (x * x * B - A * (y * y)) * (x * x * B - A * (y * y))
                    + 4 * ((x * y) * (x * y) * (A * B - D * D)))
      by (unfold u, v; ring).
    lra. }
  destruct (Rle_dec v u) as [H | H]; [exact H |].
  exfalso.
  assert (Hlt : u < v) by lra.
  assert (u * u < v * v); [| lra].
  apply Rmult_le_0_lt_compat; assumption.
Qed.

Lemma cauchy_schwarz (a b : list R) :
  length a = length b -> dot a b * dot a b <= dot a a * dot b b.
Proof.
  revert b.
  induction a as [| x a IH]; intros [| y b] Hlen; simpl in *;
    try discriminate.
  - lra.
  - assert (H := IH b ltac:(congruence)).
    pose proof (dot_self_nonneg a) as HA.
    pose proof (dot_self_nonneg b) as HB.
    pose proof (cauchy_step x y HA HB H) as Hstep.
    assert (Hid : (x * x + dot a a) * (y * y + dot b b)
                  - (x * y + dot a b) * (x * y + dot a b)
                  = (x * x * dot b b + dot a a * (y * y)
                     - 2 * (x * y * dot a b))
                    + (dot a a * dot b b - dot a b * dot a b)) by ring.
    lra.
Qed.

Lemma norm_nonneg (a : list R) : 0 <= norm a.
Proof. apply sqrt_pos. Qed.

Lemma norm_sqr (a : list R) : norm a * norm a = dot a a.
Proof. apply sqrt_sqrt, dot_self_nonneg. Qed.

Lemma cosineSimilarity_unfold (a b : list R) :
  length a = length b ->
  cosineSimilarity a b =
  if Req_dec_T (norm a * norm b) 0
  then Ok 0
  else Ok (dot a b / (norm a * norm b)).
Proof.
  intros Hlen. unfold cosineSimilarity.
  rewrite (proj2 (Nat.eqb_eq _ _) Hlen). simpl.
  rewrite cos_loop by assumption.
  rewrite !Rplus_0_l. reflexivity.
Qed.

Lemma cosine_bounds (a b : list R) :
  length a = length b -> norm a <> 0 -> norm b <> 0 ->
  -1 <= dot a b / (norm a * norm b) <= 1.
Proof.
  intros Hlen Ha Hb.
  pose proof (norm_nonneg a) as Ha0.
  pose proof (norm_nonneg b) as Hb0.
  set (n := norm a * norm b).
  assert (Hn : 0 < n) by (unfold n; apply Rmult_lt_0_compat; lra).
  assert (Hsq : dot a b * dot a b <= n * n).
  { replace (n * n) with ((norm a * norm a) * (norm b * norm b))
      by (unfold n; ring).
    rewrite !norm_sqr. now apply cauchy_schwarz. }
  assert (Hd : - n <= dot a b <= n).
  { split.
    - destruct (Rle_dec (- n) (dot a b)) as [H | H]; [exact H | exfalso].
      assert (n * n < (- dot a b) * (- dot a b))
        by (apply Rmult_le_0_lt_compat; lra).
      lra.
    - destruct (Rle_dec (dot a b) n) as [H | H]; [exact H | exfalso].
      assert (n * n < dot a b * dot a b)
        by (apply Rmult_le_0_lt_compat; lra).
      lra. }
  split.
  - apply Rmult_le_reg_r with n; [exact Hn |].
    replace (dot a b / n * n) with (dot a b) by (field; lra). lra.
  - apply Rmult_le_reg_r with n; [exact Hn |].
    replace (dot a b / n * n) with (dot a b) by (field; lra). lra.
Qed.

Lemma dot_opp_r (a : list R) : dot a (map Ropp a) = - dot a a.
Proof.
  induction a as [| x a IH]; simpl; [lra | rewrite IH; ring].
Qed.

Lemma dot_opp_opp (a : list R) : dot (map Ropp a) (map Ropp a) = dot a a.
Proof.
  induction a as [| x a IH]; simpl; [lra | rewrite IH; ring].
Qed.

(** The function in exact arithmetic.  For vectors of equal length: when
    both norms are nonzero the result is the dot product divided by the
    product of the norms, and it lies between -1 and 1; a vector of nonzero
    norm has similarity 1 with itself and -1 with its opposite; when a norm is
    zero the result is the number 0, returned normally. *)
Lemma cosine_exact (a b : list R) :
  length a = length b ->
  (norm a <> 0 -> norm b <> 0 ->
   cosineSimilarity a b = Ok (dot a b / (norm a * norm b)) /\
   -1 <= dot a b / (norm a * norm b) <= 1) /\
  (norm a <> 0 ->
   cosineSimilarity a a = Ok 1 /\
   cosineSimilarity a (map Ropp a) = Ok (-1)) /\
  (norm a = 0 \/ norm b = 0 -> cosineSimilarity a b = Ok 0).
Proof.
  intros Hlen. split; [| split].
  - intros Ha Hb. split; [| now apply cosine_bounds].
    rewrite cosineSimilarity_unfold by assumption.
    destruct (Req_dec_T (norm a * norm b) 0) as [H0 | _]; [| reflexivity].
    apply Rmult_integral in H0. tauto.
  - intros Ha.
    assert (Hnn : norm a * norm a <> 0).
    { intros H0. apply Rmult_integral in H0. tauto. }
    split.
    + rewrite cosineSimilarity_unfold by reflexivity.
      destruct (Req_dec_T (norm a * norm a) 0) as [H0 | _]; [tauto |].
      f_equal. rewrite <- norm_sqr. now field.
    + rewrite cosineSimilarity_unfold by now rewrite length_map.
      assert (Hopp : norm (map Ropp a) = norm a)
        by (unfold norm; now rewrite dot_opp_opp).
      rewrite Hopp, dot_opp_r.
      destruct (Req_dec_T (norm a * norm a) 0) as [H0 | _]; [tauto |].
      f_equal. rewrite <- norm_sqr. now field.
  - intros H0.
    rewrite cosineSimilarity_unfold by assumption.
    destruct (Req_dec_T (norm a * norm b) 0) as [_ | Hn]; [reflexivity |].
    exfalso. apply Hn. destruct H0 as [-> | ->]; ring.
Qed.

Lemma norm_x_axis : norm [1; 0; 0] = 1.
Proof.
  unfold norm. simpl.
  replace (1 * 1 + (0 * 0 + (0 * 0 + 0))) with 1 by ring.
  apply sqrt_1.
Qed.

Lemma norm_zero3 : norm [0; 0; 0] = 0.
Proof.
  unfold norm. simpl.
  replace (0 * 0 + (0 * 0 + (0 * 0 + 0))) with 0 by ring.
  apply sqrt_0.
Qed.

End CosineFacts.

Module CosineClaims.

Import Floats.
Local Open Scope float_scope.

(** C5, as the code has it.  On vectors of different lengths
    [cosineSimilarity] fails.  On vectors of equal length it returns a number
    and no error: 0 when the denominator it computes is zero, and otherwise
    the quotient of the dot product and the product of the norms, each as the
    loop sums it up in binary64 arithmetic; when the norm computed for one
    vector is zero and the norm computed for the other is finite, the result
    is exactly 0.  In exact arithmetic the quotient is the cosine: it lies
    between -1 and 1, a vector of nonzero norm has similarity 1 with itself
    and -1 with its opposite, and the result is 0 when a norm is zero. *)
Theorem cosine_similarity_law (x y : list float) (a b : list R) :
  (length x <> length y ->
   Binary64.cosineSimilarity x y
   = Err (VectorLengthMismatch (length x) (length y))) /\
  (length x = length y ->
   Binary64.cosineSimilarity x y = Ok (Binary64.quotient x y) /\
   ((Binary64.norm x * Binary64.norm y =? 0) = true ->
    Binary64.cosineSimilarity x y = Ok 0) /\
   ((Binary64.norm x =? 0) = true /\
    Binary64.finite (Binary64.norm y) = true \/
    Binary64.finite (Binary64.norm x) = true /\
    (Binary64.norm y =? 0) = true ->
    Binary64.cosineSimilarity x y = Ok 0)) /\
  (length a = length b ->
   (VectorStore.norm a <> 0%R -> VectorStore.norm b <> 0%R ->
    VectorStore.cosineSimilarity a b
    = Ok (VectorStore.dot a b / (VectorStore.norm a * VectorStore.norm b))%R
    /\
    (-1 <= VectorStore.dot a b / (VectorStore.norm a * VectorStore.norm b)
     <= 1)%R) /\
   (VectorStore.norm a <> 0%R ->
    VectorStore.cosineSimilarity a a = Ok 1%R /\
    VectorStore.cosineSimilarity a (map Ropp a) = Ok (-1)%R) /\
   (VectorStore.norm a = 0%R \/ VectorStore.norm b = 0%R ->
    VectorStore.cosineSimilarity a b = Ok 0%R)).
Proof.
  split; [apply Binary64Facts.lengths_differ |].
  split; [| apply CosineFacts.cosine_exact].
  intros Hlen.
  split; [now apply Binary64Facts.cosineSimilarity_quotient |].
  split; [| now apply Binary64Facts.zero_norm].
  intros Hz. rewrite Binary64Facts.cosineSimilarity_quotient by assumption.
  unfold Binary64.quotient, Binary64.is_zero. now rewrite Hz.
Qed.

(** On binary64: vectors of two lengths, a zero vector against a vector of
    finite norm, and two vectors whose quotient 24/25 is returned rounded to
    0.96.  In exact arithmetic: the axis [[1; 0; 0]] against itself, its
    opposite and the zero vector. *)
Lemma cosine_similarity_law_witness :
  Binary64.cosineSimilarity [1; 2] [3] = Err (VectorLengthMismatch 2 1) /\
  Binary64.cosineSimilarity [0; 0; 0] [3; 4; 0] = Ok 0 /\
  Binary64.cosineSimilarity [3; 4] [4; 3] = Ok 0x1.eb851eb851eb8p-1 /\
  (VectorStore.cosineSimilarity [1; 0; 0]%R [1; 0; 0]%R = Ok 1%R /\
   VectorStore.cosineSimilarity [1; 0; 0]%R (map Ropp [1; 0; 0]%R)
   = Ok (-1)%R) /\
  VectorStore.cosineSimilarity [0; 0; 0]%R [1; 0; 0]%R = Ok 0%R.
Proof.
  assert (Hx : VectorStore.norm [1; 0; 0]%R <> 0%R)
    by (rewrite CosineFacts.norm_x_axis; lra).
  destruct (@cosine_similarity_law [1; 2] [3] [1; 0; 0]%R [1; 0; 0]%R)
    as [Hdiff [_ Hexact]].
  destruct (@cosine_similarity_law [0; 0; 0] [3; 4; 0]
              [0; 0; 0]%R [1; 0; 0]%R) as [_ [Hzero Hexact0]].
  destruct (@cosine_similarity_law [3; 4] [4; 3] [] []) as [_ [Hq _]].
  split; [apply Hdiff; discriminate |].
  split; [apply (proj2 (proj2 (Hzero eq_refl))); left; split; reflexivity |].
  split; [exact (proj1 (Hq eq_refl)) |].
  split; [exact (proj1 (proj2 (Hexact eq_refl)) Hx) |].
  apply (proj2 (proj2 (Hexact0 eq_refl))). left.
  exact CosineFacts.norm_zero3.
Defined.

(** C5, as stated, fails on the numbers of the program.  The vector [[1; 5]]
    has with itself the similarity 1.0000000000000002, which is not 1 and
    lies above 1, and with its opposite -1.0000000000000002; the zero vector
    has with [[1e200; 0; 0]], whose norm overflows, the similarity NaN. *)
Lemma cosine_leaves_the_range :
  Binary64.cosineSimilarity [1; 5] [1; 5] = Ok 0x1.0000000000001p+0 /\
  (1 <? 0x1.0000000000001p+0) = true /\
  Binary64.cosineSimilarity [1; 5] [-1; -5] = Ok (-0x1.0000000000001p+0) /\
  (-0x1.0000000000001p+0 <? -1) = true /\
  Binary64.norm [0; 0; 0] = 0 /\
  Binary64.cosineSimilarity [0; 0; 0] [0x1.4e718d7d7625ap+664; 0; 0]
  = Ok nan.
Proof. repeat split; reflexivity. Qed.

End CosineClaims.

(* ================================================================== *)
(** * Persistence of the vector index *)
(* ================================================================== *)

Module PersistenceFacts.

Import VectorStore JsFacts Examples.
Local Open Scope R_scope.

Lemma read_after_write (fs : filesystem) (path : string) (c : contents) :
  readFileSync (writeFileSync fs path c) path = Ok c.
Proof.
  unfold readFileSync, writeFileSync. now rewrite String.eqb_refl.
Qed.

Lemma prop_id_entry (e : VectorEntry) :
  prop "id" (entry_to_json e) = Ok (Some (JStr (id e))).
Proof. reflexivity. Qed.

Lemma map_set_fresh (k : string) (v : json) (m : list (string * VectorEntry)) :
  ~ In k (map_keys m) ->
  map_set same_value_zero (Some (JStr k)) v (map held m)
  = map held m ++ [(Some (JStr k), v)].
Proof.
  induction m as [| [k' e'] m IH]; simpl; intros Hnin.
  - reflexivity.
  - destruct (String.eqb_spec k k') as [-> | Hne]; [tauto |].
    rewrite IH by tauto. reflexivity.
Qed.

Lemma load_entries_keyed (es done : list (string * VectorEntry)) :
  Forall (fun kv => fst kv = id (snd kv)) es ->
  NoDup (map_keys (done ++ es)) ->
  load_entries (map entry_to_json (map_values es)) (map held done)
  = Ok (map held (done ++ es)).
Proof.
  revert done.
  induction es as [| [k e] es IH]; intros done Hk Hnd; simpl.
  - now rewrite app_nil_r.
  - inversion Hk as [| ? ? Hke Hk']; subst. simpl in Hke. subst k.
    rewrite map_set_fresh.
    + change (map held done ++ [(Some (JStr (id e)), entry_to_json e)])
        with (map held done ++ map held [(id e, e)]).
      rewrite <- map_app.
      rewrite IH; [| exact Hk' | now rewrite <- app_assoc].
      now rewrite <- app_assoc.
    + unfold map_keys in *. rewrite map_app in Hnd. simpl in Hnd.
      apply NoDup_remove_2 in Hnd.
      intros Hin. apply Hnd. apply in_or_app. now left.
Qed.

Lemma load_save (path : string) (s : LocalVectorStore) (fs : filesystem) :
  keyed s -> unique_ids s ->
  load path (save path s fs) = Ok (as_loaded s).
Proof.
  intros Hk Hu. unfold load, save.
  rewrite read_after_write. simpl.
  pose proof (@load_entries_keyed (entries s) [] Hk Hu) as H.
  simpl in H. rewrite H. reflexivity.
Qed.

Lemma map_JNum_inj (xs ys : list R) : map JNum xs = map JNum ys -> xs = ys.
Proof.
  revert ys. induction xs as [| x xs IH]; intros [| y ys]; simpl;
    try discriminate; [reflexivity |].
  intros [= -> H]. f_equal. now apply IH.
Qed.

Lemma held_inj (kv1 kv2 : string * VectorEntry) :
  held kv1 = held kv2 -> kv1 = kv2.
Proof.
  destruct kv1 as [k1 [i1 v1 m1]], kv2 as [k2 [i2 v2 m2]].
  unfold held, entry_to_json. simpl.
  intros [= -> -> Hv ->]. apply map_JNum_inj in Hv. now subst.
Qed.

Lemma map_held_inj (es1 es2 : list (string * VectorEntry)) :
  map held es1 = map held es2 -> es1 = es2.
Proof.
  revert es2.
  induction es1 as [| kv1 es1 IH]; intros [| kv2 es2] H;
    try discriminate; [reflexivity |].
  change (held kv1 :: map held es1 = held kv2 :: map held es2) in H.
  assert (Hh : held kv1 = held kv2) by congruence.
  assert (Ht : map held es1 = map held es2) by congruence.
  f_equal; [now apply held_inj | now apply IH].
Qed.

Lemma as_loaded_inj (s1 s2 : LocalVectorStore) :
  as_loaded s1 = as_loaded s2 -> s1 = s2.
Proof.
  destruct s1 as [es1 d1], s2 as [es2 d2]. unfold as_loaded. simpl.
  intros H.
  assert (He : map held es1 = map held es2) by congruence.
  assert (Hd : JNum (IZR d1) = JNum (IZR d2)) by congruence.
  injection Hd as Hd. apply eq_IZR in Hd.
  apply map_held_inj in He. now subst.
Qed.

Lemma axes_keyed : keyed axes.
Proof. unfold keyed. simpl. repeat constructor. Qed.

Lemma axes_unique_ids : unique_ids axes.
Proof.
  unfold unique_ids. simpl.
  repeat constructor; simpl; intuition discriminate.
Qed.

(** ** What [load] accepts *)

Lemma load_entries_outcome (items : list json) (m : list (option json * json)) :
  (forallb not_null items = true ->
   exists m', load_entries items m = Ok m') /\
  (forallb not_null items = false -> load_entries items m = Err TypeError).
Proof.
  revert m. induction items as [| entry items IH]; intros m; simpl.
  - split; [eauto | discriminate].
  - destruct entry; simpl;
      try (split; [intros _; reflexivity || idtac | discriminate]);
      try apply IH.
    split; [discriminate | reflexivity].
Qed.

Lemma characters_not_null (s : string) :
  forallb not_null
    (map (fun c => JStr (String c EmptyString)) (list_ascii_of_string s))
  = true.
Proof. induction s as [| c s IH]; simpl; auto. Qed.

Lemma load_json (path : string) (fs : filesystem) (data : json) :
  fs path = Some (JSONText data) ->
  (loadable data = true -> exists l, load path fs = Ok l) /\
  (loadable data = false -> load path fs = Err TypeError).
Proof.
  intros Hfs. unfold load, readFileSync. rewrite Hfs. simpl.
  destruct data as [| b | x | str | items | fields]; simpl;
    try (split; [discriminate | reflexivity]).
  destruct (field "entries" fields) as [[| b | x | str | items | fs'] |];
    simpl; try (split; [discriminate | reflexivity]).
  - split; [intros _ | discriminate].
    destruct (proj1 (load_entries_outcome
                       (map (fun c => JStr (String c EmptyString))
                            (list_ascii_of_string str)) [])
                    (characters_not_null str)) as [m' ->].
    simpl. eauto.
  - split; intros H.
    + destruct (proj1 (load_entries_outcome items []) H) as [m' ->].
      simpl. eauto.
    + now rewrite (proj2 (load_entries_outcome items []) H).
Qed.

Lemma load_valid (path : string) (fs : filesystem) (d : StoredData) :
  NoDup (map id (stored_entries d)) ->
  fs path = Some (JSONText (data_to_json d)) ->
  load path fs = Ok (as_loaded (store_of_data d)).
Proof.
  intros Hnd Hfs. unfold load, readFileSync. rewrite Hfs. simpl.
  set (es := map (fun e => (id e, e)) (stored_entries d)).
  assert (Hvals : map_values es = stored_entries d).
  { unfold es, map_values. rewrite map_map. simpl. apply map_id. }
  assert (Hkeys : map_keys es = map id (stored_entries d)).
  { unfold es, map_keys. now rewrite map_map. }
  assert (Hk : Forall (fun kv => fst kv = id (snd kv)) es).
  { unfold es. apply Forall_map. apply Forall_forall. now intros. }
  pose proof (@load_entries_keyed es [] Hk) as H.
  simpl in H. rewrite Hvals, Hkeys in H. rewrite (H Hnd).
  reflexivity.
Qed.

(** The dimensions of what [load] returns: the value of the [dimensions]
    property of the file, whatever it is, and 768 when the file has none. *)
Lemma load_dimensions (path : string) (fs : filesystem)
    (fields : list (string * json)) (l : LoadedStore) :
  fs path = Some (JSONText (JObj fields)) ->
  load path fs = Ok l ->
  loaded_dimensions l
  = match field "dimensions" fields with
    | Some d => d
    | None => JNum 768
    end.
Proof.
  intros Hfs. unfold load, readFileSync. rewrite Hfs. cbn [bind JSON_parse prop].
  destruct (iterate (field "entries" fields)) as [items | e];
    cbn [bind]; [| discriminate].
  destruct (load_entries items []) as [m | e]; cbn [bind]; [| discriminate].
  intros H. injection H as <-. cbn [loaded_dimensions].
  now destruct (field "dimensions" fields).
Qed.

(** C9, as the code has it.  [load] fails when the path does not exist, when
    the file is not JSON, and when the parsed value is not an object whose
    [entries] can be iterated without meeting [null]; it checks nothing else,
    and succeeds on every other JSON value, with the [dimensions] of the file
    and with 768 when the file has none.  On a file that holds serialized
    index data with distinct ids it returns the index with the persisted
    dimensions and exactly the persisted entries. *)
Theorem load_outcome (path : string) (fs : filesystem) :
  (fs path = None -> load path fs = Err (FileNotFound path)) /\
  (forall raw, fs path = Some (NotJSON raw) ->
     load path fs = Err SyntaxError) /\
  (forall data, fs path = Some (JSONText data) ->
     is_ok (load path fs) = loadable data /\
     (loadable data = false -> load path fs = Err TypeError)) /\
  (forall fields l, fs path = Some (JSONText (JObj fields)) ->
     load path fs = Ok l ->
     loaded_dimensions l
     = match field "dimensions" fields with
       | Some d => d
       | None => JNum 768
       end) /\
  (forall d, NoDup (map id (stored_entries d)) ->
     fs path = Some (JSONText (data_to_json d)) ->
     load path fs = Ok (as_loaded (store_of_data d))).
Proof.
  split; [| split; [| split; [| split]]].
  - intros H. unfold load, readFileSync. now rewrite H.
  - intros raw H. unfold load, readFileSync. now rewrite H.
  - intros data H. destruct (load_json path fs H) as [Hy Hn].
    split; [| exact Hn].
    destruct (loadable data).
    + destruct (Hy eq_refl) as [l ->]. reflexivity.
    + now rewrite (Hn eq_refl).
  - intros fields l. apply load_dimensions.
  - intros d Hnd H. now apply load_valid.
Qed.

Lemma load_outcome_witness :
  load "missing.json" disk = Err (FileNotFound "missing.json") /\
  (forall l, load "index.json" disk = Ok l ->
     loaded_dimensions l = JNum 768) /\
  (forall l, load "vectors.json" (disk_with ragged) = Ok l ->
     loaded_dimensions l = JNum 3) /\
  load "vectors.json"
       (save "vectors.json" axes disk)
  = Ok (as_loaded
          (store_of_data
             {| stored_entries := map_values (entries axes);
                stored_dimensions := 3 |})).
Proof.
  split; [| split; [| split]].
  - apply (proj1 (load_outcome "missing.json" disk)). reflexivity.
  - intros l.
    apply (proj1 (proj2 (proj2 (proj2 (load_outcome "index.json" disk))))
             [("entries"%string, JArr [])] l).
    reflexivity.
  - intros l.
    apply (proj1 (proj2 (proj2 (proj2
             (load_outcome "vectors.json" (disk_with ragged)))))
             [("entries"%string,
               JArr (map entry_to_json (stored_entries ragged)));
              ("dimensions"%string, JNum 3)] l).
    reflexivity.
  - apply (proj2 (proj2 (proj2 (proj2
             (load_outcome "vectors.json" (save "vectors.json" axes disk)))))).
    + exact axes_unique_ids.
    + reflexivity.
Defined.

(** C9, as stated, fails: the file [{"entries":[]}] is not serialized index
    data (it has no [dimensions]), and [load] returns an empty index of 768
    dimensions for it. *)
Lemma load_accepts_missing_dimensions :
  (forall d, no_dimensions <> data_to_json d) /\
  load "index.json" disk
  = Ok {| loaded_entries := []; loaded_dimensions := JNum 768 |}.
Proof.
  split.
  - intros d. unfold no_dimensions, data_to_json. discriminate.
  - reflexivity.
Qed.

End PersistenceFacts.

(* ================================================================== *)
(** * The retrieval engine *)
(* ================================================================== *)

Module SearchFacts.

Import Search JsFacts Examples.
Local Open Scope R_scope.

(** ** Keyword scores *)

Lemma nth_error_map_index (A B : Type) (f : A -> nat -> B) (l : list A)
    (start i : nat) :
  nth_error (map_index f l start) i
  = option_map (fun x => f x (start + i)%nat) (nth_error l i).
Proof.
  revert start i.
  induction l as [| x l IH]; intros start [| i]; simpl; try reflexivity.
  - now rewrite Nat.add_0_r.
  - rewrite IH. now rewrite Nat.add_succ_comm.
Qed.

Lemma keywordSearch_nth (this : MarketplaceSearch) (query : string) (i : nat)
    (r : SearchResult) :
  nth_error (keywordSearch this query) i = Some r ->
  exists l,
    nth_error (searchByKeyword (registry this) query) i = Some l /\
    r = keyword_result l i.
Proof.
  unfold keywordSearch. rewrite nth_error_map_index. simpl.
  destruct (nth_error (searchByKeyword (registry this) query) i) as [l |];
    simpl; [| discriminate].
  intros [= <-]. eauto.
Qed.

Lemma keywordSearch_length (this : MarketplaceSearch) (query : string) :
  length (keywordSearch this query)
  = length (searchByKeyword (registry this) query).
Proof.
  unfold keywordSearch.
  generalize 0%nat.
  induction (searchByKeyword (registry this) query) as [| x l IH];
    intros n; simpl; [reflexivity | now rewrite IH].
Qed.

(** C2, as the code has it.  The keyword result at zero-based rank [i] is the
    [i]-th listing matched by the listing store, tagged [keyword], with score
    [1 - 0.05 * i]; scores strictly decrease with rank and never exceed 1; the
    score is positive exactly at the ranks below 20. *)
Theorem keyword_scores (this : MarketplaceSearch) (query : string) (i : nat)
    (r : SearchResult) :
  nth_error (keywordSearch this query) i = Some r ->
  nth_error (searchByKeyword (registry this) query) i = Some (listing r) /\
  matchType r = keyword /\
  score r = 1 - 0.05 * INR i /\
  (forall j r', (i < j)%nat ->
     nth_error (keywordSearch this query) j = Some r' -> score r' < score r) /\
  score r <= 1 /\
  (0 < score r <-> (i < 20)%nat).
Proof.
  intros Hr.
  destruct (keywordSearch_nth this query i Hr) as [l [Hl ->]]. simpl.
  split; [exact Hl |]. split; [reflexivity |]. split; [lra |].
  split; [| split].
  - intros j r' Hij Hr'.
    destruct (keywordSearch_nth this query j Hr') as [l' [_ ->]]. simpl.
    apply lt_INR in Hij. lra.
  - pose proof (pos_INR i). lra.
  - split; intros H.
    + destruct (Nat.lt_ge_cases i 20) as [Hlt | Hge]; [exact Hlt | exfalso].
      apply le_INR in Hge. simpl in Hge. lra.
    + apply lt_INR in H. simpl in H. lra.
Qed.

Lemma keyword_scores_witness :
  nth_error (searchByKeyword crowded "guide") 2 = Some (sample "c") /\
  matchType (keyword_result (sample "c") 2) = keyword /\
  score (keyword_result (sample "c") 2) = 1 - 0.05 * INR 2 /\
  (forall j r', (2 < j)%nat ->
     nth_error (keywordSearch (Search.new crowded) "guide") j = Some r' ->
     score r' < score (keyword_result (sample "c") 2)) /\
  score (keyword_result (sample "c") 2) <= 1 /\
  (0 < score (keyword_result (sample "c") 2) <-> (2 < 20)%nat).
Proof.
  apply (@keyword_scores (Search.new crowded) "guide" 2
           (keyword_result (sample "c") 2)).
  reflexivity.
Defined.

(** C2, as stated, fails: with 21 matches the last keyword score is 0, which
    is outside (0, 1]. *)
Lemma keyword_score_out_of_range :
  ~ (forall r, In r (keywordSearch (Search.new crowded) "guide") ->
               0 < score r <= 1).
Proof.
  intros H.
  specialize (H (keyword_result (sample "u") 20)).
  destruct H as [H _].
  - apply nth_error_In with (n := 20%nat). reflexivity.
  - simpl in H. lra.
Qed.

(** ** Degradation to keyword search *)

(** C7.  When there is no embedder, or no index, or the index is empty, or the
    semantic search returns nothing, [search] returns without error the
    keyword results cut by [slice(0, limit)], which for a limit that is not
    negative are the first [limit] keyword results in their order. *)
Theorem graceful_degradation (this : MarketplaceSearch) (query : string)
    (limit : Z) :
  embedder this = None \/
  summaryStore this = None \/
  (exists store, summaryStore this = Some store /\
                 VectorStore.size store = 0%nat) \/
  semanticSearch this query limit = Ok [] ->
  search this query limit = Ok (slice0 (keywordSearch this query) limit) /\
  ((0 <= limit)%Z ->
   slice0 (keywordSearch this query) limit
   = firstn (Z.to_nat limit) (keywordSearch this query)).
Proof.
  intros H. split; [| apply slice0_nonneg].
  assert (Hleg : semantic_leg this query limit = Ok []).
  { unfold semantic_leg.
    destruct H as [-> | [-> | [[store [-> Hsize]] | Hsem]]].
    - reflexivity.
    - now destruct (embedder this).
    - rewrite Hsize. now destruct (embedder this).
    - destruct (embedder this); [| reflexivity].
      destruct (summaryStore this) as [store |]; [| reflexivity].
      now destruct (0 <? VectorStore.size store)%nat. }
  unfold search. rewrite Hleg. reflexivity.
Qed.

Lemma graceful_degradation_witness :
  search (Search.new crowded) "guide" 10
  = Ok (slice0 (keywordSearch (Search.new crowded) "guide") 10) /\
  ((0 <= 10)%Z ->
   slice0 (keywordSearch (Search.new crowded) "guide") 10
   = firstn (Z.to_nat 10) (keywordSearch (Search.new crowded) "guide")).
Proof.
  apply (@graceful_degradation (Search.new crowded) "guide" 10).
  left. reflexivity.
Defined.

(** ** Neighbors that do not resolve *)

Lemma resolve_neighbors_acc (reg : MarketplaceRegistry)
    (results : list VectorStore.SearchResult) (acc : list SearchResult) :
  resolve_neighbors reg results acc = acc ++ resolved_neighbors reg results.
Proof.
  revert acc. induction results as [| r results IH]; intros acc.
  - simpl. now rewrite app_nil_r.
  - cbn [resolve_neighbors resolved_neighbors flat_map].
    fold (resolved_neighbors reg results).
    unfold resolve.
    destruct (field "packageId" (VectorStore.res_metadata r)) as [pid |];
      [| apply IH].
    destruct (truthy (Some pid)); cbn [negb]; [| apply IH].
    destruct (getPackage reg pid) as [l |]; [| apply IH].
    rewrite IH. now rewrite <- app_assoc.
Qed.

Lemma resolve_Some (reg : MarketplaceRegistry) (r : VectorStore.SearchResult)
    (l : PackageListing) :
  resolve reg r = Some l <-> resolves_to reg r l.
Proof.
  unfold resolve, resolves_to. split.
  - destruct (field "packageId" (VectorStore.res_metadata r)) as [pid |];
      [| discriminate].
    destruct (truthy (Some pid)) eqn:Ht; [| discriminate].
    intros H. exists pid. auto.
  - intros [pid [-> [-> H]]]. exact H.
Qed.

Lemma resolve_None (reg : MarketplaceRegistry) (r : VectorStore.SearchResult) :
  resolve reg r = None <->
  truthy (field "packageId" (VectorStore.res_metadata r)) = false \/
  exists pid, field "packageId" (VectorStore.res_metadata r) = Some pid /\
              getPackage reg pid = None.
Proof.
  unfold resolve.
  destruct (field "packageId" (VectorStore.res_metadata r)) as [pid |].
  - destruct (truthy (Some pid)) eqn:Ht.
    + split.
      * intros H. right. eauto.
      * intros [H | [pid' [[= <-] H]]]; [discriminate | exact H].
    + split; auto.
  - split; auto.
Qed.

Lemma resolved_neighbors_made (reg : MarketplaceRegistry)
    (results : list VectorStore.SearchResult) :
  Forall2 (made_of reg) (filter (resolvable reg) results)
          (resolved_neighbors reg results).
Proof.
  induction results as [| r results IH]; simpl; [constructor |].
  unfold resolvable at 1.
  destruct (resolve reg r) as [l |] eqn:Hr; simpl; [| exact IH].
  constructor; [| exact IH].
  unfold made_of. simpl. split; [now apply resolve_Some | auto].
Qed.

Lemma resolved_neighbors_bound (reg : MarketplaceRegistry)
    (results : list VectorStore.SearchResult) (c : R) :
  Forall (fun r => VectorStore.score r <= c) results ->
  Forall (fun x => score x <= c) (resolved_neighbors reg results).
Proof.
  induction 1 as [| r results Hr Hall IH]; simpl; [constructor |].
  destruct (resolve reg r); simpl; [constructor |]; auto.
Qed.

Lemma resolved_neighbors_sorted (reg : MarketplaceRegistry)
    (results : list VectorStore.SearchResult) :
  StronglySorted (desc VectorStore.score) results ->
  StronglySorted (desc score) (resolved_neighbors reg results).
Proof.
  induction 1 as [| r results Hs IH Hall]; simpl; [constructor |].
  destruct (resolve reg r); simpl; [| exact IH].
  constructor; [exact IH |].
  now apply resolved_neighbors_bound.
Qed.

Lemma query_sorted (q : list R) (k : Z) (s : VectorStore.LocalVectorStore)
    (rs : list VectorStore.SearchResult) :
  VectorStore.query q k s = Ok rs ->
  StronglySorted (desc VectorStore.score) rs.
Proof.
  unfold VectorStore.query.
  destruct (negb _); [discriminate |].
  destruct (VectorStore.score_entries _ _ _) as [scored | e]; simpl;
    [| discriminate].
  intros [= <-]. apply slice0_sorted, sort_desc_sorted.
Qed.


(** The sample engine, step by step. *)

Lemma norm_10 : VectorStore.norm [1; 0] = 1.
Proof.
  unfold VectorStore.norm. simpl.
  replace (1 * 1 + (0 * 0 + 0)) with 1 by ring.
  apply sqrt_1.
Qed.

Lemma norm_01 : VectorStore.norm [0; 1] = 1.
Proof.
  unfold VectorStore.norm. simpl.
  replace (0 * 0 + (1 * 1 + 0)) with 1 by ring.
  apply sqrt_1.
Qed.

Lemma cosine_same_axis : VectorStore.cosineSimilarity [1; 0] [1; 0] = Ok 1.
Proof.
  rewrite CosineFacts.cosineSimilarity_unfold by reflexivity.
  rewrite norm_10.
  destruct (Req_dec_T (1 * 1) 0) as [H | _]; [lra |].
  f_equal. simpl. field.
Qed.

Lemma cosine_orthogonal : VectorStore.cosineSimilarity [1; 0] [0; 1] = Ok 0.
Proof.
  rewrite CosineFacts.cosineSimilarity_unfold by reflexivity.
  rewrite norm_10, norm_01.
  destruct (Req_dec_T (1 * 1) 0) as [H | _]; [lra |].
  f_equal. simpl. field.
Qed.

Lemma query_summaries :
  VectorStore.query [1; 0] 10 summaries
  = Ok [VectorStore.mkResult "gone" 1 [("packageId"%string, JStr "gone")];
        VectorStore.mkResult "p1" 0 [("packageId"%string, JStr "p1")]].
Proof.
  unfold VectorStore.query, summaries.
  cbn -[VectorStore.cosineSimilarity].
  rewrite cosine_same_axis. cbn -[VectorStore.cosineSimilarity].
  rewrite cosine_orthogonal. cbn.
  decide_order. reflexivity.
Qed.


(** ** Fusion *)

Lemma kscore_put_keyword (i : string) (m : ScoreMap) (r : SearchResult) :
  kscore i (put_keyword m r)
  = if String.eqb (id (listing r)) i then score r else kscore i m.
Proof.
  unfold kscore, put_keyword.
  destruct (String.eqb_spec (id (listing r)) i) as [<- | Hne].
  - now rewrite map_get_set_same.
  - now rewrite map_get_set_other by congruence.
Qed.

Lemma sscore_put_keyword (i : string) (m : ScoreMap) (r : SearchResult) :
  sscore i (put_keyword m r)
  = if String.eqb (id (listing r)) i then 0 else sscore i m.
Proof.
  unfold sscore, put_keyword.
  destruct (String.eqb_spec (id (listing r)) i) as [<- | Hne].
  - now rewrite map_get_set_same.
  - now rewrite map_get_set_other by congruence.
Qed.

Lemma kscore_put_semantic (i : string) (m : ScoreMap) (r : SearchResult) :
  kscore i (put_semantic m r) = kscore i m.
Proof.
  unfold kscore, put_semantic.
  destruct (map_get String.eqb (id (listing r)) m) as [e |] eqn:E;
    destruct (String.eqb_spec (id (listing r)) i) as [<- | Hne];
    rewrite ?map_get_set_same, ?E;
    try (rewrite map_get_set_other by congruence); reflexivity.
Qed.

Lemma sscore_put_semantic (i : string) (m : ScoreMap) (r : SearchResult) :
  sscore i (put_semantic m r)
  = if String.eqb (id (listing r)) i then score r else sscore i m.
Proof.
  unfold sscore, put_semantic.
  destruct (map_get String.eqb (id (listing r)) m) as [e |] eqn:E;
    destruct (String.eqb_spec (id (listing r)) i) as [<- | Hne];
    rewrite ?map_get_set_same;
    try (rewrite map_get_set_other by congruence); reflexivity.
Qed.

Lemma kscore_keyword_loop (i : string) (l : list SearchResult) (m : ScoreMap) :
  kscore i (fold_left put_keyword l m)
  = match last_result i l with
    | Some r => score r
    | None => kscore i m
    end.
Proof.
  revert m. induction l as [| r l IH]; intros m; simpl; [reflexivity |].
  rewrite IH, kscore_put_keyword.
  destruct (last_result i l); [reflexivity |].
  now destruct (String.eqb (id (listing r)) i).
Qed.

Lemma sscore_keyword_loop (i : string) (l : list SearchResult) (m : ScoreMap) :
  sscore i (fold_left put_keyword l m)
  = match last_result i l with
    | Some _ => 0
    | None => sscore i m
    end.
Proof.
  revert m. induction l as [| r l IH]; intros m; simpl; [reflexivity |].
  rewrite IH, sscore_put_keyword.
  destruct (last_result i l); [reflexivity |].
  now destruct (String.eqb (id (listing r)) i).
Qed.

Lemma kscore_semantic_loop (i : string) (l : list SearchResult) (m : ScoreMap) :
  kscore i (fold_left put_semantic l m) = kscore i m.
Proof.
  revert m. induction l as [| r l IH]; intros m; simpl; [reflexivity |].
  now rewrite IH, kscore_put_semantic.
Qed.

Lemma sscore_semantic_loop (i : string) (l : list SearchResult) (m : ScoreMap) :
  sscore i (fold_left put_semantic l m)
  = match last_result i l with
    | Some r => score r
    | None => sscore i m
    end.
Proof.
  revert m. induction l as [| r l IH]; intros m; simpl; [reflexivity |].
  rewrite IH, sscore_put_semantic.
  destruct (last_result i l); [reflexivity |].
  now destruct (String.eqb (id (listing r)) i).
Qed.

Lemma scores_of_scoreMap (i : string) (kw sem : list SearchResult) :
  kscore i (build_scoreMap kw sem) = side i kw /\
  sscore i (build_scoreMap kw sem) = side i sem.
Proof.
  unfold build_scoreMap, side. split.
  - rewrite kscore_semantic_loop, kscore_keyword_loop.
    now destruct (last_result i kw).
  - rewrite sscore_semantic_loop, sscore_keyword_loop.
    destruct (last_result i sem); [reflexivity |].
    now destruct (last_result i kw).
Qed.

Lemma put_keyword_well_keyed (m : ScoreMap) (r : SearchResult) :
  well_keyed m -> well_keyed (put_keyword m r).
Proof.
  intros [Hnd Hk]. split.
  - now apply map_set_NoDup.
  - apply Forall_forall. intros kv Hin.
    apply map_set_In in Hin as [Hin | [Hv Hf]].
    + unfold keys_are_ids in Hk. rewrite Forall_forall in Hk. now apply Hk.
    + now rewrite Hv, Hf.
Qed.

Lemma put_semantic_well_keyed (m : ScoreMap) (r : SearchResult) :
  well_keyed m -> well_keyed (put_semantic m r).
Proof.
  intros [Hnd Hk]. unfold put_semantic.
  destruct (map_get String.eqb (id (listing r)) m) as [e |] eqn:E.
  - split; [now apply map_set_NoDup |].
    apply Forall_forall. intros kv Hin.
    unfold keys_are_ids in Hk. rewrite Forall_forall in Hk.
    apply map_set_In in Hin as [Hin | [Hv Hf]]; [now apply Hk |].
    rewrite Hv, Hf. simpl.
    apply map_get_In in E. exact (Hk _ E).
  - split; [now apply map_set_NoDup |].
    apply Forall_forall. intros kv Hin.
    unfold keys_are_ids in Hk. rewrite Forall_forall in Hk.
    apply map_set_In in Hin as [Hin | [Hv Hf]]; [now apply Hk |].
    now rewrite Hv, Hf.
Qed.

Lemma fold_well_keyed (f : ScoreMap -> SearchResult -> ScoreMap)
    (l : list SearchResult) (m : ScoreMap) :
  (forall m r, well_keyed m -> well_keyed (f m r)) ->
  well_keyed m -> well_keyed (fold_left f l m).
Proof.
  intros Hf. revert m. induction l as [| r l IH]; intros m Hm; simpl; auto.
Qed.

Lemma scoreMap_well_keyed (kw sem : list SearchResult) :
  well_keyed (build_scoreMap kw sem).
Proof.
  unfold build_scoreMap.
  apply fold_well_keyed; [apply put_semantic_well_keyed |].
  apply fold_well_keyed; [apply put_keyword_well_keyed |].
  split; constructor.
Qed.

Lemma keys_put_keyword (i : string) (m : ScoreMap) (r : SearchResult) :
  In i (map_keys (put_keyword m r)) <->
  In i (map_keys m) \/ id (listing r) = i.
Proof.
  unfold put_keyword. rewrite map_keys_set.
  destruct (map_has String.eqb (id (listing r)) m) eqn:E.
  - apply map_has_true in E. split; [tauto |].
    intros [H | <-]; assumption.
  - rewrite in_app_iff. simpl. tauto.
Qed.

Lemma keys_put_semantic (i : string) (m : ScoreMap) (r : SearchResult) :
  In i (map_keys (put_semantic m r)) <->
  In i (map_keys m) \/ id (listing r) = i.
Proof.
  unfold put_semantic.
  destruct (map_get String.eqb (id (listing r)) m) as [e |] eqn:Eg;
    rewrite map_keys_set;
    destruct (map_has String.eqb (id (listing r)) m) eqn:E;
    try (apply map_has_true in E; split; [tauto |];
         intros [H | <-]; assumption);
    rewrite in_app_iff; simpl; tauto.
Qed.

Lemma keys_fold (f : ScoreMap -> SearchResult -> ScoreMap)
    (l : list SearchResult) (m : ScoreMap) (i : string) :
  (forall m r, In i (map_keys (f m r)) <->
               In i (map_keys m) \/ id (listing r) = i) ->
  In i (map_keys (fold_left f l m)) <-> In i (map_keys m) \/ In i (ids l).
Proof.
  intros Hf. revert m. induction l as [| r l IH]; intros m; simpl.
  - tauto.
  - rewrite IH, Hf. tauto.
Qed.

Lemma keys_of_scoreMap (i : string) (kw sem : list SearchResult) :
  In i (map_keys (build_scoreMap kw sem)) <-> In i (ids kw) \/ In i (ids sem).
Proof.
  unfold build_scoreMap.
  rewrite keys_fold by (intros; apply keys_put_semantic).
  rewrite keys_fold by (intros; apply keys_put_keyword).
  simpl. tauto.
Qed.

Lemma side_unique (l : list SearchResult) (r : SearchResult) :
  NoDup (ids l) -> In r l -> side (id (listing r)) l = score r.
Proof.
  unfold side.
  induction l as [| x l IH]; simpl; [tauto |].
  intros Hnd Hin. inversion Hnd as [| ? ? Hnin Hnd']; subst.
  destruct Hin as [-> | Hin].
  - assert (Hnone : last_result (id (listing r)) l = None).
    { clear - Hnin. induction l as [| y l IH]; simpl; [reflexivity |].
      simpl in Hnin.
      rewrite IH by tauto.
      destruct (String.eqb_spec (id (listing y)) (id (listing r))); tauto. }
    rewrite Hnone. now rewrite String.eqb_refl.
  - specialize (IH Hnd' Hin).
    destruct (last_result (id (listing r)) l) as [r' |] eqn:E;
      [exact IH |].
    exfalso. clear - E Hin.
    induction l as [| y l IH]; simpl in *; [tauto |].
    destruct (last_result (id (listing r)) l); [discriminate |].
    destruct Hin as [-> | Hin]; [| tauto].
    now rewrite String.eqb_refl in E.
Qed.

Lemma fused_result_matchType (e : ScoreEntry) :
  matchType (fused_result e) = combined <->
  0 < keywordScore e /\ 0 < semanticScore e.
Proof.
  unfold fused_result, gtb. simpl.
  destruct (Rlt_dec 0 (keywordScore e)), (Rlt_dec 0 (semanticScore e));
    simpl; split; intros H; try discriminate; tauto.
Qed.

(** What the fused list holds, before it is sorted and cut. *)
Lemma fused_entries (kw sem : list SearchResult) (r : SearchResult) :
  In r (map fused_result (map_values (build_scoreMap kw sem))) ->
  score r = 0.4 * side (id (listing r)) kw + 0.6 * side (id (listing r)) sem /\
  (matchType r = combined <->
   0 < side (id (listing r)) kw /\ 0 < side (id (listing r)) sem).
Proof.
  intros Hin.
  apply in_map_iff in Hin as [e [<- He]].
  apply in_map_iff in He as [[k e'] [Hsnd Hke]]. simpl in Hsnd. subst e'.
  destruct (scoreMap_well_keyed kw sem) as [Hnd Hk].
  assert (Hkey : k = id (entry_listing e)).
  { unfold keys_are_ids in Hk. rewrite Forall_forall in Hk.
    exact (Hk _ Hke). }
  pose proof (In_map_get k e (build_scoreMap kw sem) Hnd Hke) as Hget.
  destruct (scores_of_scoreMap k kw sem) as [Hks Hss].
  unfold kscore in Hks. unfold sscore in Hss. rewrite Hget in Hks, Hss.
  rewrite fused_result_matchType.
  simpl. rewrite <- Hkey, <- Hks, <- Hss.
  split; [unfold KEYWORD_WEIGHT, SEMANTIC_WEIGHT; lra | tauto].
Qed.

Lemma fused_ids (kw sem : list SearchResult) :
  ids (map fused_result (map_values (build_scoreMap kw sem)))
  = map_keys (build_scoreMap kw sem).
Proof.
  destruct (scoreMap_well_keyed kw sem) as [_ Hk].
  unfold ids, map_values, map_keys. rewrite !map_map.
  apply map_ext_in. intros kv Hin. simpl.
  unfold keys_are_ids in Hk. rewrite Forall_forall in Hk.
  symmetry. exact (Hk _ Hin).
Qed.


Lemma semantic_leg_engine :
  semantic_leg engine "guide" 10 = Ok [mkResult (sample "p1") 0 semantic].
Proof.
  unfold semantic_leg, semanticSearch. cbn -[VectorStore.query].
  rewrite query_summaries. reflexivity.
Qed.



End SearchFacts.

(* ================================================================== *)
(** * The scenario of the test suite *)
(* ================================================================== *)

Module Scenario.

Import VectorStore JsFacts VectorStoreFacts CosineFacts Examples.
Local Open Scope R_scope.

Lemma lt_div (a b c : R) : 0 < b -> c * b < a -> c < a / b.
Proof.
  intros Hb H. apply Rmult_lt_reg_r with b; [exact Hb |].
  replace (a / b * b) with a by (field; lra). exact H.
Qed.

Lemma div_lt (a b c : R) : 0 < b -> a < c * b -> a / b < c.
Proof.
  intros Hb H. apply Rmult_lt_reg_r with b; [exact Hb |].
  replace (a / b * b) with a by (field; lra). exact H.
Qed.

Lemma norm_query : 1 < norm [1; 0.1; 0] < 1.01.
Proof.
  unfold norm. simpl.
  replace (1 * 1 + (0.1 * 0.1 + (0 * 0 + 0))) with 1.01 by lra.
  split.
  - apply Rle_lt_trans with (sqrt 1).
    + rewrite sqrt_1; lra.
    + apply sqrt_lt_1; lra.
  - apply Rlt_le_trans with (sqrt (1.01 * 1.01)).
    + apply sqrt_lt_1; lra.
    + rewrite sqrt_square; lra.
Qed.

Lemma norm_axis_y : norm [0; 1; 0] = 1.
Proof.
  unfold norm. simpl.
  replace (0 * 0 + (1 * 1 + (0 * 0 + 0))) with 1 by lra. apply sqrt_1.
Qed.

Lemma norm_axis_z : norm [0; 0; 1] = 1.
Proof.
  unfold norm. simpl.
  replace (0 * 0 + (0 * 0 + (1 * 1 + 0))) with 1 by lra. apply sqrt_1.
Qed.

Lemma norm_diagonal : 0.98 < norm [0.7; 0.7; 0] < 1.
Proof.
  unfold norm. simpl.
  replace (0.7 * 0.7 + (0.7 * 0.7 + (0 * 0 + 0))) with 0.98 by lra.
  split.
  - apply Rle_lt_trans with (sqrt (0.98 * 0.98)).
    + rewrite sqrt_square; lra.
    + apply sqrt_lt_1; lra.
  - apply Rlt_le_trans with (sqrt 1).
    + apply sqrt_lt_1; lra.
    + rewrite sqrt_1; lra.
Qed.

(** The cases of [vector-store.test.ts] that need no arithmetic. *)

Example stores_and_retrieves :
  let s := snd (add "a" [1; 0; 0] [("label"%string, JStr "x-axis")]
                    (VectorStore.new 3)) in
  size s = 1%nat /\ has "a" s = true /\
  option_map embedding (get "a" s) = Some [1; 0; 0] /\
  option_map (fun e => field "label" (metadata e)) (get "a" s)
  = Some (Some (JStr "x-axis")).
Proof. repeat split. Qed.

Example rejects_wrong_dimension :
  fst (add "bad" [1; 2; 3; 4] [] (VectorStore.new 3))
  = Err (DimensionMismatch InAdd 3 4).
Proof. reflexivity. Qed.

Example handles_addBatch :
  size (snd (addBatch [mkItem "a" [1; 0; 0] (Some [("n"%string, JNum 1)]);
                       mkItem "b" [0; 1; 0] (Some [("n"%string, JNum 2)])]
                      (VectorStore.new 3))) = 2%nat.
Proof. reflexivity. Qed.

Example deletes_entries :
  let s := snd (add "a" [1; 0; 0] [] (VectorStore.new 3)) in
  fst (delete "a" s) = true /\
  size (snd (delete "a" s)) = 0%nat /\
  fst (delete "nonexistent" (snd (delete "a" s))) = false.
Proof. repeat split. Qed.

Example overwrites_in_place :
  map_keys (entries (snd (add "x" [0; 0; 0] [] axes)))
  = ["x"; "y"; "z"; "xy"]%string /\
  option_map embedding (get "x" (snd (add "x" [0; 0; 0] [] axes)))
  = Some [0; 0; 0].
Proof. split; reflexivity. Qed.

(** Querying the index of the three axes and the diagonal with [[1; 0.1; 0]]
    and [topK = 2] ranks [x] first, with a score above 0.99, and [xy]
    second. *)
Example nearest_two :
  exists cx cxy,
    query [1; 0.1; 0] 2 axes
    = Ok [mkResult "x" cx []; mkResult "xy" cxy []] /\
    0.99 < cx.
Proof.
  pose proof norm_query as Hn. pose proof norm_diagonal as Hm.
  set (n := norm [1; 0.1; 0]) in *.
  set (m := norm [0.7; 0.7; 0]) in *.
  assert (Hx : cosineSimilarity [1; 0.1; 0] [1; 0; 0] = Ok (1 / n)).
  { rewrite cosineSimilarity_unfold by reflexivity.
    rewrite norm_x_axis. fold n.
    destruct (Req_dec_T (n * 1) 0); [lra |].
    f_equal. cbn [dot]. field. lra. }
  assert (Hy : cosineSimilarity [1; 0.1; 0] [0; 1; 0] = Ok (0.1 / n)).
  { rewrite cosineSimilarity_unfold by reflexivity.
    rewrite norm_axis_y. fold n.
    destruct (Req_dec_T (n * 1) 0); [lra |].
    f_equal. cbn [dot]. field. lra. }
  assert (Hz : cosineSimilarity [1; 0.1; 0] [0; 0; 1] = Ok 0).
  { rewrite cosineSimilarity_unfold by reflexivity.
    rewrite norm_axis_z. fold n.
    destruct (Req_dec_T (n * 1) 0); [lra |].
    f_equal. cbn [dot]. field. lra. }
  assert (Hxy : cosineSimilarity [1; 0.1; 0] [0.7; 0.7; 0]
                = Ok (0.77 / (n * m))).
  { rewrite cosineSimilarity_unfold by reflexivity.
    fold n m.
    assert (0 < n * m) by (apply Rmult_lt_0_compat; lra).
    destruct (Req_dec_T (n * m) 0); [lra |].
    f_equal. cbn [dot]. lra. }
  assert (Hn0 : 0 < n) by lra.
  assert (Hm0 : 0 < m) by lra.
  set (cx := 1 / n) in *.
  set (cy := 0.1 / n) in *.
  set (cxy := 0.77 / (n * m)) in *.
  assert (Hcx : 0.99 < cx).
  { unfold cx. apply lt_div; lra. }
  assert (Hcy : 0 < cy).
  { unfold cy. apply Rdiv_lt_0_compat; lra. }
  assert (Hcxy : cy < cxy < cx).
  { assert (Hq : 0.1 < 0.77 / m < 1).
    { split; [apply lt_div | apply div_lt]; lra. }
    replace cxy with (0.77 / m * / n) by (unfold cxy; field; lra).
    replace cy with (0.1 * / n) by (unfold cy; field; lra).
    replace cx with (1 * / n) by (unfold cx; field; lra).
    assert (0 < / n) by now apply Rinv_0_lt_compat.
    split; apply Rmult_lt_compat_r; lra. }
  exists cx, cxy. split; [| exact Hcx].
  unfold query, axes. cbn -[cosineSimilarity].
  rewrite Hx. cbn -[cosineSimilarity].
  rewrite Hy. cbn -[cosineSimilarity].
  rewrite Hz. cbn -[cosineSimilarity].
  rewrite Hxy. cbn.
  decide_order. reflexivity.
Qed.


End Scenario.

(* ================================================================== *)
(** * More on the vector index *)
(* ================================================================== *)

Module VectorStoreMore.

Import VectorStore JsFacts VectorStoreFacts Examples.
Local Open Scope R_scope.

Section MapMore.
Variable V : Type.
Implicit Types (m : list (string * V)) (k : string) (v : V).

Lemma map_set_length k v m :
  length (map_set String.eqb k v m)
  = if map_has String.eqb k m then length m else S (length m).
Proof.
  unfold map_has.
  induction m as [| [k' v'] m IH]; simpl; [reflexivity |].
  destruct (String.eqb k k'); simpl; [reflexivity |].
  rewrite IH. now destruct (map_get String.eqb k m).
Qed.

Lemma map_get_delete_same k m :
  NoDup (map_keys m) -> map_get String.eqb k (map_delete String.eqb k m) = None.
Proof.
  induction m as [| [k' v'] m IH]; simpl; [reflexivity |].
  intros Hnd. inversion Hnd as [| ? ? Hnin Hnd']; subst.
  destruct (String.eqb_spec k k') as [-> | Hne]; simpl.
  - now apply map_get_None.
  - destruct (String.eqb_spec k k'); [congruence | auto].
Qed.

Lemma map_get_delete_other k j m :
  j <> k ->
  map_get String.eqb j (map_delete String.eqb k m) = map_get String.eqb j m.
Proof.
  intros Hne.
  induction m as [| [k' v'] m IH]; simpl; [reflexivity |].
  destruct (String.eqb_spec k k') as [-> | Hk]; simpl.
  - destruct (String.eqb_spec j k'); [congruence | reflexivity].
  - now rewrite IH.
Qed.

Lemma map_delete_length k m :
  length (map_delete String.eqb k m)
  = if map_has String.eqb k m then pred (length m) else length m.
Proof.
  unfold map_has.
  induction m as [| [k' v'] m IH]; simpl; [reflexivity |].
  destruct (String.eqb k k'); simpl; [reflexivity |].
  rewrite IH. destruct (map_get String.eqb k m) eqn:E; [| reflexivity].
  destruct m; [discriminate | reflexivity].
Qed.
End MapMore.

(** X1.  A successful [add] stores the entry under its id and touches nothing
    else: the other ids read as before, the dimensionality is kept; an id
    that was present keeps its place in the order of the index and the size,
    a new id goes to the end and the size grows by one. *)
Theorem add_frame (i : string) (e : list R) (md : Metadata)
    (s : LocalVectorStore) :
  Z.of_nat (length e) = dimensions s ->
  exists s',
    add i e md s = (Ok tt, s') /\
    get i s' = Some (mkEntry i e md) /\
    (forall j, j <> i -> get j s' = get j s) /\
    dimensions s' = dimensions s /\
    size s' = (if has i s then size s else S (size s)) /\
    map_keys (entries s')
    = (if has i s then map_keys (entries s) else map_keys (entries s) ++ [i]).
Proof.
  intros He. rewrite add_ok by assumption.
  eexists. split; [reflexivity |].
  unfold get, has, size. simpl.
  split; [apply map_get_set_same |].
  split; [intros j Hj; now apply map_get_set_other |].
  split; [reflexivity |].
  split; [apply map_set_length | apply map_keys_set].
Qed.

Lemma add_frame_witness :
  exists s',
    add "x" [0; 0; 1] [] axes = (Ok tt, s') /\
    get "x" s' = Some (mkEntry "x" [0; 0; 1] []) /\
    (forall j, j <> "x"%string -> get j s' = get j axes) /\
    dimensions s' = dimensions axes /\
    size s' = (if has "x" axes then size axes else S (size axes)) /\
    map_keys (entries s')
    = (if has "x" axes then map_keys (entries axes)
       else map_keys (entries axes) ++ ["x"%string]).
Proof.
  apply (@add_frame "x" [0; 0; 1] [] axes). reflexivity.
Defined.

(** X2.  [delete] answers whether the id was present; afterwards the id is
    absent, every other id reads as before, and the size has gone down by one
    exactly when the id was present. *)
Theorem delete_spec (i : string) (s : LocalVectorStore) :
  unique_ids s ->
  fst (delete i s) = has i s /\
  has i (snd (delete i s)) = false /\
  (forall j, j <> i -> get j (snd (delete i s)) = get j s) /\
  size (snd (delete i s)) = (if has i s then pred (size s) else size s) /\
  dimensions (snd (delete i s)) = dimensions s /\
  fst (delete i (snd (delete i s))) = false.
Proof.
  intros Hu. unfold delete, has, get, size. simpl.
  assert (Hgone : map_has String.eqb i (map_delete String.eqb i (entries s))
                  = false).
  { unfold map_has. now rewrite map_get_delete_same. }
  split; [reflexivity |].
  split; [exact Hgone |].
  split; [intros j Hj; now apply map_get_delete_other |].
  split; [apply map_delete_length |].
  split; [reflexivity | exact Hgone].
Qed.

Lemma delete_spec_witness :
  fst (delete "y" axes) = has "y" axes /\
  has "y" (snd (delete "y" axes)) = false /\
  (forall j, j <> "y"%string -> get j (snd (delete "y" axes)) = get j axes) /\
  size (snd (delete "y" axes))
  = (if has "y" axes then pred (size axes) else size axes) /\
  dimensions (snd (delete "y" axes)) = dimensions axes /\
  fst (delete "y" (snd (delete "y" axes))) = false.
Proof.
  apply (@delete_spec "y" axes).
  unfold unique_ids. simpl.
  repeat constructor; simpl; intuition discriminate.
Defined.

(** ** What a query returns *)

Lemma Forall2_In_l (A B : Type) (P : A -> B -> Prop) (xs : list A)
    (ys : list B) (x : A) :
  Forall2 P xs ys -> In x xs -> exists y, In y ys /\ P x y.
Proof.
  induction 1 as [| x0 y0 xs ys H0 HF IH]; simpl; [tauto |].
  intros [<- | Hin].
  - exists y0. auto.
  - destruct (IH Hin) as [y [Hy HP]]. exists y. auto.
Qed.

Lemma scored_ids (q : list R) (values : list VectorEntry)
    (scored : list SearchResult) :
  Forall2 (scored_as q) values scored -> map res_id scored = map id values.
Proof.
  induction 1 as [| e r values scored [Hid _] HF IH]; simpl;
    [reflexivity | now rewrite Hid, IH].
Qed.

Lemma keyed_values (s : LocalVectorStore) :
  keyed s -> map id (map_values (entries s)) = map_keys (entries s).
Proof.
  unfold keyed, map_values, map_keys. intros Hk.
  rewrite map_map. apply map_ext_in. intros kv Hin.
  rewrite Forall_forall in Hk. symmetry. now apply Hk.
Qed.

Lemma sorted_split (A : Type) (score : A -> R) (l1 l2 : list A) (a b : A) :
  StronglySorted (desc score) (l1 ++ l2) -> In a l1 -> In b l2 ->
  score b <= score a.
Proof.
  induction l1 as [| x l1 IH]; simpl; [tauto |].
  intros Hs [<- | Ha] Hb; inversion Hs as [| ? ? Hs' Hall]; subst.
  - rewrite Forall_forall in Hall. apply Hall. apply in_or_app. now right.
  - now apply IH.
Qed.

Lemma value_of_entry (s : LocalVectorStore) (e : VectorEntry) :
  keyed s -> unique_ids s -> In e (map_values (entries s)) ->
  get (id e) s = Some e.
Proof.
  unfold keyed, unique_ids, map_values, get. intros Hk Hu Hin.
  apply in_map_iff in Hin as [[k e'] [He Hin]]. simpl in He. subst e'.
  rewrite Forall_forall in Hk. pose proof (Hk _ Hin) as Hkey. simpl in Hkey.
  subst k. now apply In_map_get.
Qed.

(** X3.  Every result of a query stands for an entry of the index: the entry
    stored under the id of the result has the metadata of the result, and the
    score of the result is the cosine similarity of the query vector and the
    embedding of that entry.  No id is returned twice. *)
Theorem query_results_sound (q : list R) (k : Z) (s : LocalVectorStore)
    (rs : list SearchResult) :
  keyed s -> unique_ids s ->
  query q k s = Ok rs ->
  NoDup (map res_id rs) /\
  forall r, In r rs ->
    exists e, get (res_id r) s = Some e /\
              res_metadata r = metadata e /\
              cosineSimilarity q (embedding e) = Ok (score r).
Proof.
  intros Hk Hu Hq. split.
  - apply query_inv in Hq as [scored [HF ->]].
    destruct (slice0_prefix (sort_desc score scored) k) as [n ->].
    assert (Hnd : NoDup (map res_id (sort_desc score scored))).
    { apply Permutation_NoDup with (l := map res_id scored).
      - apply Permutation_map, sort_desc_perm.
      - rewrite (scored_ids HF), keyed_values by assumption. exact Hu. }
    rewrite <- (firstn_skipn n (sort_desc score scored)) in Hnd.
    rewrite map_app in Hnd. now apply NoDup_app_remove_r in Hnd.
  - intros r Hr.
    destruct (@query_neighbors q k s rs r Hq Hr) as [e [He [Hid [Hmd Hc]]]].
    exists e. rewrite Hid. split; [now apply value_of_entry | now split].
Qed.

Lemma query_results_sound_witness :
  NoDup (map res_id [mkResult "gone" 1 [("packageId"%string, JStr "gone")];
                     mkResult "p1" 0 [("packageId"%string, JStr "p1")]]) /\
  forall r,
    In r [mkResult "gone" 1 [("packageId"%string, JStr "gone")];
          mkResult "p1" 0 [("packageId"%string, JStr "p1")]] ->
    exists e, get (res_id r) summaries = Some e /\
              res_metadata r = metadata e /\
              cosineSimilarity [1; 0] (embedding e) = Ok (score r).
Proof.
  apply (@query_results_sound [1; 0] 10 summaries).
  - unfold keyed. simpl. repeat constructor.
  - unfold unique_ids. simpl. repeat constructor; simpl; intuition discriminate.
  - exact SearchFacts.query_summaries.
Defined.


Lemma query_summaries_top :
  query [1; 0] 1 summaries
  = Ok [mkResult "gone" 1 [("packageId"%string, JStr "gone")]].
Proof.
  unfold query, summaries.
  cbn -[cosineSimilarity].
  rewrite SearchFacts.cosine_same_axis. cbn -[cosineSimilarity].
  rewrite SearchFacts.cosine_orthogonal. cbn.
  decide_order. reflexivity.
Qed.


(** X5.  Asking for fewer results gives a prefix: the answer to [topK = K1] is
    the first [K1] results of the answer to any larger [topK]. *)
Theorem query_prefix (q : list R) (K1 K2 : nat) (s : LocalVectorStore)
    (rs : list SearchResult) :
  (K1 <= K2)%nat ->
  query q (Z.of_nat K2) s = Ok rs ->
  query q (Z.of_nat K1) s = Ok (firstn K1 rs).
Proof.
  intros HK Hq. apply query_inv in Hq as Hinv.
  destruct Hinv as [scored [HF ->]].
  unfold query in *.
  destruct (negb (Z.of_nat (length q) =? dimensions s)%Z); [discriminate |].
  destruct (score_entries q (map_values (entries s)) []) as [scored' | err];
    simpl in *; [| discriminate].
  injection Hq as Hq. rewrite !slice0_nat in *.
  f_equal. rewrite <- Hq, firstn_firstn.
  now rewrite Nat.min_l.
Qed.

Lemma query_prefix_witness :
  query [1; 0] (Z.of_nat 1) summaries
  = Ok (firstn 1 [mkResult "gone" 1 [("packageId"%string, JStr "gone")];
                  mkResult "p1" 0 [("packageId"%string, JStr "p1")]]).
Proof.
  apply (@query_prefix [1; 0] 1 10 summaries).
  - lia.
  - exact SearchFacts.query_summaries.
Defined.

(** ** Batches *)

Lemma last_entry_cons (i : string) (e : VectorEntry) (es : list VectorEntry)
    (before : option VectorEntry) :
  match last_entry i (e :: es) with
  | Some e' => Some e'
  | None => before
  end
  = match last_entry i es with
    | Some e' => Some e'
    | None => if String.eqb (id e) i then Some e else before
    end.
Proof.
  simpl. destruct (last_entry i es); [reflexivity |].
  now destruct (String.eqb (id e) i).
Qed.

(** X6.  A batch in which every item has the length of the index is added
    whole: the call succeeds, the dimensionality is kept, an id of the batch
    reads as the last item with that id, any other id reads as before, and the
    size grows by at most the length of the batch. *)
Theorem addBatch_last_write_wins (items : list BatchItem)
    (s : LocalVectorStore) :
  Forall (fun it => Z.of_nat (length (item_embedding it)) = dimensions s)
         items ->
  exists s',
    addBatch items s = (Ok tt, s') /\
    dimensions s' = dimensions s /\
    (forall i, get i s' = match last_entry i (map entry_of_item items) with
                          | Some e => Some e
                          | None => get i s
                          end) /\
    (size s <= size s' <= size s + length items)%nat.
Proof.
  intros Hall. revert s Hall.
  induction items as [| x items IH]; intros s Hall.
  - exists s. simpl. repeat split; lia.
  - inversion Hall as [| ? ? Hx Hrest]; subst.
    set (s1 := {| entries := map_set String.eqb (item_id x) (entry_of_item x)
                                     (entries s);
                  dimensions := dimensions s |}).
    assert (Hadd : add (item_id x) (item_embedding x)
                       (metadata_or_empty (item_metadata x)) s = (Ok tt, s1))
      by now rewrite add_ok.
    destruct (IH s1 Hrest) as [s' [Hbatch [Hdim' [Hget' Hsize']]]].
    exists s'. split; [| split; [| split]].
    + simpl. rewrite Hadd. exact Hbatch.
    + exact Hdim'.
    + intros i. rewrite Hget'.
      change (map entry_of_item (x :: items))
        with (entry_of_item x :: map entry_of_item items).
      rewrite last_entry_cons.
      destruct (last_entry i (map entry_of_item items)); [reflexivity |].
      unfold get, s1. simpl.
      destruct (String.eqb_spec (item_id x) i) as [<- | Hne].
      * apply map_get_set_same.
      * apply map_get_set_other. congruence.
    + assert (Hs1 : size s1 = if has (item_id x) s then size s
                              else S (size s))
        by (unfold size, has, s1; simpl; apply map_set_length).
      simpl length. destruct (has (item_id x) s); lia.
Qed.

Lemma addBatch_last_write_wins_witness :
  exists s',
    addBatch twice (VectorStore.new 3) = (Ok tt, s') /\
    dimensions s' = dimensions (VectorStore.new 3) /\
    (forall i, get i s'
               = match last_entry i (map entry_of_item twice) with
                 | Some e => Some e
                 | None => get i (VectorStore.new 3)
                 end) /\
    (size (VectorStore.new 3) <= size s'
     <= size (VectorStore.new 3) + length twice)%nat.
Proof.
  apply (@addBatch_last_write_wins twice (VectorStore.new 3)).
  repeat constructor.
Defined.

End VectorStoreMore.

(* ================================================================== *)
(** * More on persistence *)
(* ================================================================== *)

Module PersistenceMore.

Import VectorStore JsFacts VectorStoreFacts PersistenceFacts Examples.
Local Open Scope R_scope.

Lemma map_set_held (k : string) (e : VectorEntry)
    (m : list (string * VectorEntry)) :
  map_set same_value_zero (Some (JStr k)) (entry_to_json e) (map held m)
  = map held (map_set String.eqb k e m).
Proof.
  induction m as [| [k' e'] m IH]; simpl; [reflexivity |].
  destruct (String.eqb k k'); simpl; [reflexivity | now rewrite IH].
Qed.

Lemma load_entries_fold (es : list VectorEntry)
    (m : list (string * VectorEntry)) :
  load_entries (map entry_to_json es) (map held m)
  = Ok (map held (fold_left set_entry es m)).
Proof.
  revert m. induction es as [| e es IH]; intros m; simpl; [reflexivity |].
  rewrite map_set_held. apply IH.
Qed.

Lemma get_fold_set (i : string) (es : list VectorEntry)
    (m : list (string * VectorEntry)) :
  map_get String.eqb i (fold_left set_entry es m)
  = match last_entry i es with
    | Some e => Some e
    | None => map_get String.eqb i m
    end.
Proof.
  revert m. induction es as [| e es IH]; intros m; simpl; [reflexivity |].
  rewrite IH. destruct (last_entry i es); [reflexivity |].
  unfold set_entry.
  destruct (String.eqb_spec (id e) i) as [<- | Hne].
  - apply map_get_set_same.
  - apply map_get_set_other. congruence.
Qed.

Lemma existsb_keys (i : string) (m : list (string * VectorEntry)) :
  existsb (String.eqb i) (map_keys m) = map_has String.eqb i m.
Proof.
  unfold map_has.
  induction m as [| [k e] m IH]; simpl; [reflexivity |].
  destruct (String.eqb i k); simpl; [reflexivity | exact IH].
Qed.

Lemma keys_fold_set (es : list VectorEntry) (m : list (string * VectorEntry)) :
  map_keys (fold_left set_entry es m)
  = map_keys m ++ first_occurrences (map_keys m) (map id es).
Proof.
  revert m. induction es as [| e es IH]; intros m; simpl.
  - now rewrite app_nil_r.
  - rewrite IH. unfold set_entry. rewrite map_keys_set, existsb_keys.
    destruct (map_has String.eqb (id e) m); [reflexivity |].
    now rewrite <- app_assoc.
Qed.

Lemma fold_set_keyed (es : list VectorEntry) (m : list (string * VectorEntry)) :
  Forall (fun kv => fst kv = id (snd kv)) m ->
  Forall (fun kv => fst kv = id (snd kv)) (fold_left set_entry es m).
Proof.
  revert m. induction es as [| e es IH]; intros m Hm; simpl; [exact Hm |].
  apply IH. apply Forall_forall. intros kv Hin.
  apply map_set_In in Hin as [Hin | [Hv Hk]].
  - rewrite Forall_forall in Hm. now apply Hm.
  - now rewrite Hv, Hk.
Qed.

Lemma fold_set_NoDup (es : list VectorEntry) (m : list (string * VectorEntry)) :
  NoDup (map_keys m) -> NoDup (map_keys (fold_left set_entry es m)).
Proof.
  revert m. induction es as [| e es IH]; intros m Hm; simpl; [exact Hm |].
  apply IH. now apply map_set_NoDup.
Qed.

(** X7.  [load] of serialized index data always succeeds, and merges entries
    that share an id: the loaded index has the persisted dimensions and one
    entry per id, under that id, which is the last persisted entry with the
    id, at the place where the id first occurs. *)
Theorem load_merges_duplicates (path : string) (fs : filesystem)
    (d : StoredData) :
  fs path = Some (JSONText (data_to_json d)) ->
  load path fs = Ok (as_loaded (loaded_index d)) /\
  dimensions (loaded_index d) = stored_dimensions d /\
  keyed (loaded_index d) /\
  unique_ids (loaded_index d) /\
  (forall i, get i (loaded_index d) = last_entry i (stored_entries d)) /\
  map_keys (entries (loaded_index d))
  = first_occurrences [] (map id (stored_entries d)).
Proof.
  intros Hfs. split; [| split; [| split; [| split; [| split]]]].
  - unfold load, readFileSync. rewrite Hfs. simpl.
    pose proof (load_entries_fold (stored_entries d) []) as H.
    simpl in H. rewrite H. reflexivity.
  - reflexivity.
  - apply fold_set_keyed. constructor.
  - apply fold_set_NoDup. constructor.
  - intros i. unfold get, loaded_index. simpl. rewrite get_fold_set.
    now destruct (last_entry i (stored_entries d)).
  - unfold loaded_index. simpl. now rewrite keys_fold_set.
Qed.

Lemma load_merges_duplicates_witness :
  load "vectors.json" (disk_with repeated)
  = Ok (as_loaded (loaded_index repeated)) /\
  dimensions (loaded_index repeated) = stored_dimensions repeated /\
  keyed (loaded_index repeated) /\
  unique_ids (loaded_index repeated) /\
  (forall i, get i (loaded_index repeated)
             = last_entry i (stored_entries repeated)) /\
  map_keys (entries (loaded_index repeated))
  = first_occurrences [] (map id (stored_entries repeated)).
Proof.
  apply (@load_merges_duplicates "vectors.json" (disk_with repeated) repeated).
  reflexivity.
Defined.

(** ** A file whose entries do not fit its dimensions *)

Lemma score_entries_fit (q : list R) (pre rest : list VectorEntry)
    (acc : list SearchResult) :
  Forall (fun e => length (embedding e) = length q) pre ->
  exists rs, score_entries q (pre ++ rest) acc
             = score_entries q rest (acc ++ rs).
Proof.
  intros H. revert acc.
  induction H as [| e pre He Hall IH]; intros acc; simpl.
  - exists []. now rewrite app_nil_r.
  - destruct (cosineSimilarity_defined q (embedding e)) as [c Hc];
      [now symmetry |].
    rewrite Hc. simpl.
    destruct (IH (acc ++ [mkResult (id e) c (metadata e)])) as [rs Hrs].
    exists (mkResult (id e) c (metadata e) :: rs).
    now rewrite Hrs, <- app_assoc.
Qed.

(** X8.  [load] does not compare the embeddings of a file with its
    dimensions.  When the first persisted entry of another length is [bad],
    the file still loads, as the index of its entries, and on that index every
    query with a vector of the persisted dimensionality fails with the vector
    length mismatch that [cosineSimilarity] raises at [bad]. *)
Theorem load_skips_dimension_check (path : string) (fs : filesystem)
    (d : StoredData) (pre post : list VectorEntry) (bad : VectorEntry)
    (q : list R) :
  fs path = Some (JSONText (data_to_json d)) ->
  NoDup (map id (stored_entries d)) ->
  stored_entries d = pre ++ bad :: post ->
  Forall (fun e => Z.of_nat (length (embedding e)) = stored_dimensions d) pre ->
  Z.of_nat (length (embedding bad)) <> stored_dimensions d ->
  Z.of_nat (length q) = stored_dimensions d ->
  load path fs = Ok (as_loaded (store_of_data d)) /\
  forall k, query q k (store_of_data d)
            = Err (VectorLengthMismatch (length q) (length (embedding bad))).
Proof.
  intros Hfs Hnd Hsplit Hpre Hbad Hq.
  split; [now apply load_valid |].
  intros k. unfold query, store_of_data. simpl.
  rewrite (proj2 (Z.eqb_eq _ _) Hq). simpl.
  unfold map_values. rewrite map_map. simpl. rewrite map_id, Hsplit.
  assert (Hfit : Forall (fun e => length (embedding e) = length q) pre).
  { eapply Forall_impl; [| exact Hpre]. simpl. intros e He. lia. }
  destruct (score_entries_fit q (bad :: post) [] Hfit) as [rs ->].
  simpl. rewrite cosineSimilarity_mismatch by lia. reflexivity.
Qed.

Lemma load_skips_dimension_check_witness :
  load "vectors.json" (disk_with ragged) = Ok (as_loaded (store_of_data ragged))
  /\
  forall k, query [1; 0; 0] k (store_of_data ragged)
            = Err (VectorLengthMismatch
                     (length [1; 0; 0])
                     (length (embedding (mkEntry "b" [0; 1] [])))).
Proof.
  apply (@load_skips_dimension_check "vectors.json" (disk_with ragged) ragged
           [mkEntry "a" [1; 0; 0] []] [] (mkEntry "b" [0; 1] []) [1; 0; 0]).
  - reflexivity.
  - simpl. repeat constructor; simpl; intuition discriminate.
  - reflexivity.
  - repeat constructor.
  - simpl. lia.
  - reflexivity.
Defined.

End PersistenceMore.

(* ================================================================== *)
(** * More on cosine similarity *)
(* ================================================================== *)

Module CosineMore.

Import VectorStore JsFacts VectorStoreFacts CosineFacts Examples.
Local Open Scope R_scope.

Lemma dot_comm (a b : list R) : dot a b = dot b a.
Proof.
  revert b. induction a as [| x a IH]; intros [| y b]; simpl; try reflexivity.
  rewrite IH. ring.
Qed.

(** X9.  [cosineSimilarity] is symmetric: with the arguments exchanged it
    returns the same number, and it fails exactly when it failed before. *)
Theorem cosine_symmetric (a b : list R) (c : R) :
  cosineSimilarity a b = Ok c <-> cosineSimilarity b a = Ok c.
Proof.
  destruct (Nat.eq_dec (length a) (length b)) as [Hlen | Hne].
  - rewrite (cosineSimilarity_unfold a b Hlen).
    rewrite (cosineSimilarity_unfold b a (eq_sym Hlen)).
    rewrite (dot_comm b a), (Rmult_comm (norm b) (norm a)). tauto.
  - rewrite (cosineSimilarity_mismatch a b Hne).
    rewrite (cosineSimilarity_mismatch b a (not_eq_sym Hne)).
    split; discriminate.
Qed.

End CosineMore.

(* ================================================================== *)
(** * More on the retrieval engine *)
(* ================================================================== *)

Module SearchMore.

Import Search JsFacts SearchFacts Examples.
Local Open Scope R_scope.

(** ** The shape of the results of [search] *)

Lemma map_index_In (l : list PackageListing) (start : nat) (r : SearchResult) :
  In r (map_index keyword_result l start) ->
  exists x i, (start <= i)%nat /\ In x l /\ r = keyword_result x i.
Proof.
  revert start. induction l as [| x l IH]; intros start; simpl; [tauto |].
  intros [<- | Hin].
  - exists x, start. auto.
  - destruct (IH _ Hin) as [x' [i [Hi [Hx Hr]]]].
    exists x', i. repeat split; auto. lia.
Qed.

Lemma keyword_sorted (l : list PackageListing) (start : nat) :
  StronglySorted (desc score) (map_index keyword_result l start).
Proof.
  revert start. induction l as [| x l IH]; intros start; simpl;
    constructor; [apply IH |].
  apply Forall_forall. intros r Hr.
  destruct (map_index_In _ _ _ Hr) as [x' [i [Hi [_ ->]]]].
  unfold desc. simpl. apply le_INR in Hi. rewrite S_INR in Hi. lra.
Qed.

Lemma keyword_at_most_one (this : MarketplaceSearch) (query : string)
    (r : SearchResult) :
  In r (keywordSearch this query) ->
  score r <= 1 /\ matchType r = keyword /\
  In (listing r) (searchByKeyword (registry this) query).
Proof.
  intros Hr. destruct (map_index_In _ _ _ Hr) as [x [i [_ [Hx ->]]]].
  simpl. pose proof (pos_INR i). repeat split; [lra | exact Hx].
Qed.

Lemma search_cases (this : MarketplaceSearch) (query : string) (limit : Z)
    (out : list SearchResult) :
  search this query limit = Ok out ->
  exists sem,
    semantic_leg this query limit = Ok sem /\
    (sem = [] /\ out = slice0 (keywordSearch this query) limit \/
     sem <> [] /\ out = combineResults (keywordSearch this query) sem limit).
Proof.
  unfold search.
  destruct (semantic_leg this query limit) as [sem | e]; simpl;
    [| discriminate].
  destruct sem as [| x sem]; simpl; intros [= <-].
  - exists []. auto.
  - exists (x :: sem). split; [reflexivity | right].
    split; [discriminate | reflexivity].
Qed.

Lemma slice0_In (A : Type) (l : list A) (n : Z) (x : A) :
  In x (slice0 l n) -> In x l.
Proof.
  destruct (slice0_prefix l n) as [k ->]. intros H.
  rewrite <- (firstn_skipn k l). apply in_or_app. now left.
Qed.

Lemma slice0_NoDup (A : Type) (l : list A) (n : Z) :
  NoDup l -> NoDup (slice0 l n).
Proof.
  destruct (slice0_prefix l n) as [k ->]. intros H.
  rewrite <- (firstn_skipn k l) in H. now apply NoDup_app_remove_r in H.
Qed.

Lemma slice0_map (A B : Type) (f : A -> B) (l : list A) (n : Z) :
  map f (slice0 l n) = slice0 (map f l) n.
Proof.
  unfold slice0. rewrite length_map.
  destruct (n <? 0)%Z; now rewrite firstn_map.
Qed.


Lemma search_engine :
  search engine "guide" 10 = Ok [mkResult (sample "p1") 0.4 keyword].
Proof.
  unfold search. rewrite semantic_leg_engine.
  cbn -[fused_result].
  unfold fused_result, gtb. cbn [keywordScore semanticScore entry_listing].
  destruct (Rlt_dec 0 (1.0 - 0 * 0.05)) as [_ | H]; [| exfalso; lra].
  destruct (Rlt_dec 0 0) as [H | _]; [exfalso; lra |].
  replace ((1.0 - 0 * 0.05) * KEYWORD_WEIGHT + 0 * SEMANTIC_WEIGHT)
    with 0.4 by (unfold KEYWORD_WEIGHT, SEMANTIC_WEIGHT; lra).
  reflexivity.
Qed.


(** ** Failures of the semantic leg *)

(** X11.  With an embedder and an index that is not empty, a failure of the
    semantic leg is the failure of [search], whatever the keyword results are:
    when the provider fails to embed the query, [search] fails with the error
    of the provider; when the embedding has not the dimensionality of the
    index, [search] fails with the dimension mismatch of [query]. *)
Theorem search_propagates_failures (this : MarketplaceSearch) (query : string)
    (limit : Z) (emb : GeminiEmbedder) (store : VectorStore.LocalVectorStore) :
  embedder this = Some emb ->
  summaryStore this = Some store ->
  (0 < VectorStore.size store)%nat ->
  (forall e, embedOne emb query = Err e -> search this query limit = Err e) /\
  (forall v, embedOne emb query = Ok v ->
     Z.of_nat (length v) <> VectorStore.dimensions store ->
     search this query limit
     = Err (DimensionMismatch InQuery (VectorStore.dimensions store)
                              (length v))).
Proof.
  intros He Hs Hsize.
  assert (Hleg : semantic_leg this query limit
                 = semanticSearch this query limit).
  { unfold semantic_leg. rewrite He, Hs.
    now rewrite (proj2 (Nat.ltb_lt _ _) Hsize). }
  split.
  - intros e Hfail. unfold search. rewrite Hleg.
    unfold semanticSearch. rewrite He, Hs, Hfail. reflexivity.
  - intros v Hv Hdim. unfold search. rewrite Hleg.
    unfold semanticSearch. rewrite He, Hs, Hv. simpl.
    rewrite VectorStoreFacts.query_err by assumption. reflexivity.
Qed.

Lemma search_propagates_failures_witness :
  search offline "guide" 10 = Err (ProviderError "503") /\
  search mismatched "guide" 10 = Err (DimensionMismatch InQuery 2 3).
Proof.
  split.
  - refine (proj1 (@search_propagates_failures offline "guide" 10
                     {| embedOne := fun _ => Err (ProviderError "503");
                        getDimensions := 2 |}
                     summaries eq_refl eq_refl _) _ eq_refl).
    unfold VectorStore.size. simpl. lia.
  - refine (proj2 (@search_propagates_failures mismatched "guide" 10
                     {| embedOne := fun _ => Ok [1; 0; 0];
                        getDimensions := 3 |}
                     summaries eq_refl eq_refl _) [1; 0; 0] eq_refl _).
    + unfold VectorStore.size. simpl. lia.
    + simpl. lia.
Defined.

(** ** The semantic results *)

Lemma resolved_In (reg : MarketplaceRegistry)
    (ns : list VectorStore.SearchResult) (x : SearchResult) :
  In x (resolved_neighbors reg ns) ->
  exists n, In n ns /\ resolve reg n = Some (listing x) /\
            score x = VectorStore.score n /\ matchType x = semantic.
Proof.
  induction ns as [| n ns IH]; simpl; [tauto |].
  destruct (resolve reg n) as [l |] eqn:Hr; simpl.
  - intros [<- | Hin].
    + exists n. simpl. auto.
    + destruct (IH Hin) as [n' [Hn' H]]. exists n'. auto.
  - intros Hin. destruct (IH Hin) as [n' [Hn' H]]. exists n'. auto.
Qed.

Lemma resolved_length (reg : MarketplaceRegistry)
    (ns : list VectorStore.SearchResult) :
  (length (resolved_neighbors reg ns) <= length ns)%nat.
Proof.
  induction ns as [| n ns IH]; simpl; [lia |].
  destruct (resolve reg n); simpl; lia.
Qed.

Lemma semanticSearch_inv (this : MarketplaceSearch) (query : string)
    (limit : Z) (out : list SearchResult) :
  semanticSearch this query limit = Ok out ->
  out = [] \/
  exists emb store v ns,
    embedder this = Some emb /\ summaryStore this = Some store /\
    embedOne emb query = Ok v /\
    VectorStore.query v limit store = Ok ns /\
    out = resolved_neighbors (registry this) ns.
Proof.
  unfold semanticSearch.
  destruct (embedder this) as [emb |]; [| intros [= <-]; now left].
  destruct (summaryStore this) as [store |]; [| intros [= <-]; now left].
  destruct (embedOne emb query) as [v | e] eqn:Hv; simpl; [| discriminate].
  destruct (VectorStore.query v limit store) as [ns | e] eqn:Hq; simpl;
    [| discriminate].
  intros [= <-]. right. exists emb, store, v, ns.
  rewrite resolve_neighbors_acc. auto 6.
Qed.

Lemma semantic_leg_inv (this : MarketplaceSearch) (query : string)
    (limit : Z) (sem : list SearchResult) :
  semantic_leg this query limit = Ok sem ->
  sem = [] \/ semanticSearch this query limit = Ok sem.
Proof.
  unfold semantic_leg.
  destruct (embedder this); [| intros [= <-]; now left].
  destruct (summaryStore this) as [store |]; [| intros [= <-]; now left].
  destruct (0 <? VectorStore.size store)%nat; [now right |].
  intros [= <-]. now left.
Qed.

Lemma query_length (q : list R) (k : Z) (s : VectorStore.LocalVectorStore)
    (rs : list VectorStore.SearchResult) :
  VectorStore.query q k s = Ok rs ->
  (length rs <= VectorStore.size s)%nat /\
  ((0 <= k)%Z -> (Z.of_nat (length rs) <= k)%Z).
Proof.
  intros Hq. apply VectorStoreFacts.query_inv in Hq as [scored [HF ->]].
  split; [| apply slice0_length_le].
  destruct (slice0_prefix (sort_desc VectorStore.score scored) k) as [n ->].
  rewrite length_firstn, sort_desc_length, <- (Forall2_length HF).
  unfold VectorStore.size, map_values. rewrite length_map. lia.
Qed.

(** X12.  With an index, what [semanticSearch] returns is bounded: there are
    no more results than entries in the index, and for a limit that is not
    negative there are at most [limit] of them. *)
Theorem semanticSearch_bounded (this : MarketplaceSearch) (query : string)
    (limit : Z) (store : VectorStore.LocalVectorStore)
    (out : list SearchResult) :
  summaryStore this = Some store ->
  semanticSearch this query limit = Ok out ->
  (length out <= VectorStore.size store)%nat /\
  ((0 <= limit)%Z -> (Z.of_nat (length out) <= limit)%Z).
Proof.
  intros Hs Hsem.
  destruct (semanticSearch_inv _ _ _ Hsem)
    as [-> | [emb [store' [v [ns [He [Hs' [Hv [Hq ->]]]]]]]]].
  - simpl. split; lia.
  - assert (store' = store) by congruence. subst store'.
    destruct (query_length _ _ _ Hq) as [Hsize Hlim].
    pose proof (resolved_length (registry this) ns) as Hlen.
    split; [lia |]. intros Hl. specialize (Hlim Hl). lia.
Qed.

Lemma semanticSearch_engine :
  semanticSearch engine "guide" 10 = Ok [mkResult (sample "p1") 0 semantic].
Proof.
  unfold semanticSearch. cbn -[VectorStore.query].
  rewrite query_summaries. reflexivity.
Qed.

Lemma semanticSearch_bounded_witness :
  (length [mkResult (sample "p1") 0 semantic]
   <= VectorStore.size summaries)%nat /\
  ((0 <= 10)%Z ->
   (Z.of_nat (length [mkResult (sample "p1") 0 semantic]) <= 10)%Z).
Proof.
  apply (@semanticSearch_bounded engine "guide" 10 summaries).
  - reflexivity.
  - exact semanticSearch_engine.
Defined.

(** ** The fused results *)

Lemma fused_scores (kw sem : list SearchResult) (r : SearchResult) :
  In r (unsorted kw sem) ->
  exists e,
    r = fused_result e /\
    keywordScore e = side (id (listing r)) kw /\
    semanticScore e = side (id (listing r)) sem.
Proof.
  intros Hin. unfold unsorted in Hin.
  apply in_map_iff in Hin as [e [<- He]].
  apply in_map_iff in He as [[k e'] [Hsnd Hke]]. simpl in Hsnd. subst e'.
  destruct (scoreMap_well_keyed kw sem) as [Hnd Hk].
  assert (Hkey : k = id (entry_listing e)).
  { unfold keys_are_ids in Hk. rewrite Forall_forall in Hk.
    exact (Hk _ Hke). }
  pose proof (In_map_get k e (build_scoreMap kw sem) Hnd Hke) as Hget.
  destruct (scores_of_scoreMap k kw sem) as [Hks Hss].
  unfold kscore in Hks. unfold sscore in Hss. rewrite Hget in Hks, Hss.
  exists e. simpl. rewrite <- Hkey. auto.
Qed.

Lemma combine_In (kw sem : list SearchResult) (limit : Z) (r : SearchResult) :
  In r (combineResults kw sem limit) -> In r (unsorted kw sem).
Proof.
  unfold combineResults. intros H. apply slice0_In in H.
  apply Permutation_in with (l := sort_desc score (unsorted kw sem));
    [apply Permutation_sym, sort_desc_perm | exact H].
Qed.



(** ** Which listings are returned *)

Lemma ids_keywordSearch (this : MarketplaceSearch) (query : string) :
  ids (keywordSearch this query)
  = map id (searchByKeyword (registry this) query).
Proof.
  unfold keywordSearch, ids. generalize 0%nat.
  induction (searchByKeyword (registry this) query) as [| x l IH];
    intros n; simpl; [reflexivity | now rewrite IH].
Qed.

Section Listings.
Variable L : list PackageListing.
Local Abbreviation listed := (listed L).

Lemma put_keyword_listed (m : ScoreMap) (r : SearchResult) :
  In (listing r) L -> listed m -> listed (put_keyword m r).
Proof.
  intros Hr Hm. apply Forall_forall. intros kv Hin.
  apply map_set_In in Hin as [Hin | [Hv _]].
  - unfold listed in Hm. rewrite Forall_forall in Hm. now apply Hm.
  - now rewrite Hv.
Qed.

Lemma put_semantic_listed (m : ScoreMap) (r : SearchResult) :
  In (listing r) L -> listed m -> listed (put_semantic m r).
Proof.
  intros Hr Hm. unfold put_semantic.
  unfold listed in Hm. rewrite Forall_forall in Hm.
  destruct (map_get String.eqb (id (listing r)) m) as [e |] eqn:E;
    apply Forall_forall; intros kv Hin;
    apply map_set_In in Hin as [Hin | [Hv _]]; try (now apply Hm);
    rewrite Hv; simpl; [| exact Hr].
  apply map_get_In in E. exact (Hm _ E).
Qed.

Lemma fold_listed (f : ScoreMap -> SearchResult -> ScoreMap)
    (l : list SearchResult) (m : ScoreMap) :
  (forall m r, In (listing r) L -> listed m -> listed (f m r)) ->
  Forall (fun r => In (listing r) L) l ->
  listed m -> listed (fold_left f l m).
Proof.
  intros Hf Hl. revert m.
  induction Hl as [| r l Hr Hl IH]; intros m Hm; simpl; auto.
Qed.
End Listings.

Lemma fused_listings (kw sem : list SearchResult) (r : SearchResult) :
  In r (unsorted kw sem) ->
  In (listing r) (map listing kw) \/ In (listing r) (map listing sem).
Proof.
  intros Hin. unfold unsorted in Hin.
  apply in_map_iff in Hin as [e [<- He]].
  apply in_map_iff in He as [kv [<- Hkv]].
  apply in_app_or. rewrite <- map_app.
  assert (H : Forall (fun kv => In (entry_listing (snd kv))
                                   (map listing (kw ++ sem)))
                     (build_scoreMap kw sem)).
  { unfold build_scoreMap.
    apply fold_listed; [apply put_semantic_listed | |].
    - apply Forall_forall. intros x Hx. apply in_map.
      apply in_or_app. now right.
    - apply fold_listed; [apply put_keyword_listed | | constructor].
      apply Forall_forall. intros x Hx. apply in_map.
      apply in_or_app. now left. }
  rewrite Forall_forall in H. exact (H _ Hkv).
Qed.

Lemma unsorted_ids (kw sem : list SearchResult) :
  NoDup (ids (unsorted kw sem)) /\
  forall i, In i (ids (unsorted kw sem)) <-> In i (ids kw) \/ In i (ids sem).
Proof.
  unfold unsorted. rewrite fused_ids. split.
  - apply (proj1 (scoreMap_well_keyed kw sem)).
  - intros i. apply keys_of_scoreMap.
Qed.

(** X14.  [search] invents no listing and repeats none: every listing it
    returns was returned by the keyword query of the listing store or by
    [getPackage], and when the keyword query returns no id twice, neither
    does [search]. *)
Theorem search_no_duplicates (this : MarketplaceSearch) (query : string)
    (limit : Z) (out : list SearchResult) :
  search this query limit = Ok out ->
  (NoDup (map id (searchByKeyword (registry this) query)) ->
   NoDup (ids out)) /\
  (forall r, In r out ->
     In (listing r) (searchByKeyword (registry this) query) \/
     exists packageId, getPackage (registry this) packageId = Some (listing r)).
Proof.
  intros H.
  destruct (search_cases _ _ _ H) as [sem [Hleg [[_ ->] | [_ ->]]]].
  - split.
    + intros Hnd. unfold ids. rewrite slice0_map.
      apply slice0_NoDup. fold (ids (keywordSearch this query)).
      now rewrite ids_keywordSearch.
    + intros r Hr. left. apply slice0_In in Hr.
      apply (keyword_at_most_one this query r Hr).
  - split.
    + intros _. unfold combineResults, ids. rewrite slice0_map.
      apply slice0_NoDup.
      apply Permutation_NoDup with (l := ids (unsorted (keywordSearch this query) sem)).
      * unfold ids. apply Permutation_map, sort_desc_perm.
      * apply unsorted_ids.
    + intros r Hr. apply combine_In in Hr.
      destruct (fused_listings _ _ _ Hr) as [Hk | Hs].
      * left. apply in_map_iff in Hk as [x [<- Hx]].
        apply (keyword_at_most_one this query x Hx).
      * right. apply in_map_iff in Hs as [x [Hl Hx]].
        destruct (semantic_leg_inv _ _ _ Hleg) as [-> | Hsem];
          [destruct Hx |].
        destruct (semanticSearch_inv _ _ _ Hsem)
          as [-> | [emb [store [v [ns [_ [_ [_ [_ ->]]]]]]]]];
          [destruct Hx |].
        destruct (resolved_In _ _ _ Hx) as [n [_ [Hres _]]].
        apply resolve_Some in Hres as [pid [_ [_ Hget]]].
        exists pid. now rewrite <- Hl.
Qed.

Lemma search_no_duplicates_witness :
  (NoDup (map id (searchByKeyword (registry engine) "guide")) ->
   NoDup (ids [mkResult (sample "p1") 0.4 keyword])) /\
  (forall r, In r [mkResult (sample "p1") 0.4 keyword] ->
     In (listing r) (searchByKeyword (registry engine) "guide") \/
     exists packageId,
       getPackage (registry engine) packageId = Some (listing r)).
Proof.
  apply (@search_no_duplicates engine "guide" 10).
  exact search_engine.
Defined.

(** X15.  A fusion returns one result for each listing that the two result
    sets match, as far as the limit allows: the number of results is the
    number of matched listings or [limit], whichever is less, and when the
    limit is not less, every matched listing is among the results. *)
Theorem fusion_count (this : MarketplaceSearch) (query : string) (limit : Z)
    (sem out : list SearchResult) :
  semantic_leg this query limit = Ok sem ->
  sem <> [] ->
  (0 <= limit)%Z ->
  search this query limit = Ok out ->
  length out
  = Nat.min (Z.to_nat limit) (matched (keywordSearch this query) sem) /\
  ((matched (keywordSearch this query) sem <= Z.to_nat limit)%nat ->
   forall i, In i (ids (keywordSearch this query)) \/ In i (ids sem) ->
             In i (ids out)).
Proof.
  intros Hleg Hne Hlim H.
  destruct (search_cases _ _ _ H) as [sem' [Hleg' Hcase]].
  assert (sem' = sem) by congruence. subst sem'.
  destruct Hcase as [[-> _] | [_ ->]]; [congruence |].
  set (kw := keywordSearch this query).
  destruct (unsorted_ids kw sem) as [Hnd Hmem].
  assert (Hcount : length (sort_desc score (unsorted kw sem))
                   = matched kw sem).
  { rewrite sort_desc_length. unfold matched.
    rewrite <- (length_map (fun r => id (listing r)) (unsorted kw sem)).
    fold (ids (unsorted kw sem)).
    apply Permutation_length. apply NoDup_Permutation.
    - exact Hnd.
    - apply NoDup_nodup.
    - intros i. rewrite nodup_In, in_app_iff. apply Hmem. }
  unfold combineResults. fold kw. fold (unsorted kw sem).
  rewrite slice0_nonneg by assumption.
  split.
  - now rewrite length_firstn, Hcount.
  - intros Hall i Hi.
    rewrite firstn_all2 by lia.
    apply Permutation_in with (l := ids (unsorted kw sem)).
    + unfold ids. apply Permutation_map, sort_desc_perm.
    + now apply Hmem.
Qed.

Lemma fusion_count_witness :
  length [mkResult (sample "p1") 0.4 keyword]
  = Nat.min (Z.to_nat 10)
      (matched (keywordSearch engine "guide")
               [mkResult (sample "p1") 0 semantic]) /\
  ((matched (keywordSearch engine "guide")
            [mkResult (sample "p1") 0 semantic] <= Z.to_nat 10)%nat ->
   forall i, In i (ids (keywordSearch engine "guide")) \/
             In i (ids [mkResult (sample "p1") 0 semantic]) ->
             In i (ids [mkResult (sample "p1") 0.4 keyword])).
Proof.
  apply (@fusion_count engine "guide" 10).
  - exact semantic_leg_engine.
  - discriminate.
  - lia.
  - exact search_engine.
Defined.

End SearchMore.

(* ================================================================== *)
(** * The summary index *)
(* ================================================================== *)

Module SummaryIndexFacts.

Import VectorStore Search SummaryIndex JsFacts VectorStoreFacts
       PersistenceFacts SearchFacts Examples.
Local Open Scope R_scope.

(** ** Reading back what [save] wrote *)

Lemma integer_IZR (z : Z) : integer (IZR z) = Some z.
Proof.
  unfold integer.
  assert (H : z = Int_part (IZR z)) by (apply Int_part_spec; lra).
  rewrite <- H. destruct (Req_dec_T (IZR z) (IZR z)); congruence.
Qed.

Lemma numbers_JNum (xs : list R) : numbers (map JNum xs) = Some xs.
Proof.
  induction xs as [| x xs IH]; simpl; [reflexivity | now rewrite IH].
Qed.

Lemma entry_of_to_json (e : VectorEntry) :
  entry_of_json (entry_to_json e) = Some e.
Proof.
  destruct e as [i xs md]. unfold entry_to_json, entry_of_json. simpl.
  now rewrite numbers_JNum.
Qed.

Lemma all_some_held (es : list (string * VectorEntry)) :
  all_some (map held_entry (map held es)) = Some es.
Proof.
  induction es as [| [k e] es IH]; [reflexivity |].
  cbn [map held fst snd held_entry].
  rewrite entry_of_to_json. cbn [option_map all_some]. now rewrite IH.
Qed.

Lemma typed_as_loaded (s : LocalVectorStore) : typed (as_loaded s) = Some s.
Proof.
  destruct s as [es d]. unfold typed, as_loaded. simpl.
  now rewrite integer_IZR, all_some_held.
Qed.

Lemma exists_after_save (path : string) (s : LocalVectorStore)
    (fs : filesystem) :
  existsSync (save path s fs) path = true.
Proof.
  unfold existsSync, save, writeFileSync. now rewrite String.eqb_refl.
Qed.

(** ** Engines that only load the index *)

(** X16.  [loadSummaryIndex] gives an engine an index and never an embedder.
    An engine without embedder therefore has none after the call either, with
    the listing store it had, and whatever index it then holds, that of a
    file or any other, its [search] returns the keyword results cut by
    [slice(0, limit)]: this is the engine of the callers that build it, load
    the index and search. *)
Theorem load_only_engine_is_keyword_only (env : Installation)
    (fs : filesystem) (this : MarketplaceSearch)
    (query : string) (limit : Z) :
  embedder this = None ->
  (forall store,
     search (with_store this store) query limit
     = Ok (slice0 (keywordSearch this query) limit)) /\
  (forall outcome this',
     loadSummaryIndex env fs this = Some (outcome, this') ->
     (exists store, this' = with_store this store) /\
     embedder this' = None /\
     registry this' = registry this /\
     search this' query limit
     = Ok (slice0 (keywordSearch this query) limit)).
Proof.
  intros He.
  assert (Hany : forall store,
            search (with_store this store) query limit
            = Ok (slice0 (keywordSearch this query) limit)).
  { intros store. unfold search, semantic_leg.
    cbn [with_store embedder]. rewrite He. reflexivity. }
  split; [exact Hany |].
  intros outcome this' Hload.
  assert (Hshape : exists store, this' = with_store this store).
  { assert (Hsame : this = with_store this (summaryStore this))
      by now destruct this.
    unfold loadSummaryIndex in Hload.
    destruct (existsSync fs (getSummaryIndexPath env)).
    - destruct (load (getSummaryIndexPath env) fs) as [l | e].
      + destruct (typed l) as [store |]; [| discriminate].
        injection Hload as _ <-. now exists (Some store).
      + injection Hload as _ <-. now exists (summaryStore this).
    - injection Hload as _ <-. now exists (summaryStore this). }
  destruct Hshape as [store ->].
  split; [now exists store |].
  split; [exact He |]. split; [reflexivity |]. apply Hany.
Qed.

Lemma summaries_keyed : keyed summaries.
Proof. unfold keyed. simpl. repeat constructor. Qed.

Lemma summaries_unique_ids : unique_ids summaries.
Proof.
  unfold unique_ids. simpl.
  repeat constructor; simpl; intuition discriminate.
Qed.

(** An engine over the listing store [single] that loads the file of the
    index [summaries], which has an entry for the listing [p1], and has no
    embedder: it holds that index, and answers with the keyword results. *)
Lemma load_only_engine_is_keyword_only_witness :
  loadSummaryIndex install
    (save (getSummaryIndexPath install) summaries blank) (Search.new single)
  = Some (Ok tt, with_store (Search.new single) (Some summaries)) /\
  embedder (with_store (Search.new single) (Some summaries)) = None /\
  search (with_store (Search.new single) (Some summaries)) "guide" 10
  = Ok (slice0 (keywordSearch (Search.new single) "guide") 10) /\
  keywordSearch (Search.new single) "guide"
  = [mkResult (sample "p1") (1.0 - INR 0 * 0.05) keyword].
Proof.
  assert (Hload : loadSummaryIndex install
                    (save (getSummaryIndexPath install) summaries blank)
                    (Search.new single)
                  = Some (Ok tt,
                          with_store (Search.new single) (Some summaries))).
  { unfold loadSummaryIndex.
    rewrite exists_after_save.
    rewrite (@load_save _ _ _ summaries_keyed summaries_unique_ids).
    now rewrite typed_as_loaded. }
  destruct (@load_only_engine_is_keyword_only install
              (save (getSummaryIndexPath install) summaries blank)
              (Search.new single) "guide" 10 eq_refl) as [_ Hafter].
  destruct (Hafter _ _ Hload) as [_ [He [_ Hsearch]]].
  split; [exact Hload |]. split; [exact He |]. split; [exact Hsearch |].
  reflexivity.
Defined.

(** ** What [load] holds *)

Lemma same_value_zero_sym (a b : option json) :
  same_value_zero a b = same_value_zero b a.
Proof.
  destruct a as [[| x | x | x | x | x] |], b as [[| y | y | y | y | y] |];
    simpl; try reflexivity.
  - now destruct x, y.
  - destruct (Req_dec_T x y), (Req_dec_T y x); congruence.
  - apply String.eqb_sym.
Qed.

Lemma same_value_zero_eq (a b : option json) :
  same_value_zero a b = true -> a = b.
Proof.
  destruct a as [[| x | x | x | x | x] |], b as [[| y | y | y | y | y] |];
    simpl; try discriminate; try reflexivity.
  - intros H. apply Bool.eqb_prop in H. now subst.
  - destruct (Req_dec_T x y); [now subst | discriminate].
  - intros H. apply String.eqb_eq in H. now subst.
Qed.

Lemma keys_after_set (k : option json) (v : json)
    (m : list (option json * json)) (x : option json) :
  In x (map_keys (map_set same_value_zero k v m)) ->
  In x (map_keys m) \/ x = k.
Proof.
  induction m as [| [k' v'] m IH]; simpl.
  - intros [<- | []]. now right.
  - destruct (same_value_zero k k'); simpl.
    + intros H. now left.
    + intros [<- | H]; [now left; left |].
      destruct (IH H) as [H' | ->]; [left; now right | now right].
Qed.

Lemma set_well_held (k : option json) (v : json)
    (m : list (option json * json)) :
  prop "id" v = Ok k -> well_held m ->
  well_held (map_set same_value_zero k v m).
Proof.
  intros Hp. induction m as [| [k' v'] m IH]; intros [HF HO].
  - split; simpl.
    + constructor; [exact Hp | constructor].
    + constructor; constructor.
  - simpl. destruct (same_value_zero k k') eqn:E.
    + apply same_value_zero_eq in E. subst k'.
      split; [| exact HO].
      inversion HF; subst. constructor; [exact Hp | assumption].
    + inversion HF as [| ? ? Hkv HF']; subst.
      unfold map_keys in HO. simpl in HO.
      inversion HO as [| ? ? Hall HO']; subst.
      destruct IH as [IF IO]; [split; assumption |].
      split; [constructor; assumption |].
      unfold map_keys. simpl. constructor; [| exact IO].
      rewrite Forall_forall. intros x Hx.
      apply keys_after_set in Hx as [Hx | ->].
      * rewrite Forall_forall in Hall. now apply Hall.
      * now rewrite same_value_zero_sym.
Qed.

Lemma load_entries_well_held (items : list json) :
  forall m m', well_held m -> load_entries items m = Ok m' -> well_held m'.
Proof.
  induction items as [| entry rest IH]; simpl; intros m m' Hm H.
  - now injection H as <-.
  - destruct (prop "id" entry) as [k | e] eqn:E; simpl in H; [| discriminate].
    apply (IH _ _ (@set_well_held k entry m E Hm) H).
Qed.

Lemma load_well_held (path : string) (fs : filesystem) (l : LoadedStore) :
  load path fs = Ok l -> well_held (loaded_entries l).
Proof.
  unfold load. intros H.
  destruct (readFileSync fs path) as [raw |]; simpl in H; [| discriminate].
  destruct (JSON_parse raw) as [data |]; simpl in H; [| discriminate].
  destruct (prop "dimensions" data) as [dims |]; simpl in H; [| discriminate].
  destruct (prop "entries" data) as [ents |]; simpl in H; [| discriminate].
  destruct (iterate ents) as [items |]; simpl in H; [| discriminate].
  destruct (load_entries items []) as [m |] eqn:E; simpl in H;
    [| discriminate].
  injection H as <-. simpl.
  apply (@load_entries_well_held items [] m); [| exact E].
  split; constructor.
Qed.

Lemma entry_of_json_id (v : json) (e : VectorEntry) :
  entry_of_json v = Some e -> prop "id" v = Ok (Some (JStr (VectorStore.id e))).
Proof.
  destruct v as [| | | | | fields]; try discriminate.
  destruct fields as [| [k1 [| | | i | |]] fields]; try discriminate.
  destruct fields as [| [k2 [| | | | xs |]] fields]; try discriminate.
  destruct fields as [| [k3 [| | | | | md]] fields]; try discriminate.
  destruct fields; try discriminate.
  cbn [entry_of_json].
  destruct (String.eqb k1 "id") eqn:E1; [| discriminate].
  apply String.eqb_eq in E1. subst k1.
  destruct (String.eqb k2 "embedding"); [| discriminate].
  destruct (String.eqb k3 "metadata"); [| discriminate].
  cbn [andb]. destruct (numbers xs); [| discriminate].
  intros H. injection H as <-. reflexivity.
Qed.

Lemma typed_entries (m : list (option json * json)) :
  forall es, well_held m -> all_some (map held_entry m) = Some es ->
  Forall (fun kv => fst kv = VectorStore.id (snd kv)) es /\ NoDup (map_keys es) /\
  map_keys m = map (fun k => Some (JStr k)) (map_keys es).
Proof.
  induction m as [| [k v] m IH]; intros es [HF HO] H.
  - injection H as <-. repeat split; constructor.
  - cbn [map all_some] in H.
    destruct (held_entry (k, v)) as [[i e] |] eqn:Eh; [| discriminate].
    destruct (all_some (map held_entry m)) as [es' |] eqn:Ea;
      [| discriminate].
    injection H as <-.
    inversion HF as [| ? ? Hkv HF']; subst.
    unfold map_keys in HO. cbn [map fst] in HO.
    inversion HO as [| ? ? Hall HO']; subst.
    destruct (IH es' (conj HF' HO') eq_refl) as [Hk [Hn Hm]].
    unfold held_entry in Eh.
    destruct k as [[| | | k | |] |]; try discriminate.
    destruct (entry_of_json v) as [e' |] eqn:Ev; [| discriminate].
    injection Eh as <- <-.
    cbn [snd fst] in Hkv. rewrite (@entry_of_json_id v e' Ev) in Hkv.
    injection Hkv as Hid.
    split; [constructor; [now cbn | exact Hk] |].
    split.
    + unfold map_keys. cbn [map fst]. constructor; [| exact Hn].
      intros Hin. rewrite Forall_forall in Hall.
      unfold map_keys in Hm.
      assert (Hc : same_value_zero (Some (JStr k)) (Some (JStr k)) = false)
        by (apply Hall; rewrite Hm;
            apply (in_map (fun k0 : string => Some (JStr k0)) _ _ Hin)).
      cbn in Hc. now rewrite String.eqb_refl in Hc.
    + unfold map_keys in *. cbn [map fst]. now rewrite Hm.
Qed.

Lemma typed_loaded_ok (path : string) (fs : filesystem) (l : LoadedStore)
    (s : LocalVectorStore) :
  load path fs = Ok l -> typed l = Some s -> keyed s /\ unique_ids s.
Proof.
  intros Hl Ht. apply load_well_held in Hl.
  unfold typed in Ht.
  destruct (loaded_dimensions l) as [| | x | | |]; try discriminate.
  destruct (integer x) as [d |]; [| discriminate].
  destruct (all_some (map held_entry (loaded_entries l))) as [es |] eqn:Ea;
    [| discriminate].
  injection Ht as <-.
  destruct (@typed_entries (loaded_entries l) es Hl Ea) as [Hk [Hn _]].
  now split.
Qed.

Lemma set_keeps_ok (i : string) (e : VectorEntry) (s : LocalVectorStore) :
  VectorStore.id e = i -> keyed s -> unique_ids s ->
  keyed {| entries := map_set String.eqb i e (entries s);
           dimensions := dimensions s |} /\
  unique_ids {| entries := map_set String.eqb i e (entries s);
                dimensions := dimensions s |}.
Proof.
  intros Hi Hk Hu. unfold keyed, unique_ids in *. simpl. split.
  - apply Forall_forall. intros kv Hin.
    apply map_set_In in Hin as [Hin | [Hv Hkey]].
    + rewrite Forall_forall in Hk. now apply Hk.
    + now rewrite Hv, Hkey.
  - now apply map_set_NoDup.
Qed.

(** ** indexPackageSummary, step by step *)

Lemma ensure_store_inv (env : Installation) (fs : filesystem)
    (emb : GeminiEmbedder) (this this' : MarketplaceSearch)
    (store : LocalVectorStore) :
  ensure_store env fs emb this = Some (Ok store, this') ->
  origin env fs emb this store /\ this' = with_store this (Some store).
Proof.
  unfold ensure_store, origin.
  destruct (summaryStore this) as [st |] eqn:Es.
  - intros H. injection H as <- <-. split; [now left |].
    destruct this; simpl in *. now subst.
  - destruct (existsSync fs (getSummaryIndexPath env)) eqn:Ex.
    + destruct (load (getSummaryIndexPath env) fs) as [l | e] eqn:El.
      * destruct (typed l) as [st |] eqn:Et; [| discriminate].
        intros H. injection H as <- <-. split; [| reflexivity].
        right. split; [reflexivity |]. right. now exists l.
      * discriminate.
    + intros H. injection H as <- <-. split; [| reflexivity].
      right. split; [reflexivity |]. now left.
Qed.

Lemma index_inv (env : Installation) (packageId summaryText : string)
    (this this' : MarketplaceSearch) (fs fs' : filesystem) :
  indexPackageSummary env packageId summaryText this fs
  = Some (Ok tt, this', fs') ->
  exists emb store embedding,
    (embedder this = Some emb \/
     embedder this = None /\ newGeminiEmbedder env = Ok emb) /\
    origin env fs emb this store /\
    embedOne emb summaryText = Ok embedding /\
    Z.of_nat (length embedding) = dimensions store /\
    let store' :=
      {| entries := map_set String.eqb packageId
                      (mkEntry packageId embedding
                               (summary_metadata packageId))
                      (entries store);
         dimensions := dimensions store |} in
    this' = {| registry := registry this;
               summaryStore := Some store';
               embedder := Some emb |} /\
    fs' = save (getSummaryIndexPath env) store' fs.
Proof.
  unfold indexPackageSummary. intros H.
  set (made := match embedder this with
               | Some emb => Ok emb
               | None => newGeminiEmbedder env
               end) in H.
  assert (Hmade : forall emb, made = Ok emb ->
            embedder this = Some emb \/
            embedder this = None /\ newGeminiEmbedder env = Ok emb).
  { unfold made. destruct (embedder this) as [emb0 |].
    - intros emb [= <-]. now left.
    - intros emb Hn. now right. }
  destruct made as [emb | e]; [| discriminate].
  specialize (Hmade emb eq_refl).
  destruct (ensure_store env fs emb (with_embedder this emb))
    as [[[store | e] this1] |] eqn:Een; try discriminate.
  apply ensure_store_inv in Een as [Ho ->].
  destruct (embedOne emb summaryText) as [embedding | e] eqn:Eemb;
    [| discriminate].
  destruct (add packageId embedding (summary_metadata packageId) store)
    as [[[] | e] store'] eqn:Eadd; [| discriminate].
  apply add_inv in Eadd as [Hlen ->].
  injection H as <- <-.
  exists emb, store, embedding.
  split; [exact Hmade |]. split; [exact Ho |].
  split; [exact Eemb |]. split; [exact Hlen |].
  split; reflexivity.
Qed.

Lemma origin_ok (env : Installation) (fs : filesystem)
    (emb : GeminiEmbedder) (this : MarketplaceSearch)
    (store : LocalVectorStore) :
  store_ok this -> origin env fs emb this store ->
  keyed store /\ unique_ids store.
Proof.
  unfold store_ok. intros Hok [Hs | [Hs [[_ ->] | [l [Hl Ht]]]]].
  - now rewrite Hs in Hok.
  - split; constructor.
  - exact (@typed_loaded_ok _ _ _ _ Hl Ht).
Qed.

Lemma ensure_store_keeps (env : Installation) (fs : filesystem)
    (emb : GeminiEmbedder) (this this' : MarketplaceSearch)
    (outcome : result LocalVectorStore) :
  ensure_store env fs emb this = Some (outcome, this') ->
  registry this' = registry this /\
  forall st, summaryStore this = Some st ->
             summaryStore this' = Some st /\ outcome = Ok st.
Proof.
  unfold ensure_store.
  destruct (summaryStore this) as [st0 |] eqn:Es.
  - intros H. injection H as <- <-. split; [reflexivity |].
    intros st [= <-]. now split.
  - destruct (existsSync fs (getSummaryIndexPath env)).
    + destruct (load (getSummaryIndexPath env) fs) as [l | e].
      * destruct (typed l); [| discriminate].
        intros H. injection H as <- <-. split; [reflexivity | discriminate].
      * intros H. injection H as <- <-. split; [reflexivity | discriminate].
    + intros H. injection H as <- <-. split; [reflexivity | discriminate].
Qed.

(** X17.  What a successful [indexPackageSummary] leaves behind.  The engine
    has an embedder, which embedded the summary to some vector; its index
    holds under the package id the entry with that vector and the metadata
    [{ packageId }], the vector has the length of the index, the listing store
    is the one the engine had, and the file system is the one in which the
    index has been saved at the path of the summary index. *)
Theorem indexPackageSummary_effect (env : Installation)
    (packageId summaryText : string)
    (this this' : MarketplaceSearch) (fs fs' : filesystem) :
  indexPackageSummary env packageId summaryText this fs
  = Some (Ok tt, this', fs') ->
  exists emb embedding store',
    embedder this' = Some emb /\
    embedOne emb summaryText = Ok embedding /\
    summaryStore this' = Some store' /\
    get packageId store'
    = Some (mkEntry packageId embedding (summary_metadata packageId)) /\
    Z.of_nat (length embedding) = dimensions store' /\
    registry this' = registry this /\
    fs' = save (getSummaryIndexPath env) store' fs.
Proof.
  intros H.
  apply index_inv in H
    as [emb [store [embedding [_ [_ [Hemb [Hlen [-> ->]]]]]]]].
  eexists emb, embedding, _. simpl.
  split; [reflexivity |]. split; [exact Hemb |]. split; [reflexivity |].
  split; [| split; [exact Hlen | split; reflexivity]].
  unfold get. simpl. apply map_get_set_same.
Qed.

Lemma indexPackageSummary_effect_witness :
  exists emb embedding store',
    embedder indexed = Some emb /\
    embedOne emb "Field notes" = Ok embedding /\
    summaryStore indexed = Some store' /\
    get "p1" store'
    = Some (mkEntry "p1" embedding (summary_metadata "p1")) /\
    Z.of_nat (length embedding) = dimensions store' /\
    registry indexed = registry (Search.new single) /\
    save (getSummaryIndexPath install) first_index blank
    = save (getSummaryIndexPath install) store' blank.
Proof.
  apply (@indexPackageSummary_effect install "p1" "Field notes"
           (Search.new single) indexed blank
           (save (getSummaryIndexPath install) first_index blank)).
  reflexivity.
Defined.

(** X18.  An [indexPackageSummary] that fails, in making the embedder, in
    loading the index, in embedding the text or in [add], writes nothing: the
    file system is the one before the call.  The listing store of the engine
    is unchanged, and so is an index the engine already held. *)
Theorem indexPackageSummary_failure (env : Installation)
    (packageId summaryText : string)
    (this this' : MarketplaceSearch) (fs fs' : filesystem) (e : error) :
  indexPackageSummary env packageId summaryText this fs
  = Some (Err e, this', fs') ->
  fs' = fs /\
  registry this' = registry this /\
  forall store, summaryStore this = Some store ->
                summaryStore this' = Some store.
Proof.
  unfold indexPackageSummary. intros H.
  destruct (match embedder this with
            | Some emb => Ok emb
            | None => newGeminiEmbedder env
            end) as [emb | e0].
  - destruct (ensure_store env fs emb (with_embedder this emb))
      as [[outcome this1] |] eqn:Een; [| discriminate].
    apply ensure_store_keeps in Een as [Hreg Hst]. simpl in Hreg, Hst.
    assert (Hthis1 : fs' = fs /\ this' = this1).
    { destruct outcome as [store | e1].
      - destruct (embedOne emb summaryText) as [embedding | e1].
        + destruct (add packageId embedding (summary_metadata packageId)
                        store) as [[[] | e1] store']; [discriminate |].
          injection H as _ <- <-. now split.
        + injection H as _ <- <-. now split.
      - injection H as _ <- <-. now split. }
    destruct Hthis1 as [-> ->].
    split; [reflexivity |]. split; [exact Hreg |].
    intros store Hs. now apply Hst.
  - injection H as _ <- <-. repeat split. auto.
Qed.

Lemma indexPackageSummary_failure_witness :
  blank = blank /\
  registry mismatched = registry mismatched /\
  forall store, summaryStore mismatched = Some store ->
                summaryStore mismatched = Some store.
Proof.
  apply (@indexPackageSummary_failure install "p2" "Field notes"
           mismatched mismatched blank blank
           (DimensionMismatch InAdd 2 3)).
  reflexivity.
Defined.



Lemma slice0_whole (A : Type) (l : list A) (n : Z) :
  (Z.of_nat (length l) <= n)%Z -> slice0 l n = l.
Proof.
  intros H. rewrite slice0_nonneg by lia. apply firstn_all2. lia.
Qed.

Lemma resolved_neighbors_In (reg : MarketplaceRegistry)
    (ns : list VectorStore.SearchResult) (n : VectorStore.SearchResult)
    (l : PackageListing) :
  In n ns -> resolve reg n = Some l ->
  In {| listing := l; score := VectorStore.score n; matchType := semantic |}
     (resolved_neighbors reg ns).
Proof.
  intros Hin Hr. unfold resolved_neighbors. apply in_flat_map.
  exists n. split; [exact Hin |]. rewrite Hr. now left.
Qed.

(** X20.  A package whose summary has been indexed is within reach of every
    semantic search over that index.  Take the index after a successful
    [indexPackageSummary], and an engine that holds it, with the same listing
    store and with any embedder.  If every entry of the index has the length
    of the index, the limit is not below the size of the index, the package id
    is not empty, the listing store knows the package, and the embedder, at
    the time of the search, embeds the query to a vector of the length of the
    index, then [semanticSearch] returns the listing of the package as a
    semantic result, scored with the similarity of that vector to the stored
    embedding of the summary. *)
Theorem indexed_summary_is_found (env : Installation)
    (packageId summaryText : string)
    (this this' : MarketplaceSearch) (fs fs' : filesystem)
    (store' : LocalVectorStore) (l : PackageListing) (limit : Z)
    (now : MarketplaceSearch) (emb : GeminiEmbedder)
    (query : string) (queryEmbedding : list R) :
  indexPackageSummary env packageId summaryText this fs
  = Some (Ok tt, this', fs') ->
  summaryStore this' = Some store' ->
  uniform store' ->
  (Z.of_nat (VectorStore.size store') <= limit)%Z ->
  packageId <> ""%string ->
  getPackage (registry this) (JStr packageId) = Some l ->
  registry now = registry this' ->
  summaryStore now = Some store' ->
  embedder now = Some emb ->
  embedOne emb query = Ok queryEmbedding ->
  Z.of_nat (length queryEmbedding) = dimensions store' ->
  exists embedding out r,
    get packageId store'
    = Some (mkEntry packageId embedding (summary_metadata packageId)) /\
    semanticSearch now query limit = Ok out /\
    In r out /\
    listing r = l /\ matchType r = semantic /\
    cosineSimilarity queryEmbedding embedding = Ok (score r).
Proof.
  intros H Hs Hu Hlim Hne Hget Hreg Hnow Hemb Hq Hlen.
  apply index_inv in H
    as [emb0 [store [embedding [_ [_ [_ [_ [-> _]]]]]]]].
  cbn [summaryStore] in Hs. injection Hs as <-.
  cbn [registry] in Hreg.
  set (entry := mkEntry packageId embedding (summary_metadata packageId))
    in *.
  set (store' := {| entries := map_set String.eqb packageId entry
                                 (entries store);
                    dimensions := dimensions store |}) in *.
  destruct (@query_ok queryEmbedding limit store' Hu Hlen)
    as [scored [HF Hquery]].
  assert (Hsize : length scored = VectorStore.size store').
  { rewrite <- (Forall2_length HF). unfold VectorStore.size, map_values.
    apply length_map. }
  rewrite slice0_whole in Hquery
    by (rewrite sort_desc_length, Hsize; exact Hlim).
  assert (Hstored : get packageId store' = Some entry).
  { unfold get, store'. cbn [entries]. apply map_get_set_same. }
  assert (Hin : In entry (map_values (entries store'))).
  { unfold map_values. apply (in_map snd _ (packageId, entry)).
    apply map_get_In. exact Hstored. }
  destruct (@VectorStoreMore.Forall2_In_l _ _ (scored_as queryEmbedding)
              _ _ entry HF Hin) as [n [Hn [_ [Hmd Hcos]]]].
  exists embedding,
    (resolved_neighbors (registry this)
       (sort_desc VectorStore.score scored)),
    {| listing := l; score := VectorStore.score n; matchType := semantic |}.
  split; [exact Hstored |]. split.
  { unfold semanticSearch. rewrite Hemb, Hnow, Hq. cbn [bind].
    rewrite Hquery. cbn [bind]. rewrite Hreg.
    now rewrite resolve_neighbors_acc. }
  split; [| repeat split; exact Hcos].
  apply resolved_neighbors_In.
  - apply (Permutation_in _ (sort_desc_perm VectorStore.score scored) Hn).
  - unfold resolve. rewrite Hmd. cbn.
    destruct (String.eqb_spec packageId ""); [contradiction |].
    exact Hget.
Qed.

(** The index of [indexed], searched by an engine whose embedder answers
    with another vector than the one the summary was indexed with. *)
Lemma indexed_summary_is_found_witness :
  exists embedding out r,
    get "p1" first_index
    = Some (mkEntry "p1" embedding (summary_metadata "p1")) /\
    semanticSearch later "guide" 10 = Ok out /\
    In r out /\
    listing r = sample "p1" /\ matchType r = semantic /\
    cosineSimilarity [0; 1] embedding = Ok (score r).
Proof.
  apply (@indexed_summary_is_found install "p1" "Field notes"
           (Search.new single) indexed blank
           (save (getSummaryIndexPath install) first_index blank)
           first_index (sample "p1") 10 later
           {| embedOne := fun _ => Ok [0; 1]; getDimensions := 2 |}
           "guide" [0; 1]).
  - reflexivity.
  - reflexivity.
  - repeat constructor.
  - unfold VectorStore.size. simpl. lia.
  - discriminate.
  - reflexivity.
  - reflexivity.
  - reflexivity.
  - reflexivity.
  - reflexivity.
  - reflexivity.
Defined.

(** X21.  Indexing into the index that the engine holds is an update in
    place: after a successful [indexPackageSummary] every other id of the
    index reads as before, the dimensionality is kept, and the size has grown
    by one exactly when the package had no summary in the index. *)
Theorem indexPackageSummary_upsert (env : Installation)
    (packageId summaryText : string)
    (this this' : MarketplaceSearch) (fs fs' : filesystem)
    (store store' : LocalVectorStore) :
  summaryStore this = Some store ->
  indexPackageSummary env packageId summaryText this fs
  = Some (Ok tt, this', fs') ->
  summaryStore this' = Some store' ->
  (forall j, j <> packageId -> get j store' = get j store) /\
  dimensions store' = dimensions store /\
  VectorStore.size store'
  = (if has packageId store
     then VectorStore.size store
     else S (VectorStore.size store)).
Proof.
  intros Hs H Hs'.
  apply index_inv in H
    as [emb [st [embedding [_ [Ho [_ [_ [-> _]]]]]]]].
  assert (st = store).
  { destruct Ho as [Ho | [Ho _]]; congruence. }
  subst st. cbn [summaryStore] in Hs'. injection Hs' as <-.
  split; [| split; [reflexivity |]].
  - intros j Hj. unfold get. cbn [entries].
    now apply map_get_set_other.
  - unfold VectorStore.size, has. cbn [entries].
    apply VectorStoreMore.map_set_length.
Qed.

Lemma indexPackageSummary_upsert_witness :
  (forall j, j <> "p1"%string -> get j first_index = get j first_index) /\
  dimensions first_index = dimensions first_index /\
  VectorStore.size first_index
  = (if has "p1" first_index
     then VectorStore.size first_index
     else S (VectorStore.size first_index)).
Proof.
  apply (@indexPackageSummary_upsert install "p1" "Field notes"
           indexed indexed blank
           (save (getSummaryIndexPath install) first_index blank)
           first_index first_index).
  - reflexivity.
  - reflexivity.
  - reflexivity.
Defined.

End SummaryIndexFacts.

(* ================================================================== *)
(** * What a round trip through a file keeps *)
(* ================================================================== *)

Module PersistenceClaims.

Import VectorStore SummaryIndex Persistence JsFacts PersistenceFacts
       SummaryIndexFacts Examples.
Local Open Scope R_scope.

(** ** States without loss *)

Lemma lossless_entry (e : IndexEntry) :
  forallb is_finite (entry_embedding e) = true ->
  forallb (fun p => is_defined (snd p)) (entry_metadata e) = true ->
  state_of_entry (entry_of_state e) = e.
Proof.
  destruct e as [i emb md]. unfold state_of_entry, entry_of_state.
  cbn [VectorStore.id embedding metadata entry_id entry_embedding
       entry_metadata].
  intros Hemb Hmd. f_equal.
  - clear Hmd. induction emb as [| n emb IH]; [reflexivity |].
    cbn [forallb] in Hemb. apply andb_prop in Hemb as [Hn Hrest].
    cbn [map]. rewrite (IH Hrest). now destruct n.
  - clear Hemb. induction md as [| [k v] md IH]; [reflexivity |].
    cbn [forallb snd] in Hmd. apply andb_prop in Hmd as [Hv Hrest].
    cbn [map fst snd]. rewrite (IH Hrest). now destruct v.
Qed.

Lemma lossless_state (s : IndexState) :
  lossless s = true -> state_of (index_of_state s) = s.
Proof.
  destruct s as [es d]. unfold lossless, state_of, index_of_state.
  cbn [state_entries state_dimensions entries dimensions].
  intros H. f_equal.
  induction es as [| [k e] es IH]; [reflexivity |].
  cbn [forallb snd] in H. apply andb_prop in H as [He Hrest].
  apply andb_prop in He as [Hemb Hmd].
  cbn [map fst snd]. rewrite (IH Hrest), (lossless_entry e Hemb Hmd).
  reflexivity.
Qed.

Lemma properties_values (md : Metadata) :
  properties (map (fun kv => (fst kv, Value (snd kv))) md) = md.
Proof.
  unfold properties.
  induction md as [| [k v] md IH]; [reflexivity |].
  cbn [map flat_map fst snd app]. now rewrite IH.
Qed.

Lemma json_of_state_entry (e : VectorEntry) :
  index_entry_to_json (state_of_entry e) = entry_to_json e.
Proof.
  unfold index_entry_to_json, state_of_entry, entry_to_json.
  cbn [entry_id entry_embedding entry_metadata].
  now rewrite map_map, properties_values.
Qed.

(** On the states of [LocalVectorStore] this is the [save] of that module. *)
Lemma save_state_of (path : string) (s : LocalVectorStore)
    (fs : filesystem) :
  Persistence.save path (state_of s) fs = VectorStore.save path s fs.
Proof.
  unfold Persistence.save, VectorStore.save, state_of, data_to_json,
         map_values.
  cbn [state_entries state_dimensions stored_entries stored_dimensions].
  rewrite !map_map. cbn [snd].
  assert (Hmap : map (fun x : string * VectorEntry =>
                        index_entry_to_json (state_of_entry (snd x)))
                     (entries s)
                 = map (fun x : string * VectorEntry => entry_to_json (snd x))
                       (entries s)).
  { apply map_ext. intros [k e]. apply json_of_state_entry. }
  now rewrite Hmap.
Qed.

Lemma map_injective (A B : Type) (f : A -> B) :
  (forall x y, f x = f y -> x = y) ->
  forall l1 l2, map f l1 = map f l2 -> l1 = l2.
Proof.
  intros Hf. induction l1 as [| x l1 IH]; intros [| y l2] H;
    try discriminate; [reflexivity |].
  cbn [map] in H. injection H as Hxy H.
  f_equal; [now apply Hf | now apply IH].
Qed.

Lemma state_of_entry_inj (e1 e2 : VectorEntry) :
  state_of_entry e1 = state_of_entry e2 -> e1 = e2.
Proof.
  destruct e1 as [i1 x1 m1], e2 as [i2 x2 m2].
  unfold state_of_entry.
  cbn [VectorStore.id embedding metadata]. intros H.
  injection H as Hi Hx Hm.
  f_equal; [exact Hi | |].
  - apply (map_injective Finite); [| exact Hx].
    intros x y Hxy. now injection Hxy.
  - apply (map_injective (fun kv : string * json =>
                            (fst kv, Value (snd kv)))); [| exact Hm].
    intros [k v] [k' v'] Hkv. cbn [fst snd] in Hkv.
    now injection Hkv as -> ->.
Qed.

Lemma state_of_inj (s1 s2 : LocalVectorStore) :
  state_of s1 = state_of s2 -> s1 = s2.
Proof.
  destruct s1 as [es1 d1], s2 as [es2 d2]. unfold state_of.
  cbn [entries dimensions].
  intros H. injection H as Hes ->. f_equal.
  apply (map_injective (fun kv : string * VectorEntry =>
                          (fst kv, state_of_entry (snd kv))));
    [| exact Hes].
  intros [k e] [k' e'] Hkv. cbn [fst snd] in Hkv.
  pose proof (f_equal fst Hkv) as Hk. pose proof (f_equal snd Hkv) as He.
  cbn [fst snd] in Hk, He. apply state_of_entry_inj in He. now subst.
Qed.

Lemma keyed_of_state (s : IndexState) :
  state_keyed s -> keyed (index_of_state s).
Proof.
  unfold state_keyed, keyed, index_of_state. cbn [entries].
  intros H. apply Forall_map. eapply Forall_impl; [| exact H].
  intros [k e] Hk. exact Hk.
Qed.

Lemma unique_of_state (s : IndexState) :
  state_unique s -> unique_ids (index_of_state s).
Proof.
  unfold state_unique, unique_ids, index_of_state, map_keys.
  cbn [entries]. now rewrite map_map.
Qed.

(** C6, as the code has it.  For an index state that holds only finite
    numbers and no [undefined], saving it to a path and loading that path
    succeeds, and the index that [load] returns is the saved one: it has the
    entries (ids, embeddings, metadata, in order), the size and the
    dimensions of the saved state, and it answers every query as the saved
    index does. *)
Theorem save_load_roundtrip (path : string) (st : IndexState)
    (fs : filesystem) :
  lossless st = true -> state_keyed st -> state_unique st ->
  exists l s,
    load path (Persistence.save path st fs) = Ok l /\
    typed l = Some s /\
    state_of s = st /\
    size s = length (state_entries st) /\
    dimensions s = state_dimensions st /\
    forall original, state_of original = st ->
      entries s = entries original /\
      forall q k, query q k s = query q k original.
Proof.
  intros Hl Hk Hu.
  pose proof (lossless_state st Hl) as Hst.
  set (s := index_of_state st) in *.
  exists (as_loaded s), s.
  split.
  { rewrite <- Hst, save_state_of.
    apply load_save; [now apply keyed_of_state | now apply unique_of_state]. }
  split; [apply typed_as_loaded |].
  split; [exact Hst |].
  split; [unfold size, s, index_of_state; cbn [entries]; apply length_map |].
  split; [reflexivity |].
  intros original Ho. rewrite <- Hst in Ho. apply state_of_inj in Ho.
  subst original. now split.
Qed.

(** The index of the three axes and the diagonal, saved and loaded: the
    index that is read back has its four entries and three dimensions, and
    ranks [x] and [xy] first for the query [[1; 0.1; 0]]. *)
Lemma save_load_roundtrip_witness :
  exists l s cx cxy,
    load "vectors.json"
         (Persistence.save "vectors.json" (state_of axes) blank) = Ok l /\
    typed l = Some s /\
    state_of s = state_of axes /\
    size s = 4%nat /\
    dimensions s = 3%Z /\
    entries s = entries axes /\
    query [1; 0.1; 0] 2 s
    = Ok [mkResult "x" cx []; mkResult "xy" cxy []].
Proof.
  destruct (@save_load_roundtrip "vectors.json" (state_of axes) blank)
    as [l [s [Hload [Htyped [Hstate [Hsize [Hdim Hsame]]]]]]].
  - reflexivity.
  - unfold state_keyed. simpl. repeat constructor.
  - unfold state_unique. simpl.
    repeat constructor; simpl; intuition discriminate.
  - destruct (Hsame axes eq_refl) as [Hentries Hquery].
    destruct Scenario.nearest_two as [cx [cxy [Hq _]]].
    exists l, s, cx, cxy.
    split; [exact Hload |]. split; [exact Htyped |].
    split; [exact Hstate |]. split; [exact Hsize |].
    split; [exact Hdim |]. split; [exact Hentries |].
    rewrite Hquery. exact Hq.
Defined.

(** C6, as stated, fails.  An index of one dimension whose entry has the
    embedding [[NaN]] and one whose entry has [[Infinity]] are saved as the
    same file, in which the embedding is [[null]]: what [load] returns for it
    is not an index of numbers, and it cannot have the entries of both.  In
    the same way a metadata property whose value is [undefined] is not
    written, and is lost. *)
Lemma save_loses_values :
  with_nan <> with_infinity /\
  Persistence.save "vectors.json" with_nan blank
  = Persistence.save "vectors.json" with_infinity blank /\
  load "vectors.json" (Persistence.save "vectors.json" with_nan blank)
  = Ok {| loaded_entries :=
            [(Some (JStr "a"),
              JObj [("id"%string, JStr "a");
                    ("embedding"%string, JArr [JNull]);
                    ("metadata"%string, JObj [])])];
          loaded_dimensions := JNum 1 |} /\
  (forall l s,
     load "vectors.json" (Persistence.save "vectors.json" with_nan blank)
     = Ok l ->
     typed l <> Some s) /\
  with_undefined <> without_note /\
  Persistence.save "vectors.json" with_undefined blank
  = Persistence.save "vectors.json" without_note blank.
Proof.
  split; [discriminate |]. split; [reflexivity |]. split; [reflexivity |].
  split; [| split; [discriminate | reflexivity]].
  intros l s Hl. injection Hl as <-.
  unfold typed. cbn [loaded_dimensions loaded_entries map held_entry].
  destruct (integer 1); discriminate.
Qed.

End PersistenceClaims.

(* ================================================================== *)
(** * Embeddings in batches *)
(* ================================================================== *)

Module GeminiFacts.

Import Gemini Examples.
Local Open Scope Z_scope.

(** ** Traces *)

Lemma requests_app (a b : trace) :
  requests (a ++ b) = (requests a + requests b)%nat.
Proof.
  induction a as [| [x | ms | d t] a IH]; simpl; congruence.
Qed.

(** ** Slices *)

Lemma slice_window (A : Type) (l : list A) (i n : Z) :
  0 <= i -> 0 <= n ->
  slice l i (i + n) = firstn (Z.to_nat n) (skipn (Z.to_nat i) l).
Proof.
  intros Hi Hn. unfold slice.
  destruct (Z.ltb_spec i 0) as [H | _]; [lia |].
  destruct (Z.ltb_spec (i + n) 0) as [H | _]; [lia |].
  destruct (Z_le_gt_dec (Z.of_nat (length l)) i) as [Hout | Hin].
  - rewrite (Z.min_r i), (Z.min_r (i + n)) by lia.
    rewrite Z.sub_diag. simpl.
    rewrite (skipn_all2 l (n:=Z.to_nat i)) by lia.
    now rewrite firstn_nil.
  - rewrite (Z.min_l i) by lia.
    destruct (Z_le_gt_dec (i + n) (Z.of_nat (length l))) as [Hfit | Hcut].
    + rewrite Z.min_l by lia. f_equal. lia.
    + rewrite Z.min_r by lia.
      rewrite !firstn_all2; [reflexivity | |]; rewrite length_skipn; lia.
Qed.

Lemma In_firstn (A : Type) (n : nat) (l : list A) (x : A) :
  In x (firstn n l) -> In x l.
Proof.
  intros H. rewrite <- (firstn_skipn n l). apply in_or_app. now left.
Qed.

Lemma In_skipn (A : Type) (n : nat) (l : list A) (x : A) :
  In x (skipn n l) -> In x l.
Proof.
  intros H. rewrite <- (firstn_skipn n l). apply in_or_app. now right.
Qed.

Lemma slice_incl (A : Type) (l : list A) (start end_ : Z) (x : A) :
  In x (slice l start end_) -> In x l.
Proof.
  unfold slice. intros H. apply In_firstn in H. now apply In_skipn in H.
Qed.

(** ** Truncation *)

Lemma string_slice0_length (text : string) :
  forall n, N.of_nat (String.length (string_slice0 text n)) = 
            N.min n (N.of_nat (String.length text)).
Proof.
  induction text as [| c rest IH]; intros n; simpl string_slice0.
  - simpl. lia.
  - destruct (N.eqb_spec n 0) as [-> | Hn].
    + simpl. lia.
    + cbn [String.length]. specialize (IH (N.pred n)). lia.
Qed.

Lemma string_slice0_prefix (text : string) :
  forall n, is_prefix (string_slice0 text n) text.
Proof.
  induction text as [| c rest IH]; intros n; simpl.
  - now exists EmptyString.
  - destruct (n =? 0)%N.
    + now exists (String c rest).
    + destruct (IH (N.pred n)) as [tail Htail].
      exists tail. simpl. now rewrite <- Htail.
Qed.

Lemma truncated_spec (text : string) :
  is_prefix (truncated text) text /\
  Z.of_nat (String.length (truncated text)) <= 10000.
Proof.
  unfold truncated.
  destruct (Z.ltb_spec 10000 (Z.of_nat (String.length text))) as [H | H].
  - split; [apply string_slice0_prefix |].
    pose proof (string_slice0_length text 10000) as Hl. lia.
  - split; [| exact H]. exists EmptyString.
    induction text as [| c rest IH]; simpl; [reflexivity |].
    f_equal. apply IH. simpl in H. lia.
Qed.

(** ** The loop over a batch *)

Lemma embed_text_safe (this : GeminiProvider) (texts : list string)
    (t : string) (rs : list EmbeddingResult) (tr tr' : trace)
    (c : completion (list EmbeddingResult)) :
  In t texts ->
  embed_text this t rs tr = (c, tr') ->
  Forall (result_ok this texts) rs ->
  exists evs, tr' = tr ++ evs /\ Forall (event_ok texts) evs /\
    forall rs', c = Returned rs' -> Forall (result_ok this texts) rs'.
Proof.
  intros Hin H Hrs. unfold embed_text, embedOne, sleep in H.
  assert (Hreq : event_ok texts (Requested (truncated t)))
    by (now exists t).
  assert (Hsl : event_ok texts (Slept 2000)) by (now left).
  destruct (embedContent this (requests tr) (truncated t))
    as [e1 | err1] eqn:E1.
  - injection H as <- <-. exists [Requested (truncated t)].
    split; [reflexivity |]. split; [now constructor |].
    intros rs' [= <-]. apply Forall_app. split; [exact Hrs |].
    constructor; [| constructor]. split; [exact Hin |].
    left. now exists (requests tr).
  - destruct (embedContent this
                (requests ((tr ++ [Requested (truncated t)]) ++ [Slept 2000]))
                (truncated t)) as [e2 | err2] eqn:E2.
    + injection H as <- <-.
      exists [Requested (truncated t); Slept 2000; Requested (truncated t)].
      split; [now rewrite <- !app_assoc |].
      split; [now repeat constructor |].
      intros rs' [= <-]. apply Forall_app. split; [exact Hrs |].
      constructor; [| constructor]. split; [exact Hin |].
      left. eexists. exact E2.
    + destruct (Array_fill0 (dimensions this)) as [zeros |] eqn:Ez.
      * injection H as <- <-.
        exists [Requested (truncated t); Slept 2000; Requested (truncated t)].
        split; [now rewrite <- !app_assoc |].
        split; [now repeat constructor |].
        intros rs' [= <-]. apply Forall_app. split; [exact Hrs |].
        constructor; [| constructor]. split; [exact Hin |].
        right. simpl. unfold Array_fill0 in Ez.
        destruct ((0 <=? dimensions this) && (dimensions this <? 2 ^ 32))%bool;
          [now injection Ez as <- | discriminate].
      * injection H as <- <-.
        exists [Requested (truncated t); Slept 2000; Requested (truncated t)].
        split; [now rewrite <- !app_assoc |].
        split; [now repeat constructor |]. discriminate.
Qed.

Lemma embed_texts_safe (this : GeminiProvider) (texts : list string)
    (batch : list string) :
  forall (rs : list EmbeddingResult) (tr tr' : trace)
         (c : completion (list EmbeddingResult)),
  (forall t, In t batch -> In t texts) ->
  embed_texts this batch rs tr = (c, tr') ->
  Forall (result_ok this texts) rs ->
  exists evs, tr' = tr ++ evs /\ Forall (event_ok texts) evs /\
    forall rs', c = Returned rs' -> Forall (result_ok this texts) rs'.
Proof.
  induction batch as [| t rest IH]; intros rs tr tr' c Hsub H Hrs.
  - simpl in H. injection H as <- <-. exists [].
    split; [now rewrite app_nil_r |]. split; [constructor |].
    now intros rs' [= <-].
  - simpl in H.
    destruct (embed_text this t rs tr) as [[rs1 |] tr1] eqn:E1.
    + destruct (@embed_text_safe this texts t rs tr tr1 _
                  (Hsub t (or_introl eq_refl)) E1 Hrs)
        as [evs1 [-> [Hev1 Hrs1]]].
      destruct (IH rs1 (tr ++ evs1) tr' c
                  (fun x Hx => Hsub x (or_intror Hx)) H
                  (Hrs1 rs1 eq_refl)) as [evs2 [-> [Hev2 Hrs2]]].
      exists (evs1 ++ evs2). split; [now rewrite app_assoc |].
      split; [| exact Hrs2]. apply Forall_app. now split.
    + injection H as <- <-.
      destruct (@embed_text_safe this texts t rs tr tr1 _
                  (Hsub t (or_introl eq_refl)) E1 Hrs)
        as [evs1 [-> [Hev1 _]]].
      exists evs1. split; [reflexivity |]. split; [exact Hev1 |].
      discriminate.
Qed.

Lemma batches_safe (this : GeminiProvider) (texts : list string)
    (size : Z) (observed : bool) (fuel : nat) :
  forall (i : Z) (rs : list EmbeddingResult) (tr tr' : trace)
         (c : completion (list EmbeddingResult)),
  batches fuel this texts size observed i rs tr = Some (c, tr') ->
  Forall (result_ok this texts) rs ->
  exists evs, tr' = tr ++ evs /\ Forall (event_ok texts) evs /\
    forall rs', c = Returned rs' -> Forall (result_ok this texts) rs'.
Proof.
  induction fuel as [| fuel IH]; intros i rs tr tr' c H Hrs;
    [discriminate |].
  cbn [batches] in H.
  destruct (i <? Z.of_nat (length texts)).
  - destruct (embed_texts this (slice texts i (i + size)) rs tr)
      as [[rs1 |] tr1] eqn:E1.
    + destruct (@embed_texts_safe this texts _ rs tr tr1 _
                  (fun t Ht => slice_incl _ _ _ _ Ht) E1 Hrs)
        as [evs1 [-> [Hev1 Hrs1]]].
      apply IH in H as [evs2 [-> [Hev2 Hrs2]]]; [| now apply Hrs1].
      assert (Hp : event_ok texts
                     (Progress (Z.min (i + size) (Z.of_nat (length texts)))
                               (Z.of_nat (length texts))))
        by reflexivity.
      assert (Hs : event_ok texts (Slept 500)) by (now right).
      unfold sleep.
      destruct observed, (i + size <? Z.of_nat (length texts));
        rewrite <- ?app_assoc; eexists; (split; [reflexivity |]);
        (split; [| exact Hrs2]);
        repeat (apply Forall_app; split); auto.
    + injection H as <- <-.
      destruct (@embed_texts_safe this texts _ rs tr tr1 _
                  (fun t Ht => slice_incl _ _ _ _ Ht) E1 Hrs)
        as [evs1 [-> [Hev1 _]]].
      exists evs1. split; [reflexivity |]. split; [exact Hev1 |].
      discriminate.
  - injection H as <- <-. exists [].
    split; [now rewrite app_nil_r |]. split; [constructor |].
    now intros rs' [= <-].
Qed.

(** ** With a batch size above 0 and a length that an array can have *)

Lemma Array_fill0_Some (n : Z) :
  array_length n -> Array_fill0 n = Some (repeat 0%R (Z.to_nat n)).
Proof.
  intros [H0 H1]. unfold Array_fill0.
  destruct (Z.leb_spec 0 n); [| lia].
  destruct (Z.ltb_spec n (2 ^ 32)); [reflexivity | lia].
Qed.

Lemma Array_fill0_None (n : Z) :
  ~ array_length n -> Array_fill0 n = None.
Proof.
  intros H. unfold Array_fill0, array_length in *.
  destruct (Z.leb_spec 0 n); [| reflexivity].
  destruct (Z.ltb_spec n (2 ^ 32)); [lia | reflexivity].
Qed.

Lemma embed_text_live (this : GeminiProvider) (t : string)
    (rs : list EmbeddingResult) (tr : trace) :
  array_length (dimensions this) ->
  exists e evs,
    embed_text this t rs tr = (Returned (rs ++ [mkEmbedding t e]), tr ++ evs)
    /\ (1 <= requests evs <= 2)%nat.
Proof.
  intros Hd. unfold embed_text, embedOne, sleep.
  destruct (embedContent this (requests tr) (truncated t)) as [e1 | err1].
  - exists e1, [Requested (truncated t)]. split; [reflexivity | simpl; lia].
  - destruct (embedContent this _ (truncated t)) as [e2 | err2].
    + exists e2,
        [Requested (truncated t); Slept 2000; Requested (truncated t)].
      split; [now rewrite <- !app_assoc | simpl; lia].
    + rewrite (Array_fill0_Some Hd).
      exists (repeat 0%R (Z.to_nat (dimensions this))),
        [Requested (truncated t); Slept 2000; Requested (truncated t)].
      split; [now rewrite <- !app_assoc | simpl; lia].
Qed.

Lemma embed_texts_live (this : GeminiProvider) (batch : list string) :
  array_length (dimensions this) ->
  forall (rs : list EmbeddingResult) (tr : trace),
  exists es evs,
    embed_texts this batch rs tr = (Returned (rs ++ es), tr ++ evs) /\
    map text es = batch /\
    (length batch <= requests evs <= 2 * length batch)%nat.
Proof.
  intros Hd. induction batch as [| t rest IH]; intros rs tr.
  - exists [], []. simpl. rewrite !app_nil_r. repeat split; lia.
  - destruct (@embed_text_live this t rs tr Hd) as [e [evs1 [E1 Hn1]]].
    destruct (IH (rs ++ [mkEmbedding t e]) (tr ++ evs1))
      as [es [evs2 [E2 [Hm Hn2]]]].
    exists (mkEmbedding t e :: es), (evs1 ++ evs2).
    cbn [embed_texts]. rewrite E1, E2.
    rewrite <- !app_assoc. split; [reflexivity |].
    split; [simpl; now rewrite Hm |].
    rewrite requests_app. simpl length. lia.
Qed.

Lemma batches_live (this : GeminiProvider) (texts : list string)
    (size : Z) (watched : bool) :
  array_length (dimensions this) -> 0 < size ->
  forall (fuel : nat) (i : Z) (rs : list EmbeddingResult) (tr : trace),
  0 <= i ->
  (Z.to_nat (Z.of_nat (length texts) - i) < fuel)%nat ->
  exists es evs,
    batches fuel this texts size watched i rs tr
    = Some (Returned (rs ++ es), tr ++ evs) /\
    map text es = skipn (Z.to_nat i) texts /\
    (length es <= requests evs <= 2 * length es)%nat /\
    (Z.of_nat (length texts) <= i -> evs = []) /\
    (watched = true -> i < Z.of_nat (length texts) ->
     exists before,
       evs = before ++ [Progress (Z.of_nat (length texts))
                                 (Z.of_nat (length texts))]).
Proof.
  intros Hd Hsize. set (total := Z.of_nat (length texts)).
  induction fuel as [| fuel IH]; intros i rs tr Hi Hfuel; [lia |].
  cbn [batches]. fold total.
  destruct (Z.ltb_spec i total) as [Hlt | Hge].
  - rewrite slice_window by lia.
    set (batch := firstn (Z.to_nat size) (skipn (Z.to_nat i) texts)).
    destruct (@embed_texts_live this batch Hd rs tr)
      as [es1 [evs1 [E1 [Hm1 Hn1]]]].
    rewrite E1.
    set (tr2 := if watched
                then (tr ++ evs1) ++ [Progress (Z.min (i + size) total) total]
                else tr ++ evs1).
    set (tr3 := if i + size <? total then sleep 500 tr2 else tr2).
    destruct (IH (i + size) (rs ++ es1) tr3)
      as [es2 [evs2 [E2 [Hm2 [Hn2 [Hend Hlast]]]]]]; [lia | lia |].
    rewrite E2.
    assert (Htr3 : exists mid, tr3 = (tr ++ evs1) ++ mid /\
                     requests mid = 0%nat /\
                     (watched = true -> total <= i + size ->
                      mid = [Progress total total])).
    { unfold tr3, tr2, sleep.
      destruct watched; destruct (Z.ltb_spec (i + size) total).
      - eexists. rewrite <- app_assoc. split; [reflexivity |].
        split; [reflexivity | lia].
      - eexists. split; [reflexivity |]. split; [reflexivity |].
        intros _ _. now rewrite Z.min_r by lia.
      - eexists. split; [reflexivity |]. split; [reflexivity |].
        discriminate.
      - exists []. rewrite app_nil_r. split; [reflexivity |].
        split; [reflexivity | discriminate]. }
    destruct Htr3 as [mid [-> [Hmid Hfinal]]].
    exists (es1 ++ es2), (evs1 ++ mid ++ evs2).
    rewrite <- !app_assoc. split; [reflexivity |].
    split.
    { rewrite map_app, Hm1, Hm2. unfold batch.
      replace (Z.to_nat (i + size)) with (Z.to_nat size + Z.to_nat i)%nat
        by lia.
      rewrite <- skipn_skipn. apply firstn_skipn. }
    split.
    { rewrite !requests_app, length_app, Hmid.
      assert (length es1 = length batch)
        by (rewrite <- Hm1; now rewrite length_map).
      lia. }
    split; [lia |].
    intros Hw _.
    destruct (Z_lt_le_dec (i + size) total) as [Hmore | Hdone].
    + destruct (Hlast Hw Hmore) as [before ->].
      exists (evs1 ++ mid ++ before). now rewrite <- !app_assoc.
    + rewrite (Hend Hdone), (Hfinal Hw Hdone), app_nil_r.
      now exists evs1.
  - exists [], []. rewrite !app_nil_r. split; [reflexivity |].
    split; [symmetry; apply skipn_all2; lia |].
    split; [simpl; lia |]. split; [reflexivity | lia].
Qed.

(** X22.  With a batch size above 0 and a configured length that an array
    can have, [embedBatch] returns, whatever the service does, and it returns
    exactly one result for each text, in the order of the texts. *)
Theorem embedBatch_one_result_per_text (this : GeminiProvider)
    (texts : list string) (options : option Options) (tr : trace)
    (fuel : nat) :
  0 < batch_size options ->
  array_length (dimensions this) ->
  (length texts < fuel)%nat ->
  exists rs tr',
    embedBatch fuel this texts options tr = Some (Returned rs, tr') /\
    map text rs = texts.
Proof.
  intros Hsize Hd Hfuel.
  destruct (@batches_live this texts (batch_size options) (observed options)
              Hd Hsize fuel 0 [] tr) as [es [evs [E [Hm _]]]];
    [lia | lia |].
  exists es, (tr ++ evs). split; [exact E | exact Hm].
Qed.

Lemma embedBatch_one_result_per_text_witness :
  exists rs tr',
    embedBatch 4 flaky ["a"; "b"; "c"]%string in_pairs []
    = Some (Returned rs, tr') /\
    map text rs = ["a"; "b"; "c"]%string.
Proof.
  apply (@embedBatch_one_result_per_text flaky ["a"; "b"; "c"]%string
           in_pairs [] 4).
  - reflexivity.
  - split; [discriminate | reflexivity].
  - simpl. lia.
Defined.

(** X23.  With a batch size above 0 and a configured length that an array
    can have, a call of [embedBatch] makes at least one request to the
    service for each text and at most two. *)
Theorem embedBatch_request_count (this : GeminiProvider)
    (texts : list string) (options : option Options) (tr : trace)
    (fuel : nat) :
  0 < batch_size options ->
  array_length (dimensions this) ->
  (length texts < fuel)%nat ->
  exists rs evs,
    embedBatch fuel this texts options tr = Some (Returned rs, tr ++ evs) /\
    (length texts <= requests evs <= 2 * length texts)%nat.
Proof.
  intros Hsize Hd Hfuel.
  destruct (@batches_live this texts (batch_size options) (observed options)
              Hd Hsize fuel 0 [] tr) as [es [evs [E [Hm [Hn _]]]]];
    [lia | lia |].
  exists es, evs. split; [exact E |].
  assert (length es = length texts)
    by (rewrite <- (length_map text es); now rewrite Hm).
  lia.
Qed.

Lemma embedBatch_request_count_witness :
  exists rs evs,
    embedBatch 4 flaky ["a"; "b"; "c"]%string in_pairs []
    = Some (Returned rs, [] ++ evs) /\
    (length ["a"; "b"; "c"]%string <= requests evs
     <= 2 * length ["a"; "b"; "c"]%string)%nat.
Proof.
  apply (@embedBatch_request_count flaky ["a"; "b"; "c"]%string
           in_pairs [] 4).
  - reflexivity.
  - split; [discriminate | reflexivity].
  - simpl. lia.
Defined.

(** X24.  With a batch size above 0, a configured length that an array can
    have, a progress callback and at least one text, the last thing a call of
    [embedBatch] does is to report that all the texts are done: it does not
    pause after the last batch. *)
Theorem embedBatch_reports_completion (this : GeminiProvider)
    (texts : list string) (options : option Options) (tr : trace)
    (fuel : nat) :
  0 < batch_size options ->
  array_length (dimensions this) ->
  (length texts < fuel)%nat ->
  observed options = true ->
  texts <> [] ->
  exists rs before,
    embedBatch fuel this texts options tr
    = Some (Returned rs,
            tr ++ before ++ [Progress (Z.of_nat (length texts))
                                      (Z.of_nat (length texts))]).
Proof.
  intros Hsize Hd Hfuel Hw Hne.
  destruct (@batches_live this texts (batch_size options) (observed options)
              Hd Hsize fuel 0 [] tr) as [es [evs [E [_ [_ [_ Hlast]]]]]];
    [lia | lia |].
  destruct (Hlast Hw) as [before ->].
  { destruct texts; [contradiction | simpl; lia]. }
  now exists es, before.
Qed.

Lemma embedBatch_reports_completion_witness :
  exists rs before,
    embedBatch 4 flaky ["a"; "b"; "c"]%string in_pairs []
    = Some (Returned rs,
            [] ++ before
               ++ [Progress (Z.of_nat (length ["a"; "b"; "c"]%string))
                            (Z.of_nat (length ["a"; "b"; "c"]%string))]).
Proof.
  apply (@embedBatch_reports_completion flaky ["a"; "b"; "c"]%string
           in_pairs [] 4).
  - reflexivity.
  - split; [discriminate | reflexivity].
  - simpl. lia.
  - reflexivity.
  - discriminate.
Defined.

(** X25.  Whatever the batch size, every result that [embedBatch] returns is
    for one of the texts, and its embedding is an answer of the service to a
    request for that text, cut to 10000 code units, or the zero vector of the
    configured length. *)
Theorem embedBatch_results_accounted (this : GeminiProvider)
    (texts : list string) (options : option Options) (tr tr' : trace)
    (fuel : nat) (rs : list EmbeddingResult) :
  embedBatch fuel this texts options tr = Some (Returned rs, tr') ->
  Forall (fun r => In (text r) texts /\ accounted this r) rs.
Proof.
  intros H. unfold embedBatch in H.
  apply (@batches_safe this texts) in H as [_ [_ [_ Hrs]]];
    [| constructor].
  exact (Hrs rs eq_refl).
Qed.

Lemma embedBatch_results_accounted_witness :
  Forall (fun r => In (text r) ["a"; "b"; "c"]%string /\ accounted flaky r)
    [mkEmbedding "a" [0; 0]%R; mkEmbedding "b" [1; 0]%R;
     mkEmbedding "c" [1; 0]%R].
Proof.
  apply (@embedBatch_results_accounted flaky ["a"; "b"; "c"]%string
           in_pairs []
           [Requested "a"; Slept 2000; Requested "a"; Requested "b";
            Progress 2 3; Slept 500; Requested "c"; Progress 3 3] 4).
  reflexivity.
Defined.

(** X26.  Whatever the batch size and however the call ends, the text of
    every request that [embedBatch] makes is the beginning of one of the
    texts and has at most 10000 code units. *)
Theorem embedBatch_requests_truncated (this : GeminiProvider)
    (texts : list string) (options : option Options) (tr tr' : trace)
    (fuel : nat) (c : completion (list EmbeddingResult)) :
  embedBatch fuel this texts options tr = Some (c, tr') ->
  exists evs,
    tr' = tr ++ evs /\
    forall x, In (Requested x) evs ->
      (exists t, In t texts /\ is_prefix x t) /\
      Z.of_nat (String.length x) <= 10000.
Proof.
  intros H. unfold embedBatch in H.
  apply (@batches_safe this texts) in H as [evs [-> [Hev _]]];
    [| constructor].
  exists evs. split; [reflexivity |].
  intros x Hx. rewrite Forall_forall in Hev.
  destruct (Hev _ Hx) as [t [Ht ->]].
  destruct (truncated_spec t) as [Hp Hl].
  split; [now exists t | exact Hl].
Qed.

Lemma embedBatch_requests_truncated_witness :
  exists evs,
    [Requested "a"; Slept 2000; Requested "a"] = [] ++ evs /\
    forall x, In (Requested x) evs ->
      (exists t, In t ["a"]%string /\ is_prefix x t) /\
      Z.of_nat (String.length x) <= 10000.
Proof.
  apply (@embedBatch_requests_truncated unreachable ["a"]%string None []
           [Requested "a"; Slept 2000; Requested "a"] 2 RangeError).
  reflexivity.
Defined.

(** X27.  With a batch size of 0 or below and at least one text,
    [embedBatch] never returns: however many turns the loop is given, it has
    not come to its end, unless the zero vector could not be made and the
    call has ended in a [RangeError]. *)
Theorem embedBatch_stuck (this : GeminiProvider)
    (texts : list string) (options : option Options) (tr : trace)
    (fuel : nat) :
  batch_size options <= 0 ->
  texts <> [] ->
  embedBatch fuel this texts options tr = None \/
  exists tr', embedBatch fuel this texts options tr = Some (RangeError, tr').
Proof.
  intros Hsize Hne. unfold embedBatch.
  assert (Hlen : 0 < Z.of_nat (length texts))
    by (destruct texts; [contradiction | simpl; lia]).
  assert (Hi : 0 <= 0) by lia. revert Hi.
  generalize (@nil EmbeddingResult) as rs. generalize tr as tr0.
  generalize 0 at 1 3 4 as i.
  induction fuel as [| fuel IH]; intros i tr0 rs Hi; [now left |].
  cbn [batches].
  destruct (Z.ltb_spec i (Z.of_nat (length texts))) as [_ | Hge]; [| lia].
  destruct (embed_texts this (slice texts i (i + batch_size options)) rs tr0)
    as [[rs1 |] tr1].
  - apply IH. lia.
  - right. now exists tr1.
Qed.

Lemma embedBatch_stuck_witness :
  embedBatch 9 flaky ["a"]%string stuck [] = None \/
  exists tr', embedBatch 9 flaky ["a"]%string stuck []
              = Some (RangeError, tr').
Proof.
  apply (@embedBatch_stuck flaky ["a"]%string stuck [] 9).
  - simpl. lia.
  - discriminate.
Defined.

(** ** The zero vector in an index *)

(** X28.  The zero vector that [embedBatch] falls back to has the configured
    length, so [add] accepts it in every index of that dimensionality; and on
    the numbers of the program its similarity to a query vector of that
    length is exactly 0 whenever the norm computed for the query is finite
    (it is NaN, for one, when that norm overflows). *)
Theorem fallback_vector (this : GeminiProvider) (zeros : list R)
    (i : string) (md : VectorStore.Metadata)
    (s : VectorStore.LocalVectorStore) (q : list PrimFloat.float) :
  Array_fill0 (getEmbeddingDimensions this) = Some zeros ->
  VectorStore.dimensions s = getEmbeddingDimensions this ->
  fst (VectorStore.add i zeros md s) = Ok tt /\
  (length q = length zeros ->
   Binary64.finite (Binary64.norm q) = true ->
   Binary64.cosineSimilarity q (Binary64.zeros (length zeros))
   = Ok Binary64.zero).
Proof.
  unfold getEmbeddingDimensions, Array_fill0. intros Hz Hs.
  destruct (Z.leb_spec 0 (dimensions this)) as [H0 |]; [| discriminate].
  destruct (dimensions this <? 2 ^ 32); [| discriminate].
  injection Hz as <-.
  assert (Hlen : length (repeat 0%R (Z.to_nat (dimensions this)))
                 = Z.to_nat (dimensions this)) by apply repeat_length.
  split.
  - rewrite VectorStoreFacts.add_ok; [reflexivity |].
    rewrite Hlen, Hs. lia.
  - intros Hq Hfinite. apply Binary64Facts.zero_norm.
    + unfold Binary64.zeros. now rewrite repeat_length.
    + right. split; [exact Hfinite |].
      now rewrite Binary64Facts.norm_zeros.
Qed.

Lemma fallback_vector_witness :
  fst (VectorStore.add "chunk_0000" [0; 0]%R [] (VectorStore.new 2))
  = Ok tt /\
  Binary64.cosineSimilarity along_x (Binary64.zeros 2) = Ok Binary64.zero.
Proof.
  destruct (@fallback_vector flaky [0; 0]%R "chunk_0000" []
              (VectorStore.new 2) along_x eq_refl eq_refl) as [Hadd Hcos].
  split; [exact Hadd |].
  apply Hcos; reflexivity.
Defined.

End GeminiFacts.

(* ================================================================== *)
(** * Embeddings in batches, with a batch request *)
(* ================================================================== *)

Module OpenRouterFacts.

Import OpenRouter Examples.
Local Open Scope Z_scope.

Lemma push_answers_enough (batch : list string) :
  forall (data : list (list R)) (rs : list Gemini.EmbeddingResult),
  (length batch <= length data)%nat ->
  exists es,
    push_answers batch data rs = (true, rs ++ es) /\
    map Gemini.text es = batch.
Proof.
  induction batch as [| t rest IH]; intros data rs Hlen.
  - exists []. simpl. now rewrite app_nil_r.
  - destruct data as [| e data]; simpl in Hlen; [lia |].
    destruct (IH data (rs ++ [Gemini.mkEmbedding t e])) as [es [E Hm]];
      [lia |].
    exists (Gemini.mkEmbedding t e :: es). simpl. rewrite E.
    rewrite <- app_assoc. split; [reflexivity | now rewrite Hm].
Qed.

Lemma push_answers_short (batch : list string) :
  forall (data : list (list R)) (rs : list Gemini.EmbeddingResult),
  (length data < length batch)%nat ->
  exists es,
    push_answers batch data rs = (false, rs ++ es) /\
    map Gemini.text es = firstn (length data) batch.
Proof.
  induction batch as [| t rest IH]; intros data rs Hlen;
    [simpl in Hlen; lia |].
  destruct data as [| e data].
  - exists []. simpl. now rewrite app_nil_r.
  - simpl in Hlen.
    destruct (IH data (rs ++ [Gemini.mkEmbedding t e])) as [es [E Hm]];
      [lia |].
    exists (Gemini.mkEmbedding t e :: es). simpl. rewrite E.
    rewrite <- app_assoc. split; [reflexivity | now rewrite Hm].
Qed.

Lemma fallback_text_live (this : OpenRouterProvider) (t : string)
    (rs : list Gemini.EmbeddingResult) (tr : trace) :
  Gemini.array_length (dimensions this) ->
  exists e evs,
    fallback_text this t rs tr
    = (Gemini.Returned (rs ++ [Gemini.mkEmbedding t e]), tr ++ evs).
Proof.
  intros Hd. unfold fallback_text, embedOne.
  rewrite (GeminiFacts.Array_fill0_Some Hd).
  destruct (create this (requests tr) (Text (Gemini.truncated t)))
    as [[| e data] | err]; eauto.
Qed.

Lemma fallback_texts_live (this : OpenRouterProvider) (batch : list string) :
  Gemini.array_length (dimensions this) ->
  forall (rs : list Gemini.EmbeddingResult) (tr : trace),
  exists es evs,
    fallback_texts this batch rs tr
    = (Gemini.Returned (rs ++ es), tr ++ evs) /\
    map Gemini.text es = batch.
Proof.
  intros Hd. induction batch as [| t rest IH]; intros rs tr.
  - exists [], []. simpl. now rewrite !app_nil_r.
  - destruct (@fallback_text_live this t rs tr Hd) as [e [evs1 E1]].
    destruct (IH (rs ++ [Gemini.mkEmbedding t e]) (tr ++ evs1))
      as [es [evs2 [E2 Hm]]].
    exists (Gemini.mkEmbedding t e :: es), (evs1 ++ evs2).
    cbn [fallback_texts]. rewrite E1, E2. rewrite <- !app_assoc.
    split; [reflexivity | simpl; now rewrite Hm].
Qed.

Lemma embed_batch_complete (this : OpenRouterProvider)
    (batch : list string) (rs : list Gemini.EmbeddingResult) (tr : trace) :
  Gemini.array_length (dimensions this) ->
  complete_answers this ->
  exists es evs,
    embed_batch this batch rs tr
    = (Gemini.Returned (rs ++ es), tr ++ evs) /\
    map Gemini.text es = batch.
Proof.
  intros Hd Hc. unfold embed_batch.
  destruct (create this (requests tr) (Texts (map Gemini.truncated batch)))
    as [data | err] eqn:E.
  - apply Hc in E. rewrite length_map in E.
    destruct (@push_answers_enough batch data rs E) as [es [-> Hm]].
    now exists es, [Requested (Texts (map Gemini.truncated batch))].
  - destruct (@fallback_texts_live this batch Hd rs
                (tr ++ [Requested (Texts (map Gemini.truncated batch))]))
      as [es [evs [-> Hm]]].
    exists es, (Requested (Texts (map Gemini.truncated batch)) :: evs).
    rewrite <- app_assoc. now split.
Qed.

Lemma batches_complete (this : OpenRouterProvider) (texts : list string)
    (size : Z) (watched : bool) :
  Gemini.array_length (dimensions this) ->
  complete_answers this ->
  0 < size ->
  forall (fuel : nat) (i : Z) (rs : list Gemini.EmbeddingResult)
         (tr : trace),
  0 <= i ->
  (Z.to_nat (Z.of_nat (length texts) - i) < fuel)%nat ->
  exists es tr',
    batches fuel this texts size watched i rs tr
    = Some (Gemini.Returned (rs ++ es), tr') /\
    map Gemini.text es = skipn (Z.to_nat i) texts.
Proof.
  intros Hd Hc Hsize.
  induction fuel as [| fuel IH]; intros i rs tr Hi Hfuel; [lia |].
  cbn [batches].
  destruct (Z.ltb_spec i (Z.of_nat (length texts))) as [Hlt | Hge].
  - rewrite GeminiFacts.slice_window by lia.
    set (batch := firstn (Z.to_nat size) (skipn (Z.to_nat i) texts)).
    destruct (@embed_batch_complete this batch rs tr Hd Hc)
      as [es1 [evs1 [-> Hm1]]].
    match goal with
    | |- context [batches fuel this texts size watched (i + size)
                    (rs ++ es1) ?t] =>
        destruct (IH (i + size) (rs ++ es1) t) as [es2 [tr' [-> Hm2]]];
          [lia | lia |]
    end.
    exists (es1 ++ es2), tr'. rewrite <- app_assoc.
    split; [reflexivity |].
    rewrite map_app, Hm1, Hm2. unfold batch.
    replace (Z.to_nat (i + size)) with (Z.to_nat size + Z.to_nat i)%nat
      by lia.
    rewrite <- skipn_skipn. apply firstn_skipn.
  - exists [], tr. rewrite app_nil_r. split; [reflexivity |].
    symmetry. apply skipn_all2. lia.
Qed.

(** X29.  When the service answers every batch request it answers with an
    embedding for each input, then with a batch size above 0 and a
    configured length that an array can have, [embedBatch] returns exactly one
    result for each text, in the order of the texts, whichever requests
    fail. *)
Theorem embedBatch_aligned (this : OpenRouterProvider)
    (texts : list string) (options : option Gemini.Options) (tr : trace)
    (fuel : nat) :
  complete_answers this ->
  0 < Gemini.batch_size options ->
  Gemini.array_length (dimensions this) ->
  (length texts < fuel)%nat ->
  exists rs tr',
    embedBatch fuel this texts options tr
    = Some (Gemini.Returned rs, tr') /\
    map Gemini.text rs = texts.
Proof.
  intros Hc Hsize Hd Hfuel.
  destruct (@batches_complete this texts (Gemini.batch_size options)
              (Gemini.observed options) Hd Hc Hsize fuel 0 [] tr)
    as [es [tr' [E Hm]]]; [lia | lia |].
  now exists es, tr'.
Qed.

Lemma embedBatch_aligned_witness :
  exists rs tr',
    embedBatch 4 steady ["a"; "b"; "c"]%string in_pairs []
    = Some (Gemini.Returned rs, tr') /\
    map Gemini.text rs = ["a"; "b"; "c"]%string.
Proof.
  apply (@embedBatch_aligned steady ["a"; "b"; "c"]%string in_pairs [] 4).
  - intros n inputs data H. simpl in H. injection H as <-.
    rewrite length_map. lia.
  - reflexivity.
  - split; [discriminate | reflexivity].
  - simpl. lia.
Defined.

(** X30.  When the texts fit in one batch and the service answers the request
    for it with fewer embeddings than inputs, [embedBatch] returns first a
    result for each text that was answered and then, from the fallback, a
    result for every text once more: with at least one embedding in the
    answer there are more results than texts. *)
Theorem embedBatch_short_answer (this : OpenRouterProvider)
    (texts : list string) (options : option Gemini.Options) (tr : trace)
    (fuel : nat) (data : list (list R)) :
  Gemini.array_length (dimensions this) ->
  Z.of_nat (length texts) <= Gemini.batch_size options ->
  create this (requests tr) (Texts (map Gemini.truncated texts)) = Ok data ->
  (length data < length texts)%nat ->
  (2 <= fuel)%nat ->
  exists rs tr',
    embedBatch fuel this texts options tr
    = Some (Gemini.Returned rs, tr') /\
    map Gemini.text rs = firstn (length data) texts ++ texts.
Proof.
  intros Hd Hfit Hdata Hshort Hfuel.
  destruct fuel as [| [| fuel]]; try lia.
  unfold embedBatch. cbn [batches].
  destruct (Z.ltb_spec 0 (Z.of_nat (length texts))) as [_ | H]; [| lia].
  rewrite GeminiFacts.slice_window by lia.
  cbn [Z.to_nat skipn].
  rewrite firstn_all2 by lia.
  unfold embed_batch. rewrite Hdata.
  destruct (@push_answers_short texts data [] Hshort) as [es1 [-> Hm1]].
  destruct (@fallback_texts_live this texts Hd ([] ++ es1)
              (tr ++ [Requested (Texts (map Gemini.truncated texts))]))
    as [es2 [evs [-> Hm2]]].
  destruct (Z.ltb_spec (0 + Gemini.batch_size options)
              (Z.of_nat (length texts))) as [H | _]; [lia |].
  eexists _, _. split; [reflexivity |].
  rewrite !map_app. simpl. now rewrite Hm1, Hm2.
Qed.

Lemma embedBatch_short_answer_witness :
  exists rs tr',
    embedBatch 2 terse ["a"; "b"]%string None []
    = Some (Gemini.Returned rs, tr') /\
    map Gemini.text rs
    = firstn (length [[1; 0]%R]) ["a"; "b"]%string ++ ["a"; "b"]%string.
Proof.
  apply (@embedBatch_short_answer terse ["a"; "b"]%string None [] 2
           [[1; 0]%R]).
  - split; [discriminate | reflexivity].
  - simpl. unfold Gemini.batch_size. lia.
  - reflexivity.
  - simpl. lia.
  - lia.
Defined.

End OpenRouterFacts.
